(** * pylds: Kalman filtering, RTS smoothing, FFBS and the EM E-step

    A shallow embedding of [pylds/lds_messages.pyx].  The Cython code works on
    raw [double] buffers that it hands to BLAS and LAPACK by address, so the
    embedding keeps that shape: a heap of named buffers, pointers into them,
    and the BLAS/LAPACK entry points as heap transformers.  The scalar type is
    abstract (a [Scalar] structure); it is instantiated with IEEE binary64
    (primitive floats) to run the code, and with the real numbers for the
    algebraic statements. *)

From Stdlib Require Import List Arith Bool Lia ZArith.
From Stdlib Require Import Floats.PrimFloat.
Import ListNotations.

Set Implicit Arguments.

(** ** Scalars *)

(** What the code needs of a [double]: the field operations, [sqrt] (inside
    [dpotrf] and [dnrm2]), [log] (libc), the constant [PI], the conversion of
    a C [int], and the two comparisons [==] and [<=]. *)
Class Scalar (F : Type) : Type := {
  f0 : F;
  f1 : F;
  fadd : F -> F -> F;
  fsub : F -> F -> F;
  fmul : F -> F -> F;
  fdiv : F -> F -> F;
  fneg : F -> F;
  fsqrt : F -> F;
  flog : F -> F;
  fpi : F;
  f_of_nat : nat -> F;
  feqb : F -> F -> bool;
  fleb : F -> F -> bool;
  (** BLAS tells [beta = 0] and [beta = 1] apart with [==]. *)
  feqb_0_0 : feqb f0 f0 = true;
  feqb_1_1 : feqb f1 f1 = true;
  feqb_1_0 : feqb f1 f0 = false
}.

(** ** Buffers, pointers and the heap *)

(** One name per array of the source: the seven arguments of the public
    routines, and every [np.empty] / [np.copy] / [np.random.randn] buffer
    that a routine allocates. *)
Inductive buffer : Type :=
  | b_mu_init | b_sigma_init | b_A | b_sigma_states | b_C | b_sigma_obs
  | b_data
  | b_mu_predict | b_sigma_predict
  | b_mu_predicts | b_sigma_predicts
  | b_temp_pp | b_temp_pn | b_temp_p | b_temp_nn | b_temp_nn2 | b_temp_n
  | b_filtered_mus | b_filtered_sigmas
  | b_smoothed_mus | b_smoothed_sigmas
  | b_randseq | b_ExxnT.

Definition buffer_eq_dec (a b : buffer) : {a = b} + {a <> b}.
Proof. decide equality. Defined.

Definition buffer_eqb (a b : buffer) : bool :=
  if buffer_eq_dec a b then true else false.

(** A pointer [&x[0]] or [&x[0,0]]: a buffer and an element offset. *)
Record ptr : Type := mkptr { pbuf : buffer; poff : nat }.

Definition ptr_eqb (q r : ptr) : bool :=
  buffer_eqb (pbuf q) (pbuf r) && Nat.eqb (poff q) (poff r).

(** [x[t]] for a C-contiguous array whose rows hold [stride] elements. *)
Definition slice (b : buffer) (stride t : nat) : ptr := mkptr b (t * stride).

(** The whole of an array. *)
Definition whole (b : buffer) : ptr := mkptr b 0.

(** The status codes LAPACK hands back through [&info]. *)
Inductive lapack : Type := DPOTRF | DTRTRS | DPOTRS.

Section Model.

Context {F : Type} {SF : Scalar F}.

Definition mem : Type := buffer -> nat -> F.

(** The machine state: the heap of doubles, and the trace of every [info]
    that a LAPACK call wrote.  The source keeps [info] in a local that no
    statement reads; the trace is the only place where it shows. *)
Record machine : Type := mkmachine { heap : mem; infos : list (lapack * nat) }.

Definition load (m : mem) (q : ptr) (len : nat) : list F :=
  map (fun k => m (pbuf q) (poff q + k)) (seq 0 len).

Definition store (q : ptr) (l : list F) (m : mem) : mem :=
  fun b k =>
    if buffer_eqb b (pbuf q) && (poff q <=? k) && (k <? poff q + length l)
    then nth (k - poff q) l f0
    else m b k.

(** ** BLAS level 1, 2 and 3 on values

    Matrices are column-major (Fortran order) with a leading dimension, as
    the backend sees them. *)

Inductive trans : Type := NoTrans | Trans.

Definition at1 (x : list F) (i : nat) : F := nth i x f0.

Definition at2 (a : list F) (ld i j : nat) : F := nth (i + j * ld) a f0.

(** [op(A)(i,j)] *)
Definition opat (tr : trans) (a : list F) (ld i j : nat) : F :=
  match tr with NoTrans => at2 a ld i j | Trans => at2 a ld j i end.

(** [sum_{l<k} f l], accumulated from the left starting at zero. *)
Definition fsum (k : nat) (f : nat -> F) : F :=
  fold_left (fun acc l => fadd acc (f l)) (seq 0 k) f0.

(** [acc + sum_{l<k} f l], accumulated from the left. *)
Definition facc (k : nat) (acc : F) (f : nat -> F) : F :=
  fold_left (fun a l => fadd a (f l)) (seq 0 k) acc.

(** [beta * c] as BLAS forms it: [beta = 0] does not read [c], [beta = 1]
    leaves it as it is. *)
Definition scale_beta (beta c : F) : F :=
  if feqb beta f0 then f0 else if feqb beta f1 then c else fmul beta c.

(** y := x *)
Definition dcopy_v (n : nat) (x : list F) (incx : nat) (y : list F) (incy : nat)
  : list F :=
  map (fun k => if (k mod incy =? 0) then at1 x ((k / incy) * incx) else at1 y k)
      (seq 0 (n * incy)).

(** y := alpha x + y *)
Definition daxpy_v (n : nat) (alpha : F) (x : list F) (incx : nat)
    (y : list F) (incy : nat) : list F :=
  map (fun k => if (k mod incy =? 0)
                then fadd (at1 y k) (fmul alpha (at1 x ((k / incy) * incx)))
                else at1 y k)
      (seq 0 (n * incy)).

(** The Euclidean norm. *)
Definition dnrm2_v (n : nat) (x : list F) (incx : nat) : F :=
  fsqrt (fsum n (fun i => fmul (at1 x (i * incx)) (at1 x (i * incx)))).

(** y := alpha op(A) x + beta y, with A an m x n matrix. *)
Definition dgemv_v (tr : trans) (m n : nat) (alpha : F) (a : list F) (lda : nat)
    (x : list F) (incx : nat) (beta : F) (y : list F) (incy : nat) : list F :=
  let leny := match tr with NoTrans => m | Trans => n end in
  let lenx := match tr with NoTrans => n | Trans => m end in
  map (fun k =>
         if (k mod incy =? 0) then
           let j := k / incy in
           match tr with
           | Trans =>
               fadd (scale_beta beta (at1 y k))
                    (fmul alpha (fsum lenx (fun i => fmul (at2 a lda i j) (at1 x (i * incx)))))
           | NoTrans =>
               facc lenx (scale_beta beta (at1 y k))
                    (fun i => fmul (fmul alpha (at1 x (i * incx))) (at2 a lda j i))
           end
         else at1 y k)
      (seq 0 (leny * incy)).

(** C := alpha op(A) op(B) + beta C, with op(A) m x k, op(B) k x n. *)
Definition dgemm_v (ta tb : trans) (m n k : nat) (alpha : F)
    (a : list F) (lda : nat) (b : list F) (ldb : nat)
    (beta : F) (c : list F) (ldc : nat) : list F :=
  map (fun idx =>
         let i := idx mod ldc in
         let j := idx / ldc in
         if i <? m then
           match ta with
           | NoTrans =>
               facc k (scale_beta beta (at1 c idx))
                    (fun l => fmul (fmul alpha (opat tb b ldb l j)) (at2 a lda i l))
           | Trans =>
               let temp := fsum k (fun l => fmul (at2 a lda l i) (opat tb b ldb l j)) in
               if feqb beta f0 then fmul alpha temp
               else fadd (fmul alpha temp) (fmul beta (at1 c idx))
           end
         else at1 c idx)
      (seq 0 (ldc * n)).

(** A := alpha x y^T + A, with A an m x n matrix. *)
Definition dger_v (m n : nat) (alpha : F) (x : list F) (incx : nat)
    (y : list F) (incy : nat) (a : list F) (lda : nat) : list F :=
  map (fun idx =>
         let i := idx mod lda in
         let j := idx / lda in
         if i <? m then
           fadd (at1 a idx) (fmul (at1 x (i * incx)) (fmul alpha (at1 y (j * incy))))
         else at1 a idx)
      (seq 0 (lda * n)).

(** ** LAPACK on values

    [dpotrf] follows the unblocked lower algorithm (dpotf2): column [j] is
    finished from the columns before it, and the factorization stops with
    [info = j+1] at the first pivot that is not positive (or is a NaN),
    leaving the matrix half-factored. *)

Definition dpotf2_pivot (a : list F) (lda j : nat) : F :=
  fsub (at2 a lda j j) (fsum j (fun l => fmul (at2 a lda j l) (at2 a lda j l))).

Definition dpotf2_fail (n : nat) (a : list F) (lda j : nat) : list F :=
  map (fun idx => if idx =? j + j * lda then dpotf2_pivot a lda j else at1 a idx)
      (seq 0 (lda * n)).

Definition dpotf2_step (n : nat) (a : list F) (lda j : nat) : list F :=
  let ajj := fsqrt (dpotf2_pivot a lda j) in
  map (fun idx =>
         let i := idx mod lda in
         let c := idx / lda in
         if (c =? j) && (i =? j) then ajj
         else if (c =? j) && (j <? i) && (i <? n) then
           fmul (fdiv f1 ajj)
                (facc j (at1 a idx)
                      (fun l => fmul (fmul (fneg f1) (at2 a lda j l)) (at2 a lda i l)))
         else at1 a idx)
      (seq 0 (lda * n)).

Fixpoint dpotf2_from (todo : nat) (n : nat) (a : list F) (lda j : nat)
  : list F * nat :=
  match todo with
  | 0 => (a, 0)
  | S todo' =>
      let ajj := dpotf2_pivot a lda j in
      if fleb ajj f0 || negb (feqb ajj ajj)
      then (dpotf2_fail n a lda j, S j)
      else dpotf2_from todo' n (dpotf2_step n a lda j) lda (S j)
  end.

(** [dpotrf('L', n, a, lda, info)]: the new contents of [a], and [info]. *)
Definition dpotrf_v (n : nat) (a : list F) (lda : nat) : list F * nat :=
  dpotf2_from n n (map (at1 a) (seq 0 (lda * n))) lda 0.

(** Forward substitution [L x = b] with the lower triangle of [a]. *)
Definition fwd_step (a : list F) (lda : nat) (b : nat -> F) (xs : list F) : list F :=
  let k := length xs in
  xs ++ [fdiv (fold_left (fun acc l => fsub acc (fmul (at1 xs l) (at2 a lda k l)))
                         (seq 0 k) (b k))
              (at2 a lda k k)].

Definition fwd_subst (m : nat) (a : list F) (lda : nat) (b : nat -> F) : list F :=
  Nat.iter m (fwd_step a lda b) [].

(** Back substitution [L^T x = b] with the lower triangle of [a]; [xs] holds
    the entries already solved, [x(i+1) .. x(m-1)]. *)
Definition bwd_step (m : nat) (a : list F) (lda : nat) (b : nat -> F) (xs : list F)
  : list F :=
  let i := m - 1 - length xs in
  fdiv (fold_left (fun acc k => fsub acc (fmul (at2 a lda (i + 1 + k) i) (at1 xs k)))
                  (seq 0 (length xs)) (b i))
       (at2 a lda i i) :: xs.

Definition bwd_subst (m : nat) (a : list F) (lda : nat) (b : nat -> F) : list F :=
  Nat.iter m (bwd_step m a lda b) [].

(** [dtrsm('L', 'L', tr, 'N', m, nrhs, one, a, lda, b, ldb)]. *)
Definition dtrsm_v (tr : trans) (m nrhs : nat) (a : list F) (lda : nat)
    (b : list F) (ldb : nat) : list F :=
  map (fun idx =>
         let i := idx mod ldb in
         let j := idx / ldb in
         if i <? m then
           let col := fun r => at2 b ldb r j in
           match tr with
           | NoTrans => at1 (fwd_subst m a lda col) i
           | Trans => at1 (bwd_subst m a lda col) i
           end
         else at1 b idx)
      (seq 0 (ldb * nrhs)).

(** The first zero on the diagonal, counted from 1; 0 when there is none. *)
Fixpoint first_zero_diag (todo : nat) (a : list F) (lda j : nat) : nat :=
  match todo with
  | 0 => 0
  | S todo' => if feqb (at2 a lda j j) f0 then S j
               else first_zero_diag todo' a lda (S j)
  end.

(** [dtrtrs('L', tr, 'N', n, nrhs, a, lda, b, ldb, info)]: a singular
    triangle is reported and nothing is solved. *)
Definition dtrtrs_v (tr : trans) (n nrhs : nat) (a : list F) (lda : nat)
    (b : list F) (ldb : nat) : list F * nat :=
  match first_zero_diag n a lda 0 with
  | 0 => (dtrsm_v tr n nrhs a lda b ldb, 0)
  | S j => (map (at1 b) (seq 0 (ldb * nrhs)), S j)
  end.

(** [dpotrs('L', n, nrhs, a, lda, b, ldb, info)]: solves [L L^T X = B]. *)
Definition dpotrs_v (n nrhs : nat) (a : list F) (lda : nat)
    (b : list F) (ldb : nat) : list F :=
  dtrsm_v Trans n nrhs a lda (dtrsm_v NoTrans n nrhs a lda b ldb) ldb.

(** [dtrmv('L', 'N', 'N', n, a, lda, x, incx)]: x := L x. *)
Definition dtrmv_v (n : nat) (a : list F) (lda : nat) (x : list F) (incx : nat)
  : list F :=
  map (fun k =>
         if (k mod incx =? 0) then
           let i := k / incx in
           fold_left (fun acc j => fadd acc (fmul (at1 x (j * incx)) (at2 a lda i j)))
                     (rev (seq 0 i))
                     (fmul (at1 x k) (at2 a lda i i))
         else at1 x k)
      (seq 0 (n * incx)).

(** ** BLAS and LAPACK on the heap

    Each entry point reads its operands at the addresses it is given,
    computes, and writes its output operand back.  The LAPACK ones also
    append the status they return to the trace. *)

Definition upd_heap (f : mem -> mem) (s : machine) : machine :=
  mkmachine (f (heap s)) (infos s).

Definition note (c : lapack) (info : nat) (s : machine) : machine :=
  mkmachine (heap s) (infos s ++ [(c, info)]).

(** [q[k]] *)
Definition rd (s : machine) (q : ptr) (k : nat) : F := heap s (pbuf q) (poff q + k).

Definition dcopy (n : nat) (x : ptr) (incx : nat) (y : ptr) (incy : nat)
    (s : machine) : machine :=
  let h := heap s in
  upd_heap (store y (dcopy_v n (load h x (n * incx)) incx (load h y (n * incy)) incy)) s.

Definition daxpy (n : nat) (alpha : F) (x : ptr) (incx : nat) (y : ptr) (incy : nat)
    (s : machine) : machine :=
  let h := heap s in
  upd_heap (store y (daxpy_v n alpha (load h x (n * incx)) incx
                             (load h y (n * incy)) incy)) s.

Definition dnrm2 (n : nat) (x : ptr) (incx : nat) (s : machine) : F :=
  dnrm2_v n (load (heap s) x (n * incx)) incx.

Definition dgemv (tr : trans) (m n : nat) (alpha : F) (a : ptr) (lda : nat)
    (x : ptr) (incx : nat) (beta : F) (y : ptr) (incy : nat) (s : machine) : machine :=
  let h := heap s in
  let leny := match tr with NoTrans => m | Trans => n end in
  let lenx := match tr with NoTrans => n | Trans => m end in
  upd_heap (store y (dgemv_v tr m n alpha (load h a (lda * n)) lda
                             (load h x (lenx * incx)) incx beta
                             (load h y (leny * incy)) incy)) s.

Definition dgemm (ta tb : trans) (m n k : nat) (alpha : F) (a : ptr) (lda : nat)
    (b : ptr) (ldb : nat) (beta : F) (c : ptr) (ldc : nat) (s : machine) : machine :=
  let h := heap s in
  let ka := match ta with NoTrans => k | Trans => m end in
  let kb := match tb with NoTrans => n | Trans => k end in
  upd_heap (store c (dgemm_v ta tb m n k alpha (load h a (lda * ka)) lda
                             (load h b (ldb * kb)) ldb beta
                             (load h c (ldc * n)) ldc)) s.

Definition dger (m n : nat) (alpha : F) (x : ptr) (incx : nat) (y : ptr) (incy : nat)
    (a : ptr) (lda : nat) (s : machine) : machine :=
  let h := heap s in
  upd_heap (store a (dger_v m n alpha (load h x (m * incx)) incx
                            (load h y (n * incy)) incy
                            (load h a (lda * n)) lda)) s.

Definition dpotrf (n : nat) (a : ptr) (lda : nat) (s : machine) : machine :=
  let r := dpotrf_v n (load (heap s) a (lda * n)) lda in
  note DPOTRF (snd r) (upd_heap (store a (fst r)) s).

Definition dtrtrs (tr : trans) (n nrhs : nat) (a : ptr) (lda : nat)
    (b : ptr) (ldb : nat) (s : machine) : machine :=
  let h := heap s in
  let r := dtrtrs_v tr n nrhs (load h a (lda * n)) lda (load h b (ldb * nrhs)) ldb in
  note DTRTRS (snd r) (upd_heap (store b (fst r)) s).

Definition dpotrs (n nrhs : nat) (a : ptr) (lda : nat) (b : ptr) (ldb : nat)
    (s : machine) : machine :=
  let h := heap s in
  note DPOTRS 0
       (upd_heap (store b (dpotrs_v n nrhs (load h a (lda * n)) lda
                                    (load h b (ldb * nrhs)) ldb)) s).

Definition dtrmv (n : nat) (a : ptr) (lda : nat) (x : ptr) (incx : nat)
    (s : machine) : machine :=
  let h := heap s in
  upd_heap (store x (dtrmv_v n (load h a (lda * n)) lda (load h x (n * incx)) incx)) s.

(** ** The five primitives of [lds_messages.pyx] *)

Definition one : F := f1.
Definition zero : F := f0.
Definition neg1 : F := fneg f1.

(** [for i in range(p): ll -= log(temp_pp[i,i])] *)
Definition sub_log_diag (p : nat) (temp_pp : ptr) (s : machine) (ll : F) : F :=
  fold_left (fun acc i => fsub acc (flog (rd s temp_pp (i + i * p)))) (seq 0 p) ll.

(** [condition_on]; [p] and [n] are [C.shape[0]] and [C.shape[1]]. *)
Definition condition_on (mu_x sigma_x C sigma_obs y mu_cond sigma_cond
    temp_p temp_pn temp_pp : ptr) (p n : nat) (s : machine) : F * machine :=
  let nn := n * n in
  let pp := p * p in
  let inc := 1 in
  if negb (feqb (rd s y 0) (rd s y 0)) then
    let s := dcopy n mu_x inc mu_cond inc s in
    let s := dcopy nn sigma_x inc sigma_cond inc s in
    (f0, s)
  else
    let s := dgemm Trans NoTrans p n n one C n sigma_x n zero temp_pn p s in
    let s := dcopy pp sigma_obs inc temp_pp inc s in
    let s := dgemm NoTrans NoTrans p p n one temp_pn p C n one temp_pp p s in
    let s := dpotrf p temp_pp p s in
    let s := dcopy p y inc temp_p inc s in
    let s := dgemv Trans n p neg1 C n mu_x inc one temp_p inc s in
    let s := dtrtrs NoTrans p inc temp_pp p temp_p p s in
    let ll := fmul (fdiv (fneg f1) (f_of_nat 2))
                   (fmul (dnrm2 p temp_p inc s) (dnrm2 p temp_p inc s)) in
    let s := dtrtrs Trans p inc temp_pp p temp_p p s in
    let s := if negb (ptr_eqb mu_x mu_cond)
             then dcopy n mu_x inc mu_cond inc s else s in
    let s := dgemv Trans p n one temp_pn p temp_p inc one mu_cond inc s in
    let s := dtrtrs NoTrans p n temp_pp p temp_pn p s in
    let s := if negb (ptr_eqb sigma_x sigma_cond)
             then dcopy nn sigma_x inc sigma_cond inc s else s in
    let s := dgemm Trans NoTrans n n p neg1 temp_pn p temp_pn p one sigma_cond n s in
    let ll := fsub ll (fmul (fdiv (f_of_nat p) (f_of_nat 2))
                            (flog (fmul (f_of_nat 2) fpi))) in
    (sub_log_diag p temp_pp s ll, s).

(** [predict]; [n] is [mu.shape[0]]. *)
Definition predict (mu sigma A sigma_states mu_predict sigma_predict temp_nn : ptr)
    (n : nat) (s : machine) : machine :=
  let nn := n * n in
  let inc := 1 in
  let s := dgemv Trans n n one A n mu inc zero mu_predict inc s in
  let s := dgemm Trans NoTrans n n n one A n sigma n zero temp_nn n s in
  let s := dcopy nn sigma_states inc sigma_predict inc s in
  dgemm NoTrans NoTrans n n n one temp_nn n A n one sigma_predict n s.

(** [sample_gaussian]; [n] is [mu.shape[0]]. *)
Definition sample_gaussian (mu sigma randvec : ptr) (n : nat) (s : machine) : machine :=
  let inc := 1 in
  let s := dpotrf n sigma n s in
  let s := dtrmv n sigma n randvec inc s in
  daxpy n one mu inc randvec inc s.

(** [rts_backward_step]; [n] is [A.shape[0]]. *)
Definition rts_backward_step (A sigma_states filtered_mu filtered_sigma
    next_predict_mu next_predict_sigma next_smoothed_mu next_smoothed_sigma
    temp_nn temp_nn2 : ptr) (n : nat) (s : machine) : machine :=
  let nn := n * n in
  let inc := 1 in
  let s := dgemm Trans NoTrans n n n one A n filtered_sigma n zero temp_nn n s in
  let s := dcopy nn next_predict_sigma inc temp_nn2 inc s in
  let s := dpotrf n temp_nn2 n s in
  let s := dpotrs n n temp_nn2 n temp_nn n s in
  let s := daxpy n neg1 next_smoothed_mu inc next_predict_mu inc s in
  let s := dgemv Trans n n neg1 temp_nn n next_predict_mu inc one filtered_mu inc s in
  let s := daxpy nn neg1 next_smoothed_sigma inc next_predict_sigma inc s in
  let s := dgemm NoTrans NoTrans n n n neg1 next_predict_sigma n temp_nn n
                 zero temp_nn2 n s in
  dgemm Trans NoTrans n n n one temp_nn n temp_nn2 n one filtered_sigma n s.

(** [set_dynamics_stats]; [n] is [mk.shape[0]]. *)
Definition set_dynamics_stats (mk mkn Pkns GkT ExxnT : ptr) (n : nat) (s : machine)
  : machine :=
  let inc := 1 in
  let s := dgemm Trans NoTrans n n n one GkT n Pkns n zero ExxnT n s in
  dger n n one mk inc mkn inc ExxnT n s.

(** ** The primitives on values

    What each primitive leaves in its output operands, as a function of the
    contents of its input operands.  The heap versions above are proved to
    compute exactly these whenever their operands are laid out without
    overlap. *)

Definition predict_mu_v (mu A : list F) (n : nat) : list F :=
  dgemv_v Trans n n one A n mu 1 zero [] 1.

Definition predict_sigma_v (sigma A sigma_states : list F) (n : nat) : list F :=
  dgemm_v NoTrans NoTrans n n n one
          (dgemm_v Trans NoTrans n n n one A n sigma n zero [] n) n
          A n one sigma_states n.

(** [temp_pn] after the first [dgemm] of [condition_on]. *)
Definition cond_temp_pn (sigma_x C : list F) (p n : nat) : list F :=
  dgemm_v Trans NoTrans p n n one C n sigma_x n zero [] p.

(** The innovation covariance handed to [dpotrf]. *)
Definition cond_S (sigma_x C sigma_obs : list F) (p n : nat) : list F :=
  dgemm_v NoTrans NoTrans p p n one (cond_temp_pn sigma_x C p n) p C n one sigma_obs p.

(** [temp_pp] after [dpotrf], and the status of the factorization. *)
Definition cond_chol (sigma_x C sigma_obs : list F) (p n : nat) : list F * nat :=
  dpotrf_v p (cond_S sigma_x C sigma_obs p n) p.

(** The innovation [y - C mu_x]. *)
Definition cond_resid (mu_x C y : list F) (p n : nat) : list F :=
  dgemv_v Trans n p neg1 C n mu_x 1 one y 1.

(** [temp_p] after the first triangular solve. *)
Definition cond_z (mu_x sigma_x C sigma_obs y : list F) (p n : nat) : list F :=
  fst (dtrtrs_v NoTrans p 1 (fst (cond_chol sigma_x C sigma_obs p n)) p
                (cond_resid mu_x C y p n) p).

(** [temp_p] after the second triangular solve. *)
Definition cond_w (mu_x sigma_x C sigma_obs y : list F) (p n : nat) : list F :=
  fst (dtrtrs_v Trans p 1 (fst (cond_chol sigma_x C sigma_obs p n)) p
                (cond_z mu_x sigma_x C sigma_obs y p n) p).

(** [temp_pn] after the third triangular solve. *)
Definition cond_V (sigma_x C sigma_obs : list F) (p n : nat) : list F :=
  fst (dtrtrs_v NoTrans p n (fst (cond_chol sigma_x C sigma_obs p n)) p
                (cond_temp_pn sigma_x C p n) p).

Definition cond_mu (mu_x sigma_x C sigma_obs y : list F) (p n : nat) : list F :=
  dgemv_v Trans p n one (cond_temp_pn sigma_x C p n) p
          (cond_w mu_x sigma_x C sigma_obs y p n) 1 one mu_x 1.

Definition cond_sigma (sigma_x C sigma_obs : list F) (p n : nat) : list F :=
  dgemm_v Trans NoTrans n n p neg1 (cond_V sigma_x C sigma_obs p n) p
          (cond_V sigma_x C sigma_obs p n) p one sigma_x n.

Definition cond_ll (mu_x sigma_x C sigma_obs y : list F) (p n : nat) : F :=
  let nrm := dnrm2_v p (cond_z mu_x sigma_x C sigma_obs y p n) 1 in
  let ll := fmul (fdiv (fneg f1) (f_of_nat 2)) (fmul nrm nrm) in
  let ll := fsub ll (fmul (fdiv (f_of_nat p) (f_of_nat 2))
                          (flog (fmul (f_of_nat 2) fpi))) in
  fold_left (fun acc i =>
               fsub acc (flog (at2 (fst (cond_chol sigma_x C sigma_obs p n)) p i i)))
            (seq 0 p) ll.

(** [temp_nn] on exit from [rts_backward_step]: the transposed smoothing
    gain, column-major. *)
Definition rts_gain_v (A filtered_sigma next_predict_sigma : list F) (n : nat) : list F :=
  dpotrs_v n n (fst (dpotrf_v n next_predict_sigma n)) n
           (dgemm_v Trans NoTrans n n n one A n filtered_sigma n zero [] n) n.

Definition rts_mu_v (A filtered_mu filtered_sigma next_predict_mu next_predict_sigma
    next_smoothed_mu : list F) (n : nat) : list F :=
  dgemv_v Trans n n neg1 (rts_gain_v A filtered_sigma next_predict_sigma n) n
          (daxpy_v n neg1 next_smoothed_mu 1 next_predict_mu 1) 1 one filtered_mu 1.

Definition rts_sigma_v (A filtered_sigma next_predict_sigma next_smoothed_sigma : list F)
    (n : nat) : list F :=
  let G := rts_gain_v A filtered_sigma next_predict_sigma n in
  dgemm_v Trans NoTrans n n n one G n
          (dgemm_v NoTrans NoTrans n n n neg1
                   (daxpy_v (n * n) neg1 next_smoothed_sigma 1 next_predict_sigma 1) n
                   G n zero [] n) n
          one filtered_sigma n.

(** [ExxnT] on exit from [set_dynamics_stats]. *)
Definition set_dynamics_stats_v (mk mkn Pkns GkT : list F) (n : nat) : list F :=
  dger_v n n one mk 1 mkn 1 (dgemm_v Trans NoTrans n n n one GkT n Pkns n zero [] n) n.

(** [randvec] on exit from [sample_gaussian]. *)
Definition sample_gaussian_v (mu sigma randvec : list F) (n : nat) : list F :=
  daxpy_v n one mu 1 (dtrmv_v n (fst (dpotrf_v n sigma n)) n randvec 1) 1.

(** [y[0] != y[0]] *)
Definition missing (y : list F) : bool := negb (feqb (at1 y 0) (at1 y 0)).

(** The log-likelihood term, the posterior mean and the posterior
    covariance of [condition_on]. *)
Definition condition_on_v (mu_x sigma_x C sigma_obs y : list F) (p n : nat)
  : F * list F * list F :=
  if missing y then (f0, mu_x, sigma_x)
  else (cond_ll mu_x sigma_x C sigma_obs y p n,
        cond_mu mu_x sigma_x C sigma_obs y p n,
        cond_sigma sigma_x C sigma_obs p n).

(** ** numpy arrays and the Python level *)

(** A C-contiguous [float64] array: its shape and its elements in row-major
    order. *)
Record ndarray : Type := mkarr { shape : list nat; elems : list F }.

Definition size (sh : list nat) : nat := fold_right Nat.mul 1 sh.

(** [a.shape[i]] *)
Definition dim (a : ndarray) (i : nat) : nat := nth i (shape a) 0.

(** The number of elements between [a[t]] and [a[t+1]]. *)
Definition stride0 (a : ndarray) : nat := size (tl (shape a)).

(** The seven arguments that the four public routines share. *)
Record inputs : Type := mkinputs {
  in_mu_init : ndarray;
  in_sigma_init : ndarray;
  in_A : ndarray;
  in_sigma_states : ndarray;
  in_C : ndarray;
  in_sigma_obs : ndarray;
  in_data : ndarray
}.

(** What a call of a public routine comes to: a value, a Python
    [ValueError], or an access outside every buffer (bounds checks and
    wrap-around are switched off in the source). *)
Inductive result (X : Type) : Type :=
  | Ok (x : X)
  | ValueError
  | OutOfBounds.
Arguments ValueError {X}.
Arguments OutOfBounds {X}.

(** The heap on entry: the caller's arrays, and [g] everywhere else (the
    contents of memory that [np.empty] hands out, and whatever lies beyond
    the end of an argument). *)
Definition input_array (i : inputs) (b : buffer) : option ndarray :=
  match b with
  | b_mu_init => Some (in_mu_init i)
  | b_sigma_init => Some (in_sigma_init i)
  | b_A => Some (in_A i)
  | b_sigma_states => Some (in_sigma_states i)
  | b_C => Some (in_C i)
  | b_sigma_obs => Some (in_sigma_obs i)
  | b_data => Some (in_data i)
  | _ => None
  end.

Definition input_heap (g : mem) (i : inputs) : mem :=
  fun b k =>
    match input_array i b with
    | Some a => nth k (elems a) (g b k)
    | None => g b k
    end.

(** [np.copy(x)] into a fresh buffer. *)
Definition np_copy (x : buffer) (a : ndarray) (fresh : buffer) (s : machine) : machine :=
  upd_heap (store (whole fresh) (load (heap s) (whole x) (size (shape a)))) s.

(** [np.asarray(x)] of a buffer of the given shape. *)
Definition np_asarray (x : buffer) (sh : list nat) (s : machine) : ndarray :=
  mkarr sh (load (heap s) (whole x) (size sh)).

(** Assignment to a memoryview slice, [dst[...] = src]: the extents must
    agree dimension by dimension, except that an extent of 1 in [src] is
    broadcast. *)
Fixpoint extents_agree (src dst : list nat) : bool :=
  match src, dst with
  | [], [] => true
  | s :: src', d :: dst' => ((s =? d) || (s =? 1)) && extents_agree src' dst'
  | _, _ => false
  end.

Fixpoint src_offset (src dst : list nat) (k : nat) : nat :=
  match src, dst with
  | s :: src', d :: dst' =>
      (if s =? d then k / size dst' else 0) * size src'
      + src_offset src' dst' (k mod size dst')
  | _, _ => 0
  end.

Definition assign_slice (dst : ptr) (dst_shape : list nat) (src : buffer)
    (a : ndarray) (s : machine) : result machine :=
  if extents_agree (shape a) dst_shape then
    Ok (upd_heap (store dst (map (fun k => heap s src (src_offset (shape a) dst_shape k))
                                 (seq 0 (size dst_shape)))) s)
  else ValueError.

(** ** The four public routines *)

Section Routines.

Variable g : mem.
Variable i : inputs.

(** [cdef int T = C.shape[0], p = C.shape[1], n = C.shape[2]] *)
Definition T : nat := dim (in_C i) 0.
Definition p : nat := dim (in_C i) 1.
Definition n : nat := dim (in_C i) 2.

(** The slices [A[t]], [sigma_states[t]], [C[t]], [sigma_obs[t]], [data[t]]
    of the arguments, each with the stride of its own array. *)
Definition A_ (t : nat) : ptr := slice b_A (stride0 (in_A i)) t.
Definition sigma_states_ (t : nat) : ptr :=
  slice b_sigma_states (stride0 (in_sigma_states i)) t.
Definition C_ (t : nat) : ptr := slice b_C (stride0 (in_C i)) t.
Definition sigma_obs_ (t : nat) : ptr := slice b_sigma_obs (stride0 (in_sigma_obs i)) t.
Definition data_ (t : nat) : ptr := slice b_data (stride0 (in_data i)) t.

Definition entry : machine := mkmachine (input_heap g i) [].

(** The forward pass of [kalman_filter] and [filter_and_sample]: one
    prediction buffer, overwritten at every step. *)
Definition filter_step (acc : F * machine) (t : nat) : F * machine :=
  let (ll, s) := acc in
  let (l, s) := condition_on (whole b_mu_predict) (whole b_sigma_predict)
                  (C_ t) (sigma_obs_ t) (data_ t)
                  (slice b_filtered_mus n t) (slice b_filtered_sigmas (n * n) t)
                  (whole b_temp_p) (whole b_temp_pn) (whole b_temp_pp) p n s in
  let s := predict (slice b_filtered_mus n t) (slice b_filtered_sigmas (n * n) t)
                   (A_ t) (sigma_states_ t)
                   (whole b_mu_predict) (whole b_sigma_predict)
                   (whole b_temp_nn) n s in
  (fadd ll l, s).

(** [kalman_filter] up to its [return]: the log-likelihood and the machine. *)
Definition kalman_filter_run : F * machine :=
  let s := np_copy b_mu_init (in_mu_init i) b_mu_predict entry in
  let s := np_copy b_sigma_init (in_sigma_init i) b_sigma_predict s in
  fold_left filter_step (seq 0 T) (f0, s).

Definition kalman_filter : result (F * ndarray * ndarray) :=
  let (ll, s) := kalman_filter_run in
  Ok (ll, np_asarray b_filtered_mus [T; n] s,
          np_asarray b_filtered_sigmas [T; n; n] s).

(** The forward pass of [rts_smoother] and [E_step]: every prediction is
    kept. *)
Definition smoother_step (acc : F * machine) (t : nat) : F * machine :=
  let (ll, s) := acc in
  let (l, s) := condition_on (slice b_mu_predicts n t) (slice b_sigma_predicts (n * n) t)
                  (C_ t) (sigma_obs_ t) (data_ t)
                  (slice b_smoothed_mus n t) (slice b_smoothed_sigmas (n * n) t)
                  (whole b_temp_p) (whole b_temp_pn) (whole b_temp_pp) p n s in
  let s := predict (slice b_smoothed_mus n t) (slice b_smoothed_sigmas (n * n) t)
                   (A_ t) (sigma_states_ t)
                   (slice b_mu_predicts n (t + 1)) (slice b_sigma_predicts (n * n) (t + 1))
                   (whole b_temp_nn) n s in
  (fadd ll l, s).

(** [mu_predicts[0] = mu_init; sigma_predicts[0] = sigma_init] and the
    forward loop. *)
Definition smoother_forward : result (F * machine) :=
  match assign_slice (slice b_mu_predicts n 0) [n] b_mu_init (in_mu_init i) entry with
  | Ok s =>
      match assign_slice (slice b_sigma_predicts (n * n) 0) [n; n]
                         b_sigma_init (in_sigma_init i) s with
      | Ok s => Ok (fold_left smoother_step (seq 0 T) (f0, s))
      | ValueError => ValueError
      | OutOfBounds => OutOfBounds
      end
  | ValueError => ValueError
  | OutOfBounds => OutOfBounds
  end.

(** The body of [for t in range(T-2,-1,-1)] in [rts_smoother]; the step reads
    its dimension off [A[t]]. *)
Definition rts_step (s : machine) (t : nat) : machine :=
  rts_backward_step (A_ t) (sigma_states_ t)
    (slice b_smoothed_mus n t) (slice b_smoothed_sigmas (n * n) t)
    (slice b_mu_predicts n (t + 1)) (slice b_sigma_predicts (n * n) (t + 1))
    (slice b_smoothed_mus n (t + 1)) (slice b_smoothed_sigmas (n * n) (t + 1))
    (whole b_temp_nn) (whole b_temp_nn2) (dim (in_A i) 1) s.

(** [range(T-2, -1, -1)] *)
Definition backwards (T0 : nat) : list nat := rev (seq 0 (T0 - 1)).

Definition rts_smoother : result (F * ndarray * ndarray) :=
  match smoother_forward with
  | Ok (ll, s) =>
      let s := fold_left rts_step (backwards T) s in
      Ok (ll, np_asarray b_smoothed_mus [T; n] s,
              np_asarray b_smoothed_sigmas [T; n; n] s)
  | ValueError => ValueError
  | OutOfBounds => OutOfBounds
  end.

(** The body of the backward loop of [filter_and_sample]: the draw at
    [t+1] is conditioned on through the dynamics, in place, with the
    dimensions that [condition_on] reads off [A[t]]. *)
Definition sample_step (s : machine) (t : nat) : machine :=
  let (_, s) := condition_on
                  (slice b_filtered_mus n t) (slice b_filtered_sigmas (n * n) t)
                  (A_ t) (sigma_states_ t) (slice b_randseq n (t + 1))
                  (slice b_filtered_mus n t) (slice b_filtered_sigmas (n * n) t)
                  (whole b_temp_n) (whole b_temp_nn) (whole b_sigma_predict)
                  (dim (in_A i) 1) (dim (in_A i) 2) s in
  sample_gaussian (slice b_filtered_mus n t) (slice b_filtered_sigmas (n * n) t)
                  (slice b_randseq n t) n s.

(** [randn] stands for [np.random.randn(T,n)]: the draws in the order in
    which they fill the array. *)
Definition filter_and_sample (randn : nat -> F) : result (F * ndarray) :=
  let s := np_copy b_mu_init (in_mu_init i) b_mu_predict entry in
  let s := np_copy b_sigma_init (in_sigma_init i) b_sigma_predict s in
  let s := upd_heap (store (whole b_randseq) (map randn (seq 0 (T * n)))) s in
  let (ll, s) := fold_left filter_step (seq 0 T) (f0, s) in
  match T with
  | 0 => OutOfBounds
  | S _ =>
      let s := sample_gaussian (slice b_filtered_mus n (T - 1))
                               (slice b_filtered_sigmas (n * n) (T - 1))
                               (slice b_randseq n (T - 1)) n s in
      let s := fold_left sample_step (backwards T) s in
      Ok (ll, np_asarray b_randseq [T; n] s)
  end.

(** The body of the backward loop of [E_step]. *)
Definition E_step_step (s : machine) (t : nat) : machine :=
  let s := rts_step s t in
  set_dynamics_stats (slice b_smoothed_mus n t) (slice b_smoothed_mus n (t + 1))
                     (slice b_smoothed_sigmas (n * n) (t + 1))
                     (whole b_temp_nn) (slice b_ExxnT (n * n) t) n s.

(** [np.empty((T-1,n,n))] raises on a negative extent. *)
Definition E_step : result (F * ndarray * ndarray * ndarray) :=
  match T with
  | 0 => ValueError
  | S _ =>
      match smoother_forward with
      | Ok (ll, s) =>
          let s := fold_left E_step_step (backwards T) s in
          Ok (ll, np_asarray b_smoothed_mus [T; n] s,
                  np_asarray b_smoothed_sigmas [T; n; n] s,
                  np_asarray b_ExxnT [T - 1; n; n] s)
      | ValueError => ValueError
      | OutOfBounds => OutOfBounds
      end
  end.

End Routines.

(** ** The routines on values

    The recursions that the loops of the four routines run, on the
    contents of the arrays.  The routines are proved below to return
    exactly these on every well-formed input. *)

(** [a[t]] *)
Definition chunk (a : ndarray) (t : nat) : list F :=
  firstn (stride0 a) (skipn (t * stride0 a) (elems a)).

Definition well_shaped (a : ndarray) (sh : list nat) : Prop :=
  shape a = sh /\ length (elems a) = size sh.

(** What the loops rely on: [mu_0] of length n, [Sigma_0] n x n, [A] and
    [Q] T x n x n, [C] T x p x n, [R] T x p x p, rows of [p] observations,
    at least [T] of them, and at least one observed coordinate. *)
Definition admissible (i : inputs) : Prop :=
  well_shaped (in_mu_init i) [n i]
  /\ well_shaped (in_sigma_init i) [n i; n i]
  /\ well_shaped (in_A i) [T i; n i; n i]
  /\ well_shaped (in_sigma_states i) [T i; n i; n i]
  /\ well_shaped (in_C i) [T i; p i; n i]
  /\ well_shaped (in_sigma_obs i) [T i; p i; p i]
  /\ (exists rows, T i <= rows /\ well_shaped (in_data i) [rows; p i])
  /\ 0 < p i.

(** The arguments fit together: as above, with exactly [T] rows of
    observations. *)
Definition valid (i : inputs) : Prop :=
  well_shaped (in_mu_init i) [n i]
  /\ well_shaped (in_sigma_init i) [n i; n i]
  /\ well_shaped (in_A i) [T i; n i; n i]
  /\ well_shaped (in_sigma_states i) [T i; n i; n i]
  /\ well_shaped (in_C i) [T i; p i; n i]
  /\ well_shaped (in_sigma_obs i) [T i; p i; p i]
  /\ well_shaped (in_data i) [T i; p i]
  /\ 0 < p i.

Section Values.

Variable i : inputs.

(** The term of the log-likelihood, the mean and the covariance that
    [condition_on] yields at step [t] from the prediction [st]. *)
Definition update (st : F * list F * list F) (t : nat) : F * list F * list F :=
  let '(_, mu, sigma) := st in
  condition_on_v mu sigma (chunk (in_C i) t) (chunk (in_sigma_obs i) t)
                 (chunk (in_data i) t) (p i) (n i).

(** Before step [t] of the forward loop: the log-likelihood so far, and
    the predicted mean and covariance of [x_t]. *)
Fixpoint predicted (t : nat) : F * list F * list F :=
  match t with
  | 0 => (f0, elems (in_mu_init i), elems (in_sigma_init i))
  | S t' =>
      let '(l, mu, sigma) := update (predicted t') t' in
      (fadd (fst (fst (predicted t'))) l,
       predict_mu_v mu (chunk (in_A i) t') (n i),
       predict_sigma_v sigma (chunk (in_A i) t') (chunk (in_sigma_states i) t') (n i))
  end.

Definition filtered (t : nat) : F * list F * list F := update (predicted t) t.

Definition filtered_mu (t : nat) : list F := snd (fst (filtered t)).
Definition filtered_sigma (t : nat) : list F := snd (filtered t).
Definition predicted_mu (t : nat) : list F := snd (fst (predicted t)).
Definition predicted_sigma (t : nat) : list F := snd (predicted t).

(** The log-likelihood that the forward loop returns. *)
Definition total_ll : F := fst (fst (predicted (T i))).

(** The smoothed mean and covariance at [T-1-k], by the backward
    recursion. *)
Fixpoint smoothed_back (k : nat) : list F * list F :=
  match k with
  | 0 => (filtered_mu (T i - 1), filtered_sigma (T i - 1))
  | S k' =>
      let t := T i - 1 - k in
      let '(sm, ss) := smoothed_back k' in
      (rts_mu_v (chunk (in_A i) t) (filtered_mu t) (filtered_sigma t)
                (predicted_mu (t + 1)) (predicted_sigma (t + 1)) sm (n i),
       rts_sigma_v (chunk (in_A i) t) (filtered_sigma t)
                   (predicted_sigma (t + 1)) ss (n i))
  end.

Definition smoothed_mu (t : nat) : list F := fst (smoothed_back (T i - 1 - t)).
Definition smoothed_sigma (t : nat) : list F := snd (smoothed_back (T i - 1 - t)).

(** What [rts_backward_step] leaves in [temp_nn] at step [t]. *)
Definition gain (t : nat) : list F :=
  rts_gain_v (chunk (in_A i) t) (filtered_sigma t) (predicted_sigma (t + 1)) (n i).

(** What [set_dynamics_stats] leaves in [ExxnT[t]]. *)
Definition cross_moment (t : nat) : list F :=
  set_dynamics_stats_v (smoothed_mu t) (smoothed_mu (t + 1)) (smoothed_sigma (t + 1))
                       (gain t) (n i).

(** The rows [f 0 .. f (rows-1)] as one array. *)
Definition stack (sh : list nat) (rows : nat) (f : nat -> list F) : ndarray :=
  mkarr (rows :: sh) (concat (map f (seq 0 rows))).

End Values.

End Model.

(** ** IEEE binary64 *)

Module Double.

Local Open Scope float_scope.

(** [log]: argument reduction to [m * 2^e] with [m] between [sqrt 1/2] and
    [sqrt 2], and the series of [2 atanh ((m-1)/(m+1))].  It follows libm on the special
    values and to within rounding error elsewhere. *)
Definition ln2 : float := 0x1.62e42fefa39efp-1.

Fixpoint atanh_series (terms : nat) (z2 pow k acc : float) : float :=
  match terms with
  | O => acc
  | S terms' => atanh_series terms' z2 (pow * z2) (k + 2) (acc + pow / k)
  end.

Definition log (x : float) : float :=
  if negb (x =? x) then nan
  else if x <? 0 then nan
  else if x =? 0 then neg_infinity
  else if x =? infinity then infinity
  else
    let (m, e) := frshiftexp x in
    let ef := of_uint63 e - 2101 in
    let (m, ef) := if m <? 0x1.6a09e667f3bcdp-1 then (2 * m, ef - 1) else (m, ef) in
    let z := (m - 1) / (m + 1) in
    ef * ln2 + 2 * atanh_series 40 (z * z) z 1 0.

Definition of_nat (k : nat) : float := Nat.iter k (fun x => x + 1) 0.

#[global] Instance scalar : Scalar float := {|
  f0 := 0;
  f1 := 1;
  fadd := PrimFloat.add;
  fsub := PrimFloat.sub;
  fmul := PrimFloat.mul;
  fdiv := PrimFloat.div;
  fneg := PrimFloat.opp;
  fsqrt := PrimFloat.sqrt;
  flog := log;
  fpi := 0x1.921fb54442d18p+1;
  f_of_nat := of_nat;
  feqb := PrimFloat.eqb;
  fleb := PrimFloat.leb;
  feqb_0_0 := eq_refl;
  feqb_1_1 := eq_refl;
  feqb_1_0 := eq_refl
|}.

(** Memory that was never written holds NaNs here. *)
Definition junk : @mem float := fun _ _ => nan.

(** One step, one state, one observation [y], a diffuse prior: the scalar
    sanity check. *)
Definition one_step (y : float) : @inputs float :=
  mkinputs (mkarr [1%nat] [0]) (mkarr [1%nat; 1%nat] [1000000])
           (mkarr [1%nat; 1%nat; 1%nat] [1]) (mkarr [1%nat; 1%nat; 1%nat] [1])
           (mkarr [1%nat; 1%nat; 1%nat] [1]) (mkarr [1%nat; 1%nat; 1%nat] [1])
           (mkarr [1%nat; 1%nat] [y]).

End Double.

(** * Properties *)

(** ** The heap *)

Section Heap.

Context {F : Type} {SF : Scalar F}.

(** Two regions that share no cell. *)
Definition sep (q : ptr) (lq : nat) (r : ptr) (lr : nat) : Prop :=
  pbuf q <> pbuf r \/ poff q + lq <= poff r \/ poff r + lr <= poff q.

(** The cell [(b, k)] lies in the region of [len] cells at [q]. *)
Definition inside (q : ptr) (len : nat) (b : buffer) (k : nat) : Prop :=
  b = pbuf q /\ poff q <= k < poff q + len.

Lemma sep_sym q lq r lr : sep q lq r lr -> sep r lr q lq.
Proof. unfold sep. intros [H | [H | H]]; auto. Qed.

Lemma sep_buf q lq r lr : pbuf q <> pbuf r -> sep q lq r lr.
Proof. unfold sep. auto. Qed.

Lemma sep_shrink q lq r lr lq' lr' :
  sep q lq r lr -> lq' <= lq -> lr' <= lr -> sep q lq' r lr'.
Proof. unfold sep. intros [H | [H | H]] H1 H2; auto; right; lia. Qed.

Lemma buffer_eqb_refl b : buffer_eqb b b = true.
Proof. unfold buffer_eqb. destruct (buffer_eq_dec b b); congruence. Qed.

Lemma buffer_eqb_neq a b : a <> b -> buffer_eqb a b = false.
Proof. unfold buffer_eqb. destruct (buffer_eq_dec a b); congruence. Qed.

Lemma buffer_eqb_eq a b : buffer_eqb a b = true -> a = b.
Proof. unfold buffer_eqb. destruct (buffer_eq_dec a b); congruence. Qed.

Lemma ptr_eqb_eq q r : ptr_eqb q r = true -> q = r.
Proof.
  destruct q as [a x], r as [b y]. unfold ptr_eqb. simpl.
  intros H. apply andb_true_iff in H. destruct H as [H1 H2].
  apply buffer_eqb_eq in H1. apply Nat.eqb_eq in H2. congruence.
Qed.

Lemma ptr_eqb_refl q : ptr_eqb q q = true.
Proof. unfold ptr_eqb. now rewrite buffer_eqb_refl, Nat.eqb_refl. Qed.

Lemma ptr_eqb_sep q r len : 0 < len -> sep q len r len -> ptr_eqb q r = false.
Proof.
  intros Hl Hs. destruct (ptr_eqb q r) eqn:E; [|reflexivity].
  apply ptr_eqb_eq in E. subst r. unfold sep in Hs. destruct Hs as [H | [H | H]].
  - congruence.
  - lia.
  - lia.
Qed.

Lemma load_length (m : @mem F) q len : length (load m q len) = len.
Proof. unfold load. now rewrite length_map, length_seq. Qed.

Lemma nth_load (m : @mem F) q len k d :
  k < len -> nth k (load m q len) d = m (pbuf q) (poff q + k).
Proof.
  intros H. unfold load.
  rewrite (nth_indep _ d (m (pbuf q) (poff q + 0))) by now rewrite length_map, length_seq.
  rewrite (map_nth (fun k => m (pbuf q) (poff q + k))), seq_nth by exact H.
  reflexivity.
Qed.

Lemma load_ext (m1 m2 : @mem F) q len :
  (forall k, k < len -> m1 (pbuf q) (poff q + k) = m2 (pbuf q) (poff q + k)) ->
  load m1 q len = load m2 q len.
Proof.
  intros H. unfold load. apply map_ext_in. intros k Hk.
  apply in_seq in Hk. apply H. lia.
Qed.

Lemma store_inside q l (m : @mem F) k :
  k < length l -> store q l m (pbuf q) (poff q + k) = nth k l f0.
Proof.
  intros H. unfold store. rewrite buffer_eqb_refl.
  replace (poff q <=? poff q + k) with true by (symmetry; apply Nat.leb_le; lia).
  replace (poff q + k <? poff q + length l) with true
    by (symmetry; apply Nat.ltb_lt; lia).
  simpl. f_equal. lia.
Qed.

Lemma store_outside q l (m : @mem F) b k :
  ~ inside q (length l) b k -> store q l m b k = m b k.
Proof.
  intros H. unfold store.
  destruct (buffer_eqb b (pbuf q)) eqn:E1; [|reflexivity].
  destruct (poff q <=? k) eqn:E2; [|reflexivity].
  destruct (k <? poff q + length l) eqn:E3; [|reflexivity].
  exfalso. apply H. apply buffer_eqb_eq in E1. apply Nat.leb_le in E2.
  apply Nat.ltb_lt in E3. unfold inside. auto.
Qed.

Lemma load_store_same q l (m : @mem F) len :
  length l = len -> load (store q l m) q len = l.
Proof.
  intros H. apply (nth_ext _ _ f0 f0).
  - now rewrite load_length.
  - intros k Hk. rewrite load_length in Hk.
    rewrite nth_load by exact Hk. apply store_inside. lia.
Qed.

Lemma load_store_sep q l (m : @mem F) r len :
  sep q (length l) r len -> load (store q l m) r len = load m r len.
Proof.
  intros H. apply load_ext. intros k Hk. apply store_outside.
  unfold inside. unfold sep in H. intros [Hb Hr]. destruct H as [H | [H | H]].
  - congruence.
  - lia.
  - lia.
Qed.

Lemma load_store_empty q (m : @mem F) r len : load (store q [] m) r len = load m r len.
Proof.
  apply load_ext. intros k Hk. apply store_outside. unfold inside. simpl. lia.
Qed.

Lemma load_zero (m : @mem F) q : load m q 0 = [].
Proof. reflexivity. Qed.

End Heap.

(** ** BLAS and LAPACK: sizes, and operands that are not read *)

Section Backend.

Context {F : Type} {SF : Scalar F}.

Lemma map_at1_id (l : list F) len : length l = len -> map (at1 l) (seq 0 len) = l.
Proof.
  intros H. apply (nth_ext _ _ f0 f0).
  - now rewrite length_map, length_seq.
  - intros k Hk. rewrite length_map, length_seq in Hk.
    rewrite (nth_indep _ f0 (at1 l 0)) by now rewrite length_map, length_seq.
    rewrite (map_nth (at1 l)), seq_nth by exact Hk. reflexivity.
Qed.

Lemma map_seq_ext (f g : nat -> F) len :
  (forall k, k < len -> f k = g k) -> map f (seq 0 len) = map g (seq 0 len).
Proof. intros H. apply map_ext_in. intros k Hk. apply in_seq in Hk. apply H. lia. Qed.

Lemma length_dcopy_v n (x : list F) incx y incy :
  length (dcopy_v n x incx y incy) = n * incy.
Proof. unfold dcopy_v. now rewrite length_map, length_seq. Qed.

Lemma length_daxpy_v n alpha (x : list F) incx y incy :
  length (daxpy_v n alpha x incx y incy) = n * incy.
Proof. unfold daxpy_v. now rewrite length_map, length_seq. Qed.

Lemma length_dgemv_v tr m n alpha (a : list F) lda x incx beta y incy :
  length (dgemv_v tr m n alpha a lda x incx beta y incy)
  = (match tr with NoTrans => m | Trans => n end) * incy.
Proof. unfold dgemv_v. now rewrite length_map, length_seq. Qed.

Lemma length_dgemm_v ta tb m n k alpha (a : list F) lda b ldb beta c ldc :
  length (dgemm_v ta tb m n k alpha a lda b ldb beta c ldc) = ldc * n.
Proof. unfold dgemm_v. now rewrite length_map, length_seq. Qed.

Lemma length_dger_v m n alpha (x : list F) incx y incy a lda :
  length (dger_v m n alpha x incx y incy a lda) = lda * n.
Proof. unfold dger_v. now rewrite length_map, length_seq. Qed.

Lemma length_dpotf2_from todo n (a : list F) lda j :
  length a = lda * n -> length (fst (dpotf2_from todo n a lda j)) = lda * n.
Proof.
  revert a j. induction todo as [|todo IH]; intros a j H; simpl.
  - exact H.
  - destruct (fleb (dpotf2_pivot a lda j) f0 || negb (feqb (dpotf2_pivot a lda j) (dpotf2_pivot a lda j))).
    + simpl. unfold dpotf2_fail. now rewrite length_map, length_seq.
    + apply IH. unfold dpotf2_step. now rewrite length_map, length_seq.
Qed.

Lemma length_dpotrf_v n (a : list F) lda : length (fst (dpotrf_v n a lda)) = lda * n.
Proof.
  unfold dpotrf_v. apply length_dpotf2_from. now rewrite length_map, length_seq.
Qed.

Lemma length_dtrsm_v tr m nrhs (a : list F) lda b ldb :
  length (dtrsm_v tr m nrhs a lda b ldb) = ldb * nrhs.
Proof. unfold dtrsm_v. now rewrite length_map, length_seq. Qed.

Lemma length_dtrtrs_v tr n nrhs (a : list F) lda b ldb :
  length (fst (dtrtrs_v tr n nrhs a lda b ldb)) = ldb * nrhs.
Proof.
  unfold dtrtrs_v. destruct (first_zero_diag n a lda 0); simpl.
  - apply length_dtrsm_v.
  - now rewrite length_map, length_seq.
Qed.

Lemma length_dpotrs_v n nrhs (a : list F) lda b ldb :
  length (dpotrs_v n nrhs a lda b ldb) = ldb * nrhs.
Proof. unfold dpotrs_v. apply length_dtrsm_v. Qed.

Lemma length_dtrmv_v n (a : list F) lda x incx :
  length (dtrmv_v n a lda x incx) = n * incx.
Proof. unfold dtrmv_v. now rewrite length_map, length_seq. Qed.

(** [dcopy] with unit strides copies the vector. *)
Lemma dcopy_v_unit n (x y : list F) : length x = n -> dcopy_v n x 1 y 1 = x.
Proof.
  intros H. unfold dcopy_v. rewrite Nat.mul_1_r.
  transitivity (map (at1 x) (seq 0 n)); [|now apply map_at1_id].
  apply map_seq_ext. intros k Hk. rewrite Nat.mod_1_r, Nat.div_1_r, Nat.mul_1_r.
  reflexivity.
Qed.

(** With [beta = 0] and a tight leading dimension, [dgemm] does not read
    its output operand. *)
Lemma dgemm_v_beta0 ta tb m n k alpha (a : list F) lda b ldb c :
  dgemm_v ta tb m n k alpha a lda b ldb zero c m
  = dgemm_v ta tb m n k alpha a lda b ldb zero [] m.
Proof.
  unfold dgemm_v. apply map_seq_ext. intros idx Hidx.
  assert (Hm : m <> 0) by (intros ->; simpl in Hidx; lia).
  pose proof (Nat.mod_upper_bound idx m Hm) as Hlt.
  apply Nat.ltb_lt in Hlt. rewrite Hlt.
  unfold scale_beta, zero. rewrite feqb_0_0. reflexivity.
Qed.

Definition dgemm_beta0 ta tb m n k alpha (a : list F) lda b ldb : list F :=
  dgemm_v ta tb m n k alpha a lda b ldb zero [] m.

Lemma dgemm_v_fold0 ta tb m n k alpha (a : list F) lda b ldb c :
  dgemm_v ta tb m n k alpha a lda b ldb zero c m
  = dgemm_beta0 ta tb m n k alpha a lda b ldb.
Proof. apply dgemm_v_beta0. Qed.

(** With [beta = 0] and a unit stride, [dgemv] does not read its output
    operand. *)
Lemma dgemv_v_beta0 tr m n alpha (a : list F) lda x incx y :
  dgemv_v tr m n alpha a lda x incx zero y 1
  = dgemv_v tr m n alpha a lda x incx zero [] 1.
Proof.
  unfold dgemv_v. apply map_seq_ext. intros k Hk.
  rewrite Nat.mod_1_r. simpl. unfold scale_beta, zero. rewrite feqb_0_0.
  reflexivity.
Qed.

Definition dgemv_beta0 tr m n alpha (a : list F) lda x incx : list F :=
  dgemv_v tr m n alpha a lda x incx zero [] 1.

Lemma dgemv_v_fold0 tr m n alpha (a : list F) lda x incx y :
  dgemv_v tr m n alpha a lda x incx zero y 1 = dgemv_beta0 tr m n alpha a lda x incx.
Proof. apply dgemv_v_beta0. Qed.

End Backend.

Create Rewrite HintDb len.

#[global] Hint Rewrite @load_length @length_dcopy_v @length_daxpy_v @length_dgemv_v
  @length_dgemm_v @length_dger_v @length_dpotrf_v @length_dtrsm_v @length_dtrtrs_v
  @length_dpotrs_v @length_dtrmv_v Nat.mul_1_r : len.

(** ** Symbolic execution of the backend calls *)

Section Exec.

Context {F : Type} {SF : Scalar F}.

Lemma heap_note c info (s : @machine F) : heap (note c info s) = heap s.
Proof. reflexivity. Qed.

Lemma heap_dcopy n x incx y incy (s : @machine F) :
  heap (dcopy n x incx y incy s)
  = store y (dcopy_v n (load (heap s) x (n * incx)) incx
                       (load (heap s) y (n * incy)) incy) (heap s).
Proof. reflexivity. Qed.

Lemma heap_daxpy n alpha x incx y incy (s : @machine F) :
  heap (daxpy n alpha x incx y incy s)
  = store y (daxpy_v n alpha (load (heap s) x (n * incx)) incx
                       (load (heap s) y (n * incy)) incy) (heap s).
Proof. reflexivity. Qed.

Lemma heap_dgemv tr m n alpha a lda x incx beta y incy (s : @machine F) :
  heap (dgemv tr m n alpha a lda x incx beta y incy s)
  = store y (dgemv_v tr m n alpha (load (heap s) a (lda * n)) lda
               (load (heap s) x ((match tr with NoTrans => n | Trans => m end) * incx)) incx
               beta
               (load (heap s) y ((match tr with NoTrans => m | Trans => n end) * incy)) incy)
            (heap s).
Proof. reflexivity. Qed.

Lemma heap_dgemm ta tb m n k alpha a lda b ldb beta c ldc (s : @machine F) :
  heap (dgemm ta tb m n k alpha a lda b ldb beta c ldc s)
  = store c (dgemm_v ta tb m n k alpha
               (load (heap s) a (lda * match ta with NoTrans => k | Trans => m end)) lda
               (load (heap s) b (ldb * match tb with NoTrans => n | Trans => k end)) ldb
               beta (load (heap s) c (ldc * n)) ldc)
            (heap s).
Proof. reflexivity. Qed.

Lemma heap_dger m n alpha x incx y incy a lda (s : @machine F) :
  heap (dger m n alpha x incx y incy a lda s)
  = store a (dger_v m n alpha (load (heap s) x (m * incx)) incx
                    (load (heap s) y (n * incy)) incy
                    (load (heap s) a (lda * n)) lda) (heap s).
Proof. reflexivity. Qed.

Lemma heap_dpotrf n a lda (s : @machine F) :
  heap (dpotrf n a lda s)
  = store a (fst (dpotrf_v n (load (heap s) a (lda * n)) lda)) (heap s).
Proof. reflexivity. Qed.

Lemma heap_dtrtrs tr n nrhs a lda b ldb (s : @machine F) :
  heap (dtrtrs tr n nrhs a lda b ldb s)
  = store b (fst (dtrtrs_v tr n nrhs (load (heap s) a (lda * n)) lda
                           (load (heap s) b (ldb * nrhs)) ldb)) (heap s).
Proof. reflexivity. Qed.

Lemma heap_dpotrs n nrhs a lda b ldb (s : @machine F) :
  heap (dpotrs n nrhs a lda b ldb s)
  = store b (dpotrs_v n nrhs (load (heap s) a (lda * n)) lda
                      (load (heap s) b (ldb * nrhs)) ldb) (heap s).
Proof. reflexivity. Qed.

Lemma heap_dtrmv n a lda x incx (s : @machine F) :
  heap (dtrmv n a lda x incx s)
  = store x (dtrmv_v n (load (heap s) a (lda * n)) lda
                     (load (heap s) x (n * incx)) incx) (heap s).
Proof. reflexivity. Qed.

End Exec.

(** From here on the backend calls are only used through the equations
    above. *)
#[global] Opaque dcopy daxpy dgemv dgemm dger dpotrf dtrtrs dpotrs dtrmv note.

(** Side conditions: the size of a value, and the separation of two
    regions (from a hypothesis, or because the buffers differ). *)
Ltac len_tac := autorewrite with len; try reflexivity; try lia.

Ltac sep_tac :=
  autorewrite with len;
  match goal with
  | H : sep ?q _ ?r _ |- sep ?q _ ?r _ => apply (sep_shrink H); lia
  | H : sep ?r _ ?q _ |- sep ?q _ ?r _ => apply sep_sym; apply (sep_shrink H); lia
  | |- sep _ _ _ _ => apply sep_buf; simpl; congruence
  end.

(** What a region holds after a chain of backend calls: a call that
    writes the region gives its value, a call that writes elsewhere is
    skipped. *)
Ltac heap_step :=
  first [ rewrite heap_note | rewrite heap_dgemm | rewrite heap_dgemv
        | rewrite heap_dcopy | rewrite heap_daxpy | rewrite heap_dger
        | rewrite heap_dpotrf | rewrite heap_dtrtrs | rewrite heap_dpotrs
        | rewrite heap_dtrmv ];
  cbv beta iota.

Ltac load_step :=
  first [ rewrite load_store_same by len_tac
        | rewrite load_store_sep by sep_tac ].

Ltac run := repeat first [ load_step | heap_step; load_step ].

(** The values that remain are those of the value-level primitive, up to
    operands that are not read and copies with unit strides. *)
Ltac settle :=
  autorewrite with len;
  repeat rewrite dgemm_v_fold0;
  repeat rewrite dgemv_v_fold0;
  rewrite ?dcopy_v_unit by len_tac;
  reflexivity.

Section Primitives.

Context {F : Type} {SF : Scalar F}.

(** The cells outside the listed regions hold in [m'] what they hold in
    [m]. *)
Definition same_outside (ws : list (ptr * nat)) (m m' : @mem F) : Prop :=
  forall b k, (forall w, In w ws -> ~ inside (fst w) (snd w) b k) -> m' b k = m b k.

Lemma same_outside_load ws (m m' : @mem F) r len :
  same_outside ws m m' ->
  (forall w, In w ws -> sep (fst w) (snd w) r len) ->
  load m' r len = load m r len.
Proof.
  intros H Hs. apply load_ext. intros k Hk. apply H. intros w Hw [Hb Hr].
  destruct (Hs w Hw) as [H1 | [H1 | H1]].
  - congruence.
  - lia.
  - lia.
Qed.

Lemma same_outside_refl ws (m : @mem F) : same_outside ws m m.
Proof. intros b k _. reflexivity. Qed.

Lemma same_outside_trans ws (m1 m2 m3 : @mem F) :
  same_outside ws m1 m2 -> same_outside ws m2 m3 -> same_outside ws m1 m3.
Proof. intros H1 H2 b k H. rewrite (H2 b k H). apply H1. exact H. Qed.

Lemma same_outside_incl ws ws' (m m' : @mem F) :
  incl ws ws' -> same_outside ws m m' -> same_outside ws' m m'.
Proof. intros Hi H b k Hw. apply H. intros w Hin. apply Hw. apply Hi. exact Hin. Qed.

Lemma same_outside_store ws q l (m : @mem F) :
  In (q, length l) ws -> same_outside ws m (store q l m).
Proof.
  intros Hin b k H. apply store_outside. exact (H (q, length l) Hin).
Qed.

(** Where [rd] and [sub_log_diag] read. *)
Lemma rd_load (s : @machine F) q len k :
  k < len -> rd s q k = at1 (load (heap s) q len) k.
Proof. intros H. unfold rd, at1. now rewrite nth_load. Qed.

Lemma sub_log_diag_load p temp_pp (s : @machine F) ll :
  sub_log_diag p temp_pp s ll
  = fold_left (fun acc i => fsub acc (flog (at2 (load (heap s) temp_pp (p * p)) p i i)))
              (seq 0 p) ll.
Proof.
  unfold sub_log_diag. revert ll.
  assert (H : forall i, In i (seq 0 p) -> i < p) by (intros i Hi; apply in_seq in Hi; lia).
  induction (seq 0 p) as [|i l IH]; intros ll; simpl.
  - reflexivity.
  - rewrite IH by (intros j Hj; apply H; now right).
    f_equal. f_equal. f_equal. unfold at2. apply rd_load.
    assert (i < p) by (apply H; now left). nia.
Qed.

Fixpoint sep_all (q : ptr) (lq : nat) (rs : list (ptr * nat)) : Prop :=
  match rs with
  | [] => True
  | r :: rs' => sep q lq (fst r) (snd r) /\ sep_all q lq rs'
  end.

(** ** [predict] *)

Definition predict_layout (mu sigma A sigma_states mu_predict sigma_predict temp_nn : ptr)
    (n : nat) : Prop :=
  let ins := [(mu, n); (sigma, n * n); (A, n * n); (sigma_states, n * n)] in
  sep_all mu_predict n ((sigma_predict, n * n) :: (temp_nn, n * n) :: ins)
  /\ sep_all sigma_predict (n * n) ((temp_nn, n * n) :: ins)
  /\ sep_all temp_nn (n * n) ins.

Lemma predict_spec mu sigma A sigma_states mu_predict sigma_predict temp_nn n
    (s : @machine F) :
  predict_layout mu sigma A sigma_states mu_predict sigma_predict temp_nn n ->
  let s' := predict mu sigma A sigma_states mu_predict sigma_predict temp_nn n s in
  load (heap s') mu_predict n
  = predict_mu_v (load (heap s) mu n) (load (heap s) A (n * n)) n
  /\ load (heap s') sigma_predict (n * n)
     = predict_sigma_v (load (heap s) sigma (n * n)) (load (heap s) A (n * n))
                       (load (heap s) sigma_states (n * n)) n
  /\ same_outside [(mu_predict, n); (sigma_predict, n * n); (temp_nn, n * n)]
                  (heap s) (heap s')
  /\ infos s' = infos s.
Proof.
  intros L s'. unfold predict_layout in L. simpl in L. decompose [and] L. clear L.
  subst s'. unfold predict. cbv zeta. repeat split.
  - run. unfold predict_mu_v. rewrite dgemv_v_beta0. now autorewrite with len.
  - run. unfold predict_sigma_v. rewrite dgemm_v_beta0.
    rewrite dcopy_v_unit by len_tac. now autorewrite with len.
  - repeat (heap_step;
            eapply same_outside_trans; [|apply same_outside_store; simpl; autorewrite with len; auto 6]).
    apply same_outside_refl.
Qed.

(** ** [condition_on] *)

(** The operands of [condition_on] as its callers lay them out: what is
    written overlaps nothing else, except that the posterior may be the very
    storage of the prior. *)
Definition cond_layout (mu_x sigma_x C sigma_obs y mu_cond sigma_cond
    temp_p temp_pn temp_pp : ptr) (p n : nat) : Prop :=
  let ins := [(C, n * p); (sigma_obs, p * p); (y, p)] in
  sep_all temp_pn (p * n)
          ((temp_pp, p * p) :: (temp_p, p) :: (mu_cond, n) :: (sigma_cond, n * n)
           :: (mu_x, n) :: (sigma_x, n * n) :: ins)
  /\ sep_all temp_pp (p * p)
             ((temp_p, p) :: (mu_cond, n) :: (sigma_cond, n * n)
              :: (mu_x, n) :: (sigma_x, n * n) :: ins)
  /\ sep_all temp_p p
             ((mu_cond, n) :: (sigma_cond, n * n) :: (mu_x, n) :: (sigma_x, n * n) :: ins)
  /\ sep_all mu_cond n ((sigma_cond, n * n) :: (sigma_x, n * n) :: ins)
  /\ sep_all sigma_cond (n * n) ((mu_x, n) :: ins)
  /\ (mu_x = mu_cond \/ sep mu_x n mu_cond n)
  /\ (sigma_x = sigma_cond \/ sep sigma_x (n * n) sigma_cond (n * n)).

Lemma condition_on_spec mu_x sigma_x C sigma_obs y mu_cond sigma_cond
    temp_p temp_pn temp_pp p n (s : @machine F) :
  cond_layout mu_x sigma_x C sigma_obs y mu_cond sigma_cond temp_p temp_pn temp_pp p n ->
  0 < p ->
  let r := condition_on mu_x sigma_x C sigma_obs y mu_cond sigma_cond
                        temp_p temp_pn temp_pp p n s in
  (fst r, load (heap (snd r)) mu_cond n, load (heap (snd r)) sigma_cond (n * n))
  = condition_on_v (load (heap s) mu_x n) (load (heap s) sigma_x (n * n))
                   (load (heap s) C (n * p)) (load (heap s) sigma_obs (p * p))
                   (load (heap s) y p) p n
  /\ same_outside [(mu_cond, n); (sigma_cond, n * n); (temp_p, p); (temp_pn, p * n);
                   (temp_pp, p * p)] (heap s) (heap (snd r)).
Proof.
  intros L Hp r. unfold cond_layout in L. simpl in L. decompose [and] L. clear L.
  subst r. unfold condition_on, condition_on_v, missing. cbv zeta.
  rewrite <- (@rd_load s y p 0 Hp).
  destruct (negb (feqb (rd s y 0) (rd s y 0))).
  - (* the observation is missing *)
    simpl fst. simpl snd. split.
    + f_equal; [f_equal|].
      * destruct (ptr_eqb mu_cond sigma_cond) eqn:E.
        -- apply ptr_eqb_eq in E. subst sigma_cond. run.
           rewrite !dcopy_v_unit by len_tac. now autorewrite with len.
        -- run. rewrite !dcopy_v_unit by len_tac. now autorewrite with len.
      * run. rewrite !dcopy_v_unit by len_tac. now autorewrite with len.
    + repeat (heap_step;
              eapply same_outside_trans;
              [|apply same_outside_store; simpl; autorewrite with len; auto 8]).
      apply same_outside_refl.
  - simpl fst. simpl snd.
    destruct (ptr_eqb mu_x mu_cond) eqn:Emu;
      [apply ptr_eqb_eq in Emu; subst mu_cond|];
      (destruct (ptr_eqb sigma_x sigma_cond) eqn:Esig;
       [apply ptr_eqb_eq in Esig; subst sigma_cond|]);
      simpl negb; cbv iota; split.
    all: try (repeat (heap_step;
              eapply same_outside_trans;
              [|apply same_outside_store; simpl; autorewrite with len; auto 8]);
              apply same_outside_refl).
    all: f_equal; [f_equal|].
    all: unfold cond_ll, cond_mu, cond_sigma, cond_V, cond_w, cond_z, cond_resid,
           cond_chol, cond_S, cond_temp_pn.
    all: try rewrite sub_log_diag_load; unfold dnrm2; run; settle.
Qed.

(** ** [rts_backward_step] and [set_dynamics_stats] *)

Definition rts_layout (A filtered_mu filtered_sigma next_predict_mu next_predict_sigma
    next_smoothed_mu next_smoothed_sigma temp_nn temp_nn2 : ptr) (n : nat) : Prop :=
  let ins := [(A, n * n); (next_smoothed_mu, n); (next_smoothed_sigma, n * n)] in
  sep_all temp_nn (n * n)
          ((temp_nn2, n * n) :: (filtered_mu, n) :: (filtered_sigma, n * n)
           :: (next_predict_mu, n) :: (next_predict_sigma, n * n) :: ins)
  /\ sep_all temp_nn2 (n * n)
             ((filtered_mu, n) :: (filtered_sigma, n * n)
              :: (next_predict_mu, n) :: (next_predict_sigma, n * n) :: ins)
  /\ sep_all filtered_mu n
             ((filtered_sigma, n * n) :: (next_predict_mu, n)
              :: (next_predict_sigma, n * n) :: ins)
  /\ sep_all filtered_sigma (n * n)
             ((next_predict_mu, n) :: (next_predict_sigma, n * n) :: ins)
  /\ sep_all next_predict_mu n ((next_predict_sigma, n * n) :: ins)
  /\ sep_all next_predict_sigma (n * n) ins.

Lemma rts_backward_step_spec A sigma_states filtered_mu filtered_sigma
    next_predict_mu next_predict_sigma next_smoothed_mu next_smoothed_sigma
    temp_nn temp_nn2 n (s : @machine F) :
  rts_layout A filtered_mu filtered_sigma next_predict_mu next_predict_sigma
             next_smoothed_mu next_smoothed_sigma temp_nn temp_nn2 n ->
  let s' := rts_backward_step A sigma_states filtered_mu filtered_sigma
              next_predict_mu next_predict_sigma next_smoothed_mu next_smoothed_sigma
              temp_nn temp_nn2 n s in
  let a := load (heap s) A (n * n) in
  let fm := load (heap s) filtered_mu n in
  let fs := load (heap s) filtered_sigma (n * n) in
  let pm := load (heap s) next_predict_mu n in
  let ps := load (heap s) next_predict_sigma (n * n) in
  let sm := load (heap s) next_smoothed_mu n in
  let ss := load (heap s) next_smoothed_sigma (n * n) in
  load (heap s') filtered_mu n = rts_mu_v a fm fs pm ps sm n
  /\ load (heap s') filtered_sigma (n * n) = rts_sigma_v a fs ps ss n
  /\ load (heap s') temp_nn (n * n) = rts_gain_v a fs ps n
  /\ same_outside [(filtered_mu, n); (filtered_sigma, n * n); (next_predict_mu, n);
                   (next_predict_sigma, n * n); (temp_nn, n * n); (temp_nn2, n * n)]
                  (heap s) (heap s').
Proof.
  intros L s' a fm fs pm ps sm ss.
  unfold rts_layout in L. simpl in L. decompose [and] L. clear L.
  subst s' a fm fs pm ps sm ss. unfold rts_backward_step. cbv zeta.
  repeat split.
  - unfold rts_mu_v, rts_gain_v. run. settle.
  - unfold rts_sigma_v, rts_gain_v. cbv zeta. run. settle.
  - unfold rts_gain_v. run. settle.
  - repeat (heap_step;
            eapply same_outside_trans;
            [|apply same_outside_store; simpl; autorewrite with len; auto 8]).
    apply same_outside_refl.
Qed.

Lemma set_dynamics_stats_spec mk mkn Pkns GkT ExxnT n (s : @machine F) :
  sep_all ExxnT (n * n) [(mk, n); (mkn, n); (Pkns, n * n); (GkT, n * n)] ->
  let s' := set_dynamics_stats mk mkn Pkns GkT ExxnT n s in
  load (heap s') ExxnT (n * n)
  = set_dynamics_stats_v (load (heap s) mk n) (load (heap s) mkn n)
                         (load (heap s) Pkns (n * n)) (load (heap s) GkT (n * n)) n
  /\ same_outside [(ExxnT, n * n)] (heap s) (heap s').
Proof.
  intros L s'. simpl in L. decompose [and] L. clear L.
  subst s'. unfold set_dynamics_stats. cbv zeta. split.
  - unfold set_dynamics_stats_v. run. settle.
  - repeat (heap_step;
            eapply same_outside_trans;
            [|apply same_outside_store; simpl; autorewrite with len; auto 8]).
    apply same_outside_refl.
Qed.

End Primitives.

(** ** Arrays in the heap *)

Arguments T {F} i : simpl never.
Arguments p {F} i : simpl never.
Arguments n {F} i : simpl never.

Section Arrays.

Context {F : Type} {SF : Scalar F}.

Lemma sep_slice b st t t' : t <> t' -> sep (slice b st t) st (slice b st t') st.
Proof.
  intros H. unfold sep, slice. simpl. right.
  destruct (Nat.lt_ge_cases t t') as [Hlt | Hge].
  - left. assert (S t <= t') as Hle by lia.
    apply (Nat.mul_le_mono_r _ _ st) in Hle. simpl in Hle. lia.
  - right. assert (S t' <= t) as Hle by lia.
    apply (Nat.mul_le_mono_r _ _ st) in Hle. simpl in Hle. lia.
Qed.

Lemma map_seq_shift (f : nat -> F) a len :
  map f (seq a len) = map (fun k => f (a + k)) (seq 0 len).
Proof.
  revert a. induction len as [|len IH]; intros a; simpl.
  - reflexivity.
  - rewrite Nat.add_0_r. f_equal. rewrite IH.
    rewrite <- (seq_shift len 0), map_map. apply map_ext. intros k. f_equal. lia.
Qed.

Lemma load_app (m : @mem F) b off len1 len2 :
  load m (mkptr b off) (len1 + len2)
  = load m (mkptr b off) len1 ++ load m (mkptr b (off + len1)) len2.
Proof.
  unfold load. simpl. rewrite seq_app, map_app. f_equal.
  rewrite map_seq_shift. apply map_ext. intros k. f_equal. lia.
Qed.

(** An array of [rows] rows of [st] cells is its rows one after the other. *)
Lemma load_rows (m : @mem F) b st rows :
  load m (whole b) (rows * st)
  = concat (map (fun t => load m (slice b st t) st) (seq 0 rows)).
Proof.
  induction rows as [|r IH].
  - reflexivity.
  - rewrite seq_S, map_app, concat_app. simpl. rewrite app_nil_r, <- IH.
    replace (st + r * st) with (r * st + st) by lia.
    unfold whole. rewrite load_app. reflexivity.
Qed.

(** Reading a row of one of the arguments. *)
Lemma nth_firstn_skipn (l : list F) off len k d :
  k < len -> nth k (firstn len (skipn off l)) d = nth (off + k) l d.
Proof.
  intros H. rewrite nth_firstn.
  replace (k <? len) with true by (symmetry; now apply Nat.ltb_lt).
  now rewrite nth_skipn.
Qed.

Lemma load_chunk (m : @mem F) b a t :
  (forall k, k < length (elems a) -> m b k = nth k (elems a) f0) ->
  t * stride0 a + stride0 a <= length (elems a) ->
  load m (slice b (stride0 a) t) (stride0 a) = chunk a t.
Proof.
  intros Hm Hlen. apply (nth_ext _ _ f0 f0).
  - rewrite load_length. unfold chunk. rewrite length_firstn, length_skipn. lia.
  - intros k Hk. rewrite load_length in Hk. rewrite nth_load by exact Hk.
    unfold chunk. rewrite nth_firstn_skipn by exact Hk. simpl.
    apply Hm. lia.
Qed.

Lemma valid_admissible (i : @inputs F) : valid i -> admissible i.
Proof.
  intros (H1 & H2 & H3 & H4 & H5 & H6 & H7 & H8).
  unfold admissible. repeat (split; [assumption|]). split; [|exact H8].
  exists (T i). split; [lia|exact H7].
Qed.

End Arrays.

(** ** The forward pass *)

(** Every region in [ws] lies in a buffer that the routine allocated. *)
Ltac fresh_regions :=
  let w := fresh "w" in
  let Hw := fresh "Hw" in
  intros w Hw; simpl in Hw; decompose [or] Hw; clear Hw; subst; simpl;
  try contradiction; try reflexivity; try discriminate.

(** Every region in [ws] is apart from a given one: another buffer, or
    another row of the same array. *)
Ltac apart :=
  let w := fresh "w" in
  let Hw := fresh "Hw" in
  intros w Hw; simpl in Hw; decompose [or] Hw; clear Hw; subst;
  try contradiction; simpl fst; simpl snd;
  first [ apply sep_buf; simpl; discriminate | apply sep_slice; lia ].

Section Forward.

Context {F : Type} {SF : Scalar F}.

Variable i : @inputs F.
Hypothesis Hv : admissible i.

(** The arguments are where the caller put them. *)
Definition intact (m : @mem F) : Prop :=
  forall b a, input_array i b = Some a ->
  forall k, k < length (elems a) -> m b k = nth k (elems a) f0.

Lemma intact_input_heap g : intact (input_heap g i).
Proof.
  intros b a Hb k Hk. unfold input_heap. rewrite Hb. now apply nth_indep.
Qed.

Lemma intact_same_outside ws (m m' : @mem F) :
  same_outside ws m m' ->
  (forall w, In w ws -> input_array i (pbuf (fst w)) = None) ->
  intact m -> intact m'.
Proof.
  intros Hs Hw Hm b a Hb k Hk. rewrite Hs.
  - now apply (Hm b a).
  - intros w Hin [Hbuf _]. specialize (Hw w Hin). congruence.
Qed.

Lemma intact_store q l (m : @mem F) :
  input_array i (pbuf q) = None -> intact m -> intact (store q l m).
Proof.
  intros Hq Hm. apply (@intact_same_outside [(q, length l)] m).
  - apply same_outside_store. now left.
  - intros w [<- | []]. exact Hq.
  - exact Hm.
Qed.

Lemma row_bound t rows st : t < rows -> t * st + st <= rows * st.
Proof.
  intros H. assert (S t <= rows) as Hle by lia.
  apply (Nat.mul_le_mono_r _ _ st) in Hle. simpl in Hle. lia.
Qed.

Lemma load_A m t :
  intact m -> t < T i -> load m (A_ i t) (n i * n i) = chunk (in_A i) t.
Proof.
  intros Hm Ht. destruct Hv as (_ & _ & [Hs Hl] & _).
  assert (E : stride0 (in_A i) = n i * n i) by (unfold stride0; rewrite Hs; simpl; lia).
  unfold A_. rewrite <- E. apply load_chunk.
  - now apply Hm.
  - rewrite Hl, E. simpl. pose proof (@row_bound t (T i) (n i * n i) Ht). lia.
Qed.

Lemma load_sigma_states m t :
  intact m -> t < T i ->
  load m (sigma_states_ i t) (n i * n i) = chunk (in_sigma_states i) t.
Proof.
  intros Hm Ht. destruct Hv as (_ & _ & _ & [Hs Hl] & _).
  assert (E : stride0 (in_sigma_states i) = n i * n i)
    by (unfold stride0; rewrite Hs; simpl; lia).
  unfold sigma_states_. rewrite <- E. apply load_chunk.
  - now apply Hm.
  - rewrite Hl, E. simpl. pose proof (@row_bound t (T i) (n i * n i) Ht). lia.
Qed.

Lemma load_C m t :
  intact m -> t < T i -> load m (C_ i t) (n i * p i) = chunk (in_C i) t.
Proof.
  intros Hm Ht. destruct Hv as (_ & _ & _ & _ & [Hs Hl] & _).
  assert (E : stride0 (in_C i) = n i * p i) by (unfold stride0; rewrite Hs; simpl; lia).
  unfold C_. rewrite <- E. apply load_chunk.
  - now apply Hm.
  - rewrite Hl, E. simpl. pose proof (@row_bound t (T i) (n i * p i) Ht). lia.
Qed.

Lemma load_sigma_obs m t :
  intact m -> t < T i -> load m (sigma_obs_ i t) (p i * p i) = chunk (in_sigma_obs i) t.
Proof.
  intros Hm Ht. destruct Hv as (_ & _ & _ & _ & _ & [Hs Hl] & _).
  assert (E : stride0 (in_sigma_obs i) = p i * p i)
    by (unfold stride0; rewrite Hs; simpl; lia).
  unfold sigma_obs_. rewrite <- E. apply load_chunk.
  - now apply Hm.
  - rewrite Hl, E. simpl. pose proof (@row_bound t (T i) (p i * p i) Ht). lia.
Qed.

Lemma load_data m t :
  intact m -> t < T i -> load m (data_ i t) (p i) = chunk (in_data i) t.
Proof.
  intros Hm Ht. destruct Hv as (_ & _ & _ & _ & _ & _ & (rows & Hr & [Hs Hl]) & _).
  assert (E : stride0 (in_data i) = p i) by (unfold stride0; rewrite Hs; simpl; lia).
  unfold data_. rewrite <- E. apply load_chunk.
  - now apply Hm.
  - rewrite Hl, E. simpl. assert (Ht' : t < rows) by lia.
    pose proof (@row_bound t rows (p i) Ht'). lia.
Qed.

Lemma load_whole_input (m : @mem F) b a len :
  intact m -> input_array i b = Some a -> length (elems a) = len ->
  load m (whole b) len = elems a.
Proof.
  intros Hm Hb Hl. apply (nth_ext _ _ f0 f0).
  - now rewrite load_length.
  - intros k Hk. rewrite load_length in Hk. rewrite nth_load by exact Hk.
    simpl. apply (Hm b a Hb). lia.
Qed.

End Forward.

(** ** [kalman_filter] *)

Section FilterForward.

Context {F : Type} {SF : Scalar F}.

Variable i : @inputs F.
Hypothesis Hv : admissible i.

(** After [k] steps of the forward loop of [kalman_filter]. *)
Definition filter_inv (k : nat) (acc : F * machine) : Prop :=
  fst acc = fst (fst (predicted i k))
  /\ load (heap (snd acc)) (whole b_mu_predict) (n i) = predicted_mu i k
  /\ load (heap (snd acc)) (whole b_sigma_predict) (n i * n i) = predicted_sigma i k
  /\ (forall t, t < k ->
        load (heap (snd acc)) (slice b_filtered_mus (n i) t) (n i) = filtered_mu i t
        /\ load (heap (snd acc)) (slice b_filtered_sigmas (n i * n i) t) (n i * n i)
           = filtered_sigma i t)
  /\ intact i (heap (snd acc)).

Lemma filter_step_inv k acc :
  k < T i -> filter_inv k acc -> filter_inv (S k) (filter_step i acc k).
Proof.
  intros Hk (Hll & Hmu & Hsig & Hrows & Hin). destruct acc as [ll s]. simpl in *.
  assert (Hp : 0 < p i) by (destruct Hv as (_ & _ & _ & _ & _ & _ & _ & Hp); exact Hp).
  unfold filter_step.
  match goal with |- context [condition_on ?a ?b ?c ?d ?e ?f ?g ?h ?j ?l ?pp ?nn s] =>
    pose proof (@condition_on_spec F SF a b c d e f g h j l pp nn s) as Hc
  end.
  destruct Hc as [Hc Hf].
  { unfold cond_layout. simpl. repeat split; try (apply sep_buf; simpl; discriminate).
    all: right; apply sep_buf; simpl; discriminate. }
  { exact Hp. }
  cbv zeta in Hc, Hf.
  destruct (condition_on _ _ _ _ _ _ _ _ _ _ _ _ s) as [l s1]. simpl in Hc, Hf.
  rewrite Hmu, Hsig, (load_C Hv Hin Hk), (load_sigma_obs Hv Hin Hk), (load_data Hv Hin Hk) in Hc.
  assert (Hin1 : intact i (heap s1)).
  { eapply intact_same_outside; [exact Hf| |exact Hin]. fresh_regions. }
  match goal with |- context [predict ?a ?b ?c ?d ?e ?f ?g ?nn s1] =>
    pose proof (@predict_spec F SF a b c d e f g nn s1) as Hq
  end.
  destruct Hq as (Hq1 & Hq2 & Hq3 & _).
  { unfold predict_layout. simpl. repeat split; apply sep_buf; simpl; discriminate. }
  set (s2 := predict _ _ _ _ _ _ _ _ s1) in *.
  assert (Hupd : update i (predicted i k) k = (l, load (heap s1) (slice b_filtered_mus (n i) k) (n i),
                    load (heap s1) (slice b_filtered_sigmas (n i * n i) k) (n i * n i))).
  { rewrite Hc. unfold update, predicted_mu, predicted_sigma.
    destruct (predicted i k) as [[a b] c]. reflexivity. }
  rewrite (load_A Hv Hin1 Hk) in Hq1, Hq2. rewrite (load_sigma_states Hv Hin1 Hk) in Hq2.
  unfold filter_inv. simpl fst. simpl snd.
  repeat split.
  - simpl. rewrite Hupd. rewrite Hll. reflexivity.
  - rewrite Hq1. unfold predicted_mu. simpl. rewrite Hupd. reflexivity.
  - rewrite Hq2. unfold predicted_sigma. simpl. rewrite Hupd. reflexivity.
  - rewrite (same_outside_load Hq3) by apart.
    destruct (Nat.eq_dec t k) as [-> | Hne].
    + unfold filtered_mu, filtered. rewrite Hupd. reflexivity.
    + rewrite (same_outside_load Hf) by apart. apply Hrows. lia.
  - rewrite (same_outside_load Hq3) by apart.
    destruct (Nat.eq_dec t k) as [-> | Hne].
    + unfold filtered_sigma, filtered. rewrite Hupd. reflexivity.
    + rewrite (same_outside_load Hf) by apart. apply Hrows. lia.
  - eapply intact_same_outside; [exact Hq3| |exact Hin1]. fresh_regions.
Qed.

Lemma filter_loop k acc0 :
  filter_inv 0 acc0 -> k <= T i ->
  filter_inv k (fold_left (filter_step i) (seq 0 k) acc0).
Proof.
  intros H0. induction k as [|k IH]; intros Hk.
  - exact H0.
  - rewrite seq_S, fold_left_app. simpl. apply filter_step_inv; [lia|]. apply IH. lia.
Qed.

Lemma heap_np_copy x a fresh (s : @machine F) :
  heap (np_copy x a fresh s)
  = store (whole fresh) (load (heap s) (whole x) (size (shape a))) (heap s).
Proof. reflexivity. Qed.

(** The state in which [kalman_filter] and [filter_and_sample] enter
    their forward loop. *)
Lemma filter_entry (s : @machine F) :
  intact i (heap s) ->
  filter_inv 0 (f0, np_copy b_sigma_init (in_sigma_init i) b_sigma_predict
                      (np_copy b_mu_init (in_mu_init i) b_mu_predict s)).
Proof.
  intros Hin. destruct Hv as ([Hs1 Hl1] & [Hs2 Hl2] & _).
  unfold filter_inv. simpl fst. simpl snd. rewrite !heap_np_copy.
  rewrite Hs1, Hs2. simpl size in *. repeat split.
  - rewrite load_store_sep by (apply sep_buf; simpl; discriminate).
    rewrite load_store_same by (rewrite load_length; lia).
    apply (@load_whole_input F SF i _ b_mu_init); auto.
  - rewrite load_store_same by (rewrite load_length; lia).
    rewrite load_store_sep by (apply sep_buf; simpl; discriminate).
    apply (@load_whole_input F SF i _ b_sigma_init); auto.
  - lia.
  - lia.
  - apply intact_store; [reflexivity|]. apply intact_store; [reflexivity|]. exact Hin.
Qed.

Lemma stack_rows b sh rows (f : nat -> list F) (s : @machine F) :
  (forall t, t < rows -> load (heap s) (slice b (size sh) t) (size sh) = f t) ->
  np_asarray b (rows :: sh) s = stack sh rows f.
Proof.
  intros H. unfold np_asarray, stack. f_equal.
  change (size (rows :: sh)) with (rows * size sh).
  rewrite load_rows. f_equal. apply map_ext_in. intros t Ht.
  apply in_seq in Ht. apply H. lia.
Qed.

(** [kalman_filter] returns the values of the forward recursion. *)
Lemma kalman_filter_value g :
  kalman_filter g i
  = Ok (total_ll i, stack [n i] (T i) (filtered_mu i),
        stack [n i; n i] (T i) (filtered_sigma i)).
Proof.
  unfold kalman_filter, kalman_filter_run.
  pose proof (@filter_loop (T i) _ (@filter_entry (entry g i) (@intact_input_heap F SF i g)) (le_n _)) as H.
  destruct (fold_left _ _ _) as [ll s]. destruct H as (Hll & _ & _ & Hrows & _).
  simpl in Hll, Hrows. f_equal. f_equal; [f_equal|].
  - exact Hll.
  - apply stack_rows. intros t Ht. simpl size. rewrite Nat.mul_1_r. now apply Hrows.
  - apply stack_rows. intros t Ht. simpl size. rewrite Nat.mul_1_r. now apply Hrows.
Qed.

End FilterForward.

(** ** [rts_smoother] and [E_step] *)

Section Smoother.

Context {F : Type} {SF : Scalar F}.

Variable i : @inputs F.
Hypothesis Hv : admissible i.

(** After [k] steps of the forward loop of [rts_smoother] and [E_step]. *)
Definition smoother_inv (k : nat) (acc : F * machine) : Prop :=
  fst acc = fst (fst (predicted i k))
  /\ (forall t, t <= k ->
        load (heap (snd acc)) (slice b_mu_predicts (n i) t) (n i) = predicted_mu i t
        /\ load (heap (snd acc)) (slice b_sigma_predicts (n i * n i) t) (n i * n i)
           = predicted_sigma i t)
  /\ (forall t, t < k ->
        load (heap (snd acc)) (slice b_smoothed_mus (n i) t) (n i) = filtered_mu i t
        /\ load (heap (snd acc)) (slice b_smoothed_sigmas (n i * n i) t) (n i * n i)
           = filtered_sigma i t)
  /\ intact i (heap (snd acc)).

Lemma smoother_step_inv k acc :
  k < T i -> smoother_inv k acc -> smoother_inv (S k) (smoother_step i acc k).
Proof.
  intros Hk (Hll & Hpred & Hrows & Hin). destruct acc as [ll s]. simpl in *.
  assert (Hp : 0 < p i) by (destruct Hv as (_ & _ & _ & _ & _ & _ & _ & Hp); exact Hp).
  destruct (Hpred k (le_n k)) as [Hmu Hsig].
  unfold smoother_step.
  match goal with |- context [condition_on ?a ?b ?c ?d ?e ?f ?g ?h ?j ?l ?pp ?nn s] =>
    pose proof (@condition_on_spec F SF a b c d e f g h j l pp nn s) as Hc
  end.
  destruct Hc as [Hc Hf].
  { unfold cond_layout. simpl. repeat split; try (apply sep_buf; simpl; discriminate).
    all: right; apply sep_buf; simpl; discriminate. }
  { exact Hp. }
  cbv zeta in Hc, Hf.
  destruct (condition_on _ _ _ _ _ _ _ _ _ _ _ _ s) as [l s1]. simpl in Hc, Hf.
  rewrite Hmu, Hsig, (load_C Hv Hin Hk), (load_sigma_obs Hv Hin Hk), (load_data Hv Hin Hk) in Hc.
  assert (Hin1 : intact i (heap s1)).
  { eapply intact_same_outside; [exact Hf| |exact Hin]. fresh_regions. }
  match goal with |- context [predict ?a ?b ?c ?d ?e ?f ?g ?nn s1] =>
    pose proof (@predict_spec F SF a b c d e f g nn s1) as Hq
  end.
  destruct Hq as (Hq1 & Hq2 & Hq3 & _).
  { unfold predict_layout. simpl. repeat split; apply sep_buf; simpl; discriminate. }
  set (s2 := predict _ _ _ _ _ _ _ _ s1) in *.
  assert (Hupd : update i (predicted i k) k = (l, load (heap s1) (slice b_smoothed_mus (n i) k) (n i),
                    load (heap s1) (slice b_smoothed_sigmas (n i * n i) k) (n i * n i))).
  { rewrite Hc. unfold update, predicted_mu, predicted_sigma.
    destruct (predicted i k) as [[a b] c]. reflexivity. }
  rewrite (load_A Hv Hin1 Hk) in Hq1, Hq2. rewrite (load_sigma_states Hv Hin1 Hk) in Hq2.
  unfold smoother_inv. simpl fst. simpl snd.
  repeat split.
  - simpl. rewrite Hupd. rewrite Hll. reflexivity.
  - destruct (Nat.eq_dec t (S k)) as [-> | Hne].
    + replace (S k) with (k + 1) by lia. rewrite Hq1.
      replace (k + 1) with (S k) by lia.
      unfold predicted_mu. simpl. rewrite Hupd. reflexivity.
    + rewrite (same_outside_load Hq3) by apart.
      rewrite (same_outside_load Hf) by apart. apply Hpred. lia.
  - destruct (Nat.eq_dec t (S k)) as [-> | Hne].
    + replace (S k) with (k + 1) by lia. rewrite Hq2.
      replace (k + 1) with (S k) by lia.
      unfold predicted_sigma. simpl. rewrite Hupd. reflexivity.
    + rewrite (same_outside_load Hq3) by apart.
      rewrite (same_outside_load Hf) by apart. apply Hpred. lia.
  - rewrite (same_outside_load Hq3) by apart.
    destruct (Nat.eq_dec t k) as [-> | Hne].
    + unfold filtered_mu, filtered. rewrite Hupd. reflexivity.
    + rewrite (same_outside_load Hf) by apart. apply Hrows. lia.
  - rewrite (same_outside_load Hq3) by apart.
    destruct (Nat.eq_dec t k) as [-> | Hne].
    + unfold filtered_sigma, filtered. rewrite Hupd. reflexivity.
    + rewrite (same_outside_load Hf) by apart. apply Hrows. lia.
  - eapply intact_same_outside; [exact Hq3| |exact Hin1]. fresh_regions.
Qed.

Lemma smoother_loop k acc0 :
  smoother_inv 0 acc0 -> k <= T i ->
  smoother_inv k (fold_left (smoother_step i) (seq 0 k) acc0).
Proof.
  intros H0. induction k as [|k IH]; intros Hk.
  - exact H0.
  - rewrite seq_S, fold_left_app. simpl. apply smoother_step_inv; [lia|]. apply IH. lia.
Qed.

Lemma extents_agree_refl sh : extents_agree sh sh = true.
Proof. induction sh as [|d sh IH]; simpl; [reflexivity|]. now rewrite Nat.eqb_refl, IH. Qed.

Lemma src_offset_same sh k : k < size sh -> src_offset sh sh k = k.
Proof.
  revert k. induction sh as [|d sh IH]; intros k Hk; simpl in *.
  - lia.
  - rewrite Nat.eqb_refl.
    assert (Hs : size sh <> 0) by (intros E; rewrite E in Hk; lia).
    rewrite IH by (apply Nat.mod_upper_bound; exact Hs).
    pose proof (Nat.div_mod_eq k (size sh)). lia.
Qed.

Lemma heap_upd_heap f (s : @machine F) : heap (upd_heap f s) = f (heap s).
Proof. reflexivity. Qed.

(** Assigning an array to a slice of its own shape copies it. *)
Lemma assign_slice_same dst sh src (a : @ndarray F) (s : @machine F) :
  shape a = sh ->
  assign_slice dst sh src a s
  = Ok (upd_heap (store dst (load (heap s) (whole src) (size sh))) s).
Proof.
  intros <-. unfold assign_slice. rewrite extents_agree_refl. do 3 f_equal.
  unfold load. apply map_ext_in. intros k Hk. apply in_seq in Hk. simpl.
  rewrite src_offset_same by lia. reflexivity.
Qed.

(** The forward pass of [rts_smoother] and [E_step] succeeds, and leaves
    every prediction and every filtered belief in place. *)
Lemma smoother_forward_value g :
  exists s, smoother_forward g i = Ok (total_ll i, s)
            /\ smoother_inv (T i) (total_ll i, s).
Proof.
  destruct Hv as ([Hs1 Hl1] & [Hs2 Hl2] & _).
  unfold smoother_forward.
  rewrite (@assign_slice_same _ _ _ _ _ Hs1).
  rewrite (@assign_slice_same _ _ _ _ _ Hs2).
  match goal with |- context [fold_left _ _ ?a] => set (acc0 := a) end.
  assert (H0 : smoother_inv 0 acc0).
  { subst acc0. unfold smoother_inv. simpl fst. simpl snd.
    rewrite !heap_upd_heap. change (heap (entry g i)) with (input_heap g i).
    simpl size in *. repeat split.
    - assert (t = 0) by lia. subst t.
      rewrite load_store_sep by (apply sep_buf; simpl; discriminate).
      rewrite load_store_same by (rewrite load_length; lia).
      apply (@load_whole_input F SF i _ b_mu_init); auto. apply intact_input_heap.
    - assert (t = 0) by lia. subst t.
      rewrite load_store_same by (rewrite load_length; lia).
      rewrite load_store_sep by (apply sep_buf; simpl; discriminate).
      apply (@load_whole_input F SF i _ b_sigma_init); auto. apply intact_input_heap.
    - lia.
    - lia.
    - apply intact_store; [reflexivity|]. apply intact_store; [reflexivity|].
      apply intact_input_heap. }
  pose proof (smoother_loop H0 (le_n (T i))) as H.
  destruct (fold_left _ _ acc0) as [ll s] eqn:E.
  exists s. assert (Hll : ll = total_ll i) by (destruct H as [H _]; exact H).
  subst ll. split; [reflexivity|exact H].
Qed.

(** *** The backward pass *)

Lemma dim_A_1 : dim (in_A i) 1 = n i.
Proof. destruct Hv as (_ & _ & [Hs _] & _). unfold dim. rewrite Hs. reflexivity. Qed.

Lemma dim_A_2 : dim (in_A i) 2 = n i.
Proof. destruct Hv as (_ & _ & [Hs _] & _). unfold dim. rewrite Hs. reflexivity. Qed.

Lemma smoothed_last :
  smoothed_mu i (T i - 1) = filtered_mu i (T i - 1)
  /\ smoothed_sigma i (T i - 1) = filtered_sigma i (T i - 1).
Proof.
  unfold smoothed_mu, smoothed_sigma. rewrite Nat.sub_diag. split; reflexivity.
Qed.

Lemma smoothed_step m :
  m + 1 < T i ->
  smoothed_mu i m
  = rts_mu_v (chunk (in_A i) m) (filtered_mu i m) (filtered_sigma i m)
             (predicted_mu i (m + 1)) (predicted_sigma i (m + 1))
             (smoothed_mu i (m + 1)) (n i)
  /\ smoothed_sigma i m
     = rts_sigma_v (chunk (in_A i) m) (filtered_sigma i m)
                   (predicted_sigma i (m + 1)) (smoothed_sigma i (m + 1)) (n i).
Proof.
  intros Hm. unfold smoothed_mu, smoothed_sigma.
  replace (T i - 1 - m) with (S (T i - 1 - (m + 1))) by lia.
  simpl smoothed_back.
  replace (T i - 1 - S (T i - 1 - (m + 1))) with m by lia.
  destruct (smoothed_back i (T i - 1 - (m + 1))) as [sm ss]. split; reflexivity.
Qed.

(** In the backward loop, when the steps [t >= m] are done: the beliefs
    from [m] on are smoothed, those before [m] are still the filtered ones,
    and the predictions up to [m] are still in place. *)
Definition back_inv (m : nat) (h : @mem F) : Prop :=
  (forall t, t < T i -> m <= t ->
     load h (slice b_smoothed_mus (n i) t) (n i) = smoothed_mu i t
     /\ load h (slice b_smoothed_sigmas (n i * n i) t) (n i * n i) = smoothed_sigma i t)
  /\ (forall t, t < m ->
        load h (slice b_smoothed_mus (n i) t) (n i) = filtered_mu i t
        /\ load h (slice b_smoothed_sigmas (n i * n i) t) (n i * n i) = filtered_sigma i t)
  /\ (forall t, t <= m ->
        load h (slice b_mu_predicts (n i) t) (n i) = predicted_mu i t
        /\ load h (slice b_sigma_predicts (n i * n i) t) (n i * n i) = predicted_sigma i t)
  /\ intact i h.

Lemma back_inv_start acc : smoother_inv (T i) acc -> back_inv (T i - 1) (heap (snd acc)).
Proof.
  intros (_ & Hpred & Hrows & Hin). unfold back_inv. repeat split.
  - assert (t = T i - 1) by lia. subst t.
    rewrite (proj1 smoothed_last). apply Hrows. lia.
  - assert (t = T i - 1) by lia. subst t.
    rewrite (proj2 smoothed_last). apply Hrows. lia.
  - apply Hrows. lia.
  - apply Hrows. lia.
  - apply Hpred. lia.
  - apply Hpred. lia.
  - exact Hin.
Qed.

Lemma rts_step_inv m (s : @machine F) :
  m + 1 < T i -> back_inv (S m) (heap s) ->
  back_inv m (heap (rts_step i s m))
  /\ load (heap (rts_step i s m)) (whole b_temp_nn) (n i * n i) = gain i m.
Proof.
  intros Hm (Hsm & Hfl & Hpred & Hin).
  unfold rts_step. rewrite dim_A_1.
  match goal with |- context [rts_backward_step ?a ?b ?c ?d ?e ?f ?g ?h ?j ?l ?nn s] =>
    pose proof (@rts_backward_step_spec F SF a b c d e f g h j l nn s) as Hr
  end.
  destruct Hr as (Hr1 & Hr2 & Hr3 & Hr4).
  { unfold rts_layout. simpl. repeat split;
      first [ apply sep_buf; simpl; discriminate | apply sep_slice; lia ]. }
  set (s' := rts_backward_step _ _ _ _ _ _ _ _ _ _ _ s) in *.
  assert (Hm' : m < T i) by lia.
  rewrite (load_A Hv Hin Hm') in Hr1, Hr2, Hr3.
  destruct (Hfl m (Nat.lt_succ_diag_r m)) as [Ef1 Ef2].
  destruct (Hpred (m + 1)) as [Ep1 Ep2]; [lia|].
  destruct (Hsm (m + 1)) as [Es1 Es2]; [lia|lia|].
  rewrite Ef1, Ef2, Ep1, Ep2, Es1 in Hr1. rewrite Ef2, Ep2, Es2 in Hr2.
  rewrite Ef2, Ep2 in Hr3.
  destruct (@smoothed_step m Hm) as [Em1 Em2].
  split; [|exact Hr3].
  unfold back_inv. repeat split.
  - destruct (Nat.eq_dec t m) as [-> | Hne].
    + rewrite Hr1. symmetry. exact Em1.
    + rewrite (same_outside_load Hr4) by apart. apply Hsm; lia.
  - destruct (Nat.eq_dec t m) as [-> | Hne].
    + rewrite Hr2. symmetry. exact Em2.
    + rewrite (same_outside_load Hr4) by apart. apply Hsm; lia.
  - rewrite (same_outside_load Hr4) by apart. apply Hfl. lia.
  - rewrite (same_outside_load Hr4) by apart. apply Hfl. lia.
  - rewrite (same_outside_load Hr4) by apart. apply Hpred. lia.
  - rewrite (same_outside_load Hr4) by apart. apply Hpred. lia.
  - eapply intact_same_outside; [exact Hr4| |exact Hin]. fresh_regions.
Qed.

Lemma rev_seq_S m : rev (seq 0 (S m)) = m :: rev (seq 0 m).
Proof. rewrite seq_S, rev_app_distr. reflexivity. Qed.

Lemma rts_loop m (s : @machine F) :
  m < T i -> back_inv m (heap s) ->
  back_inv 0 (heap (fold_left (rts_step i) (rev (seq 0 m)) s)).
Proof.
  revert s. induction m as [|m IH]; intros s Hm H.
  - exact H.
  - rewrite rev_seq_S. simpl. apply IH; [lia|].
    apply rts_step_inv; [lia|exact H].
Qed.

(** [rts_smoother] returns the values of the backward recursion. *)
Lemma rts_smoother_value g :
  rts_smoother g i
  = Ok (total_ll i, stack [n i] (T i) (smoothed_mu i),
        stack [n i; n i] (T i) (smoothed_sigma i)).
Proof.
  unfold rts_smoother. destruct (smoother_forward_value g) as (s & -> & Hs).
  apply back_inv_start in Hs. simpl in Hs. unfold backwards.
  assert (Hb : back_inv 0 (heap (fold_left (rts_step i) (rev (seq 0 (T i - 1))) s))).
  { destruct (Nat.eq_dec (T i) 0) as [E | E].
    - replace (T i - 1) with 0 in * by lia. exact Hs.
    - apply rts_loop; [lia|exact Hs]. }
  destruct Hb as (Hsm & _).
  f_equal. f_equal; [f_equal|].
  - apply stack_rows. intros t Ht. simpl size. rewrite Nat.mul_1_r. apply Hsm; lia.
  - apply stack_rows. intros t Ht. simpl size. rewrite Nat.mul_1_r. apply Hsm; lia.
Qed.

(** *** [E_step] *)

Definition estep_inv (m : nat) (h : @mem F) : Prop :=
  back_inv m h
  /\ (forall t, m <= t -> t + 1 < T i ->
        load h (slice b_ExxnT (n i * n i) t) (n i * n i) = cross_moment i t).

Lemma back_inv_same_outside ws m (h h' : @mem F) :
  same_outside ws h h' ->
  (forall w, In w ws -> pbuf (fst w) = b_ExxnT) ->
  back_inv m h -> back_inv m h'.
Proof.
  intros Hs Hw (Hsm & Hfl & Hpred & Hin).
  assert (Hl : forall b st t len, b <> b_ExxnT ->
                 load h' (slice b st t) len = load h (slice b st t) len).
  { intros b st t len Hb. apply (same_outside_load Hs). intros w Hin'.
    apply sep_buf. rewrite (Hw w Hin'). simpl. congruence. }
  unfold back_inv. repeat split; try rewrite Hl by discriminate.
  - now apply Hsm.
  - now apply Hsm.
  - now apply Hfl.
  - now apply Hfl.
  - now apply Hpred.
  - now apply Hpred.
  - eapply intact_same_outside; [exact Hs| |exact Hin].
    intros w Hin'. rewrite (Hw w Hin'). reflexivity.
Qed.

Lemma E_step_step_inv m (s : @machine F) :
  m + 1 < T i -> estep_inv (S m) (heap s) -> estep_inv m (heap (E_step_step i s m)).
Proof.
  intros Hm [Hb Hx]. unfold E_step_step.
  destruct (@rts_step_inv m s Hm Hb) as [Hb' Hg].
  set (s1 := rts_step i s m) in *.
  match goal with |- context [set_dynamics_stats ?a ?b ?c ?d ?e ?nn s1] =>
    pose proof (@set_dynamics_stats_spec F SF a b c d e nn s1) as Hd
  end.
  destruct Hd as [Hd1 Hd2].
  { simpl. repeat split; apply sep_buf; simpl; discriminate. }
  set (s2 := set_dynamics_stats _ _ _ _ _ _ s1) in *.
  destruct Hb' as (Hsm & Hrest).
  destruct (Hsm m) as [E1 _]; [lia|lia|].
  destruct (Hsm (m + 1)) as [E2 E3]; [lia|lia|].
  rewrite E1, E2, E3, Hg in Hd1.
  split.
  - apply (back_inv_same_outside Hd2).
    + intros w [<- | []]. reflexivity.
    + split; assumption.
  - intros t Ht1 Ht2. destruct (Nat.eq_dec t m) as [-> | Hne].
    + exact Hd1.
    + rewrite (same_outside_load Hd2) by apart.
      assert (Hx' : load (heap s1) (slice b_ExxnT (n i * n i) t) (n i * n i)
                    = load (heap s) (slice b_ExxnT (n i * n i) t) (n i * n i)).
      { unfold s1, rts_step. rewrite dim_A_1.
        match goal with |- context [rts_backward_step ?a ?b ?c ?d ?e ?f ?g ?h ?j ?l ?nn s] =>
          pose proof (@rts_backward_step_spec F SF a b c d e f g h j l nn s) as Hr
        end.
        destruct Hr as (_ & _ & _ & Hr4).
        { unfold rts_layout. simpl. repeat split;
            first [ apply sep_buf; simpl; discriminate | apply sep_slice; lia ]. }
        apply (same_outside_load Hr4). apart. }
      rewrite Hx'. apply Hx; lia.
Qed.

Lemma E_step_loop m (s : @machine F) :
  m < T i -> estep_inv m (heap s) ->
  estep_inv 0 (heap (fold_left (E_step_step i) (rev (seq 0 m)) s)).
Proof.
  revert s. induction m as [|m IH]; intros s Hm H.
  - exact H.
  - rewrite rev_seq_S. simpl. apply IH; [lia|].
    apply E_step_step_inv; [lia|exact H].
Qed.

(** [E_step] returns the values of the backward recursion, and the
    [T-1] second moments. *)
Lemma E_step_value g :
  0 < T i ->
  E_step g i
  = Ok (total_ll i, stack [n i] (T i) (smoothed_mu i),
        stack [n i; n i] (T i) (smoothed_sigma i),
        stack [n i; n i] (T i - 1) (cross_moment i)).
Proof.
  intros HT. unfold E_step. destruct (T i) as [|T'] eqn:E; [lia|]. rewrite <- E.
  destruct (smoother_forward_value g) as (s & -> & Hs).
  apply back_inv_start in Hs. simpl in Hs. unfold backwards.
  assert (Hb : estep_inv 0 (heap (fold_left (E_step_step i) (rev (seq 0 (T i - 1))) s))).
  { apply E_step_loop; [lia|]. split; [exact Hs|]. intros t Ht1 Ht2. lia. }
  destruct Hb as ((Hsm & _) & Hx).
  f_equal. f_equal; [f_equal; [f_equal|]|].
  - apply stack_rows. intros t Ht. simpl size. rewrite Nat.mul_1_r. apply Hsm; lia.
  - apply stack_rows. intros t Ht. simpl size. rewrite Nat.mul_1_r. apply Hsm; lia.
  - apply stack_rows. intros t Ht. simpl size. rewrite Nat.mul_1_r. apply Hx; lia.
Qed.

End Smoother.

(** ** [filter_and_sample] *)

Section Sampler.

Context {F : Type} {SF : Scalar F}.

Variable i : @inputs F.
Hypothesis Hv : admissible i.

Lemma filter_inv_randseq k ll (s : @machine F) l :
  filter_inv i k (ll, s) ->
  filter_inv i k (ll, upd_heap (store (whole b_randseq) l) s).
Proof.
  intros (Hll & Hmu & Hsig & Hrows & Hin). unfold filter_inv. simpl fst in *.
  simpl snd in *. rewrite heap_upd_heap.
  repeat split; try rewrite load_store_sep by (apply sep_buf; simpl; discriminate);
    auto.
  - now apply Hrows.
  - now apply Hrows.
  - apply intact_store; [reflexivity|exact Hin].
Qed.

(** [filter_and_sample] succeeds on every horizon of at least one step,
    and returns the log-likelihood of the forward recursion. *)
Lemma filter_and_sample_value g randn :
  0 < T i ->
  exists draws, filter_and_sample g i randn = Ok (total_ll i, draws).
Proof.
  intros HT. unfold filter_and_sample.
  match goal with |- context [fold_left _ _ ?a] => set (acc0 := a) end.
  assert (H0 : filter_inv i 0 acc0).
  { subst acc0. apply filter_inv_randseq. apply (filter_entry Hv).
    apply intact_input_heap. }
  pose proof (filter_loop Hv H0 (le_n (T i))) as H.
  destruct (fold_left _ _ acc0) as [ll s]. destruct H as (Hll & _).
  simpl in Hll. subst ll.
  unfold total_ll. destruct (T i) as [|T']; [lia|]. eexists. reflexivity.
Qed.

End Sampler.

(** ** Shapes of the values *)

Section Shapes.

Context {F : Type} {SF : Scalar F}.

Variable i : @inputs F.
Hypothesis Hv : admissible i.

Lemma length_condition_on_v (mu_x sigma_x C sigma_obs y : list F) p n :
  length mu_x = n -> length sigma_x = n * n ->
  length (snd (fst (condition_on_v mu_x sigma_x C sigma_obs y p n))) = n
  /\ length (snd (condition_on_v mu_x sigma_x C sigma_obs y p n)) = n * n.
Proof.
  intros H1 H2. unfold condition_on_v. destruct (missing y); simpl.
  - auto.
  - unfold cond_mu, cond_sigma. autorewrite with len. auto.
Qed.

Lemma length_predicted t :
  length (predicted_mu i t) = n i /\ length (predicted_sigma i t) = n i * n i.
Proof.
  unfold predicted_mu, predicted_sigma. induction t as [|t [IH1 IH2]].
  - destruct Hv as ([_ Hl1] & [_ Hl2] & _). simpl in *. lia.
  - simpl. destruct (predicted i t) as [[ll mu] sigma]. simpl in *.
    destruct (condition_on_v _ _ _ _ _ _ _) as [[l mu'] sigma'].
    simpl. unfold predict_mu_v, predict_sigma_v. autorewrite with len. auto.
Qed.

Lemma length_filtered t :
  length (filtered_mu i t) = n i /\ length (filtered_sigma i t) = n i * n i.
Proof.
  unfold filtered_mu, filtered_sigma, filtered, update.
  destruct (length_predicted t) as [H1 H2]. unfold predicted_mu, predicted_sigma in *.
  destruct (predicted i t) as [[ll mu] sigma]. simpl in *.
  now apply length_condition_on_v.
Qed.

(** The log-likelihood is the sum of the terms of the steps. *)
Lemma predicted_ll t :
  fst (fst (predicted i t))
  = fold_left fadd (map (fun k => fst (fst (filtered i k))) (seq 0 t)) f0.
Proof.
  induction t as [|t IH].
  - reflexivity.
  - rewrite seq_S, map_app, fold_left_app. simpl. rewrite <- IH.
    unfold filtered. destruct (update i (predicted i t) t) as [[l mu] sigma].
    reflexivity.
Qed.

End Shapes.

Section Stack.

Context {F : Type}.

Lemma skipn_rows (f : nat -> list F) len a rows t :
  (forall k, a <= k < a + rows -> length (f k) = len) -> t <= rows ->
  skipn (t * len) (concat (map f (seq a rows)))
  = concat (map f (seq (a + t) (rows - t))).
Proof.
  revert a rows. induction t as [|t IH]; intros a rows Hl Ht.
  - simpl. now rewrite Nat.add_0_r, Nat.sub_0_r.
  - destruct rows as [|rows]; [lia|]. simpl seq. simpl map. simpl concat.
    replace (S t * len) with (length (f a) + t * len) by (rewrite Hl; lia).
    rewrite skipn_app, skipn_all2 by lia.
    replace (length (f a) + t * len - length (f a)) with (t * len) by lia.
    simpl app. rewrite IH by (try lia; intros k Hk; apply Hl; lia).
    replace (S a + t) with (a + S t) by lia. reflexivity.
Qed.

(** Row [t] of a stack of rows of equal length. *)
Lemma chunk_stack sh rows (f : nat -> list F) t :
  (forall k, k < rows -> length (f k) = size sh) -> t < rows ->
  chunk (stack sh rows f) t = f t.
Proof.
  intros Hl Ht. unfold chunk, stack, stride0. simpl shape. simpl tl. simpl elems.
  rewrite (@skipn_rows f (size sh) 0 rows t) by (try lia; intros k Hk; apply Hl; lia).
  simpl. replace (rows - t) with (S (rows - t - 1)) by lia. simpl.
  rewrite firstn_app, firstn_all2 by (rewrite Hl; lia).
  rewrite Hl by lia. rewrite Nat.sub_diag. simpl. apply app_nil_r.
Qed.

End Stack.


Section ShapesBack.

Context {F : Type} {SF : Scalar F}.

Variable i : @inputs F.
Hypothesis Hv : admissible i.

Lemma length_smoothed_back k :
  length (fst (smoothed_back i k)) = n i /\ length (snd (smoothed_back i k)) = n i * n i.
Proof.
  induction k as [|k _].
  - simpl. apply (length_filtered Hv).
  - simpl. destruct (smoothed_back i k) as [sm ss]. simpl.
    unfold rts_mu_v, rts_sigma_v. cbv zeta. autorewrite with len. auto.
Qed.

Lemma length_smoothed t :
  length (smoothed_mu i t) = n i /\ length (smoothed_sigma i t) = n i * n i.
Proof. apply length_smoothed_back. Qed.

(** The rows of the arrays that the routines return have the lengths that
    their shapes announce. *)
Lemma rows_filtered_mu k : length (filtered_mu i k) = size [n i].
Proof. simpl. rewrite Nat.mul_1_r. apply (length_filtered Hv). Qed.

Lemma rows_filtered_sigma k : length (filtered_sigma i k) = size [n i; n i].
Proof. simpl. rewrite Nat.mul_1_r. apply (length_filtered Hv). Qed.

Lemma rows_smoothed_mu k : length (smoothed_mu i k) = size [n i].
Proof. simpl. rewrite Nat.mul_1_r. apply length_smoothed. Qed.

Lemma rows_smoothed_sigma k : length (smoothed_sigma i k) = size [n i; n i].
Proof. simpl. rewrite Nat.mul_1_r. apply length_smoothed. Qed.

End ShapesBack.

(** * The claims *)

Section Claims.

Context {F : Type} {SF : Scalar F}.

(** C3. When the first coordinate of an observation is a NaN,
    [condition_on] returns exactly 0 and leaves the prior mean and
    covariance in the output buffers, whether or not these are the buffers of
    the prior; and in [kalman_filter], at a step [t] whose observation is
    missing, the filtered mean and covariance are the one-step prediction
    from [t-1] (the initial belief at [t = 0]) and the term added to the
    log-likelihood is exactly 0. *)
Theorem missing_observation_keeps_prior
    (mu_x sigma_x C sigma_obs y mu_cond sigma_cond temp_p temp_pn temp_pp : ptr)
    (p0 n0 : nat) (s : @machine F) (g : @mem F) (i : @inputs F) (t : nat) :
  cond_layout mu_x sigma_x C sigma_obs y mu_cond sigma_cond temp_p temp_pn temp_pp p0 n0 ->
  negb (feqb (rd s y 0) (rd s y 0)) = true ->
  valid i -> t < T i -> missing (chunk (in_data i) t) = true ->
  (let r := condition_on mu_x sigma_x C sigma_obs y mu_cond sigma_cond
                         temp_p temp_pn temp_pp p0 n0 s in
   fst r = f0
   /\ load (heap (snd r)) mu_cond n0 = load (heap s) mu_x n0
   /\ load (heap (snd r)) sigma_cond (n0 * n0) = load (heap s) sigma_x (n0 * n0))
  /\ exists ll fm fs,
       kalman_filter g i = Ok (ll, fm, fs)
       /\ chunk fm t = match t with
                       | 0 => elems (in_mu_init i)
                       | S t' => predict_mu_v (chunk fm t') (chunk (in_A i) t') (n i)
                       end
       /\ chunk fs t = match t with
                       | 0 => elems (in_sigma_init i)
                       | S t' => predict_sigma_v (chunk fs t') (chunk (in_A i) t')
                                                 (chunk (in_sigma_states i) t') (n i)
                       end
       /\ ll = fold_left fadd (map (fun k => fst (fst (filtered i k))) (seq 0 (T i))) f0
       /\ fst (fst (filtered i t)) = f0.
Proof.
  intros L Hnan Hv Ht Hmiss. split.
  - unfold cond_layout in L. simpl in L. decompose [and] L. clear L.
    unfold condition_on. cbv zeta. rewrite Hnan. simpl fst. simpl snd.
    repeat split.
    + run. rewrite !dcopy_v_unit by len_tac. now autorewrite with len.
    + run. rewrite !dcopy_v_unit by len_tac. now autorewrite with len.
  - apply valid_admissible in Hv.
    exists (total_ll i), (stack [n i] (T i) (filtered_mu i)),
           (stack [n i; n i] (T i) (filtered_sigma i)).
    assert (Hlm : forall k, k < T i -> length (filtered_mu i k) = size [n i])
      by (intros k _; simpl; rewrite Nat.mul_1_r; apply (length_filtered Hv)).
    assert (Hls : forall k, k < T i -> length (filtered_sigma i k) = size [n i; n i])
      by (intros k _; simpl; rewrite Nat.mul_1_r; apply (length_filtered Hv)).
    assert (Hf : filtered i t = (f0, predicted_mu i t, predicted_sigma i t)).
    { unfold filtered, update, predicted_mu, predicted_sigma.
      destruct (predicted i t) as [[l mu] sigma]. unfold condition_on_v.
      rewrite Hmiss. reflexivity. }
    split; [apply (kalman_filter_value Hv)|].
    rewrite !chunk_stack by (auto; lia).
    repeat split.
    + unfold filtered_mu at 1. rewrite Hf. simpl. destruct t as [|t']; [reflexivity|].
      rewrite chunk_stack by (auto; lia).
      unfold predicted_mu. simpl. unfold filtered_mu, filtered.
      destruct (update i (predicted i t') t') as [[l mu] sigma]. reflexivity.
    + unfold filtered_sigma at 1. rewrite Hf. simpl. destruct t as [|t']; [reflexivity|].
      rewrite chunk_stack by (auto; lia).
      unfold predicted_sigma. simpl. unfold filtered_sigma, filtered.
      destruct (update i (predicted i t') t') as [[l mu] sigma]. reflexivity.
    + unfold total_ll. apply predicted_ll.
    + rewrite Hf. reflexivity.
Qed.

(** C5. On a valid input with at least one step, the mean and covariance
    that [rts_smoother] returns at the last step [T-1] are those that
    [kalman_filter] returns there. *)
Theorem smoother_agrees_with_filter_at_end (g g' : @mem F) (i : @inputs F) :
  valid i -> 1 <= T i ->
  exists ll fm fs ll' sm ss,
    kalman_filter g i = Ok (ll, fm, fs)
    /\ rts_smoother g' i = Ok (ll', sm, ss)
    /\ chunk sm (T i - 1) = chunk fm (T i - 1)
    /\ chunk ss (T i - 1) = chunk fs (T i - 1).
Proof.
  intros Hv HT. apply valid_admissible in Hv.
  exists (total_ll i), (stack [n i] (T i) (filtered_mu i)),
         (stack [n i; n i] (T i) (filtered_sigma i)).
  exists (total_ll i), (stack [n i] (T i) (smoothed_mu i)),
         (stack [n i; n i] (T i) (smoothed_sigma i)).
  split; [apply (kalman_filter_value Hv)|].
  split; [apply (rts_smoother_value Hv)|].
  destruct (smoothed_last i) as [E1 E2].
  rewrite !chunk_stack; try lia.
  - rewrite E1, E2. split; reflexivity.
  - intros k _. apply (rows_filtered_sigma Hv).
  - intros k _. apply (rows_smoothed_sigma Hv).
  - intros k _. apply (rows_filtered_mu Hv).
  - intros k _. apply (rows_smoothed_mu Hv).
Qed.

(** C6. On a valid input with at least one step, [kalman_filter],
    [rts_smoother], [filter_and_sample] and [E_step] all return, and return
    the same log-likelihood, whatever the fresh memory each of them is
    handed and whatever the random draws. *)
Theorem same_log_likelihood (g1 g2 g3 g4 : @mem F) (randn : nat -> F) (i : @inputs F) :
  valid i -> 1 <= T i ->
  exists ll,
    (exists fm fs, kalman_filter g1 i = Ok (ll, fm, fs))
    /\ (exists sm ss, rts_smoother g2 i = Ok (ll, sm, ss))
    /\ (exists draws, filter_and_sample g3 i randn = Ok (ll, draws))
    /\ (exists sm ss ex, E_step g4 i = Ok (ll, sm, ss, ex)).
Proof.
  intros Hv HT. apply valid_admissible in Hv. exists (total_ll i).
  split; [|split; [|split]].
  - do 2 eexists. apply (kalman_filter_value Hv).
  - do 2 eexists. apply (rts_smoother_value Hv).
  - apply (filter_and_sample_value Hv). lia.
  - do 3 eexists. apply (E_step_value Hv). lia.
Qed.

(** C9. [condition_on] called with the posterior buffers being the very
    buffers of the prior returns the same value, and leaves the same mean
    and covariance, as when it is called with posterior buffers of their
    own. *)
Theorem condition_on_in_place
    (mu_x sigma_x C sigma_obs y mu_cond sigma_cond temp_p temp_pn temp_pp : ptr)
    (p0 n0 : nat) (s : @machine F) :
  cond_layout mu_x sigma_x C sigma_obs y mu_x sigma_x temp_p temp_pn temp_pp p0 n0 ->
  cond_layout mu_x sigma_x C sigma_obs y mu_cond sigma_cond temp_p temp_pn temp_pp p0 n0 ->
  sep mu_x n0 mu_cond n0 -> sep sigma_x (n0 * n0) sigma_cond (n0 * n0) ->
  0 < p0 ->
  let shared := condition_on mu_x sigma_x C sigma_obs y mu_x sigma_x
                             temp_p temp_pn temp_pp p0 n0 s in
  let apart := condition_on mu_x sigma_x C sigma_obs y mu_cond sigma_cond
                            temp_p temp_pn temp_pp p0 n0 s in
  fst shared = fst apart
  /\ load (heap (snd shared)) mu_x n0 = load (heap (snd apart)) mu_cond n0
  /\ load (heap (snd shared)) sigma_x (n0 * n0)
     = load (heap (snd apart)) sigma_cond (n0 * n0).
Proof.
  intros L1 L2 _ _ Hp shared apart.
  destruct (condition_on_spec s L1 Hp) as [H1 _].
  destruct (condition_on_spec s L2 Hp) as [H2 _].
  cbv zeta in H1, H2. fold shared in H1. fold apart in H2.
  clearbody shared apart.
  rewrite <- H2 in H1. injection H1 as E1 E2 E3.
  exact (conj E1 (conj E2 E3)).
Qed.

(** C10. With a single observation the backward loops run no iteration;
    all four routines return; [rts_smoother] returns what [kalman_filter]
    returns; and [E_step] returns the same again, with an empty array of
    shape (0, n, n) for the second moments. *)
Theorem single_observation (g1 g2 g3 g4 : @mem F) (randn : nat -> F) (i : @inputs F) :
  valid i -> T i = 1 ->
  backwards (T i) = []
  /\ exists ll fm fs,
       kalman_filter g1 i = Ok (ll, fm, fs)
       /\ rts_smoother g2 i = Ok (ll, fm, fs)
       /\ E_step g3 i = Ok (ll, fm, fs, mkarr [0; n i; n i] [])
       /\ exists draws, filter_and_sample g4 i randn = Ok (ll, draws).
Proof.
  intros Hv HT. apply valid_admissible in Hv. split.
  - rewrite HT. reflexivity.
  - exists (total_ll i), (stack [n i] (T i) (filtered_mu i)),
           (stack [n i; n i] (T i) (filtered_sigma i)).
    assert (Es : stack [n i] (T i) (smoothed_mu i) = stack [n i] (T i) (filtered_mu i)
                 /\ stack [n i; n i] (T i) (smoothed_sigma i)
                    = stack [n i; n i] (T i) (filtered_sigma i)).
    { destruct (smoothed_last i) as [E1 E2]. unfold stack. rewrite HT in *.
      simpl in *. rewrite E1, E2. split; reflexivity. }
    destruct Es as [Es1 Es2].
    split; [apply (kalman_filter_value Hv)|].
    split; [rewrite (rts_smoother_value Hv), Es1, Es2; reflexivity|].
    split.
    + rewrite (E_step_value Hv) by lia. rewrite Es1, Es2. rewrite HT. reflexivity.
    + apply (filter_and_sample_value Hv). lia.
Qed.

End Claims.

(** ** The claims on a run in double precision *)

Ltac layout_by_buffers :=
  unfold cond_layout, sep; simpl; repeat split;
  first [ left; discriminate | right; left; discriminate ].

Ltac valid_by_shape :=
  unfold valid, well_shaped; repeat split; try reflexivity; vm_compute; lia.

Lemma missing_observation_keeps_prior_holds :
  let i := Double.one_step nan in
  let s := entry Double.junk i in
  valid i /\ 0 < T i /\ missing (chunk (in_data i) 0) = true
  /\ fst (condition_on (whole b_mu_predict) (whole b_sigma_predict) (whole b_C)
                       (whole b_sigma_obs) (whole b_data)
                       (whole b_filtered_mus) (whole b_filtered_sigmas)
                       (whole b_temp_p) (whole b_temp_pn) (whole b_temp_pp) 1 1 s)
     = f0
  /\ exists ll fm fs,
       kalman_filter Double.junk i = Ok (ll, fm, fs)
       /\ chunk fm 0 = elems (in_mu_init i)
       /\ chunk fs 0 = elems (in_sigma_init i).
Proof.
  cbv zeta.
  assert (Hv : valid (Double.one_step nan)) by valid_by_shape.
  assert (HT : 0 < T (Double.one_step nan)) by (vm_compute; lia).
  assert (Hm : missing (chunk (in_data (Double.one_step nan)) 0) = true) by reflexivity.
  destruct (@missing_observation_keeps_prior float Double.scalar
              (whole b_mu_predict) (whole b_sigma_predict) (whole b_C)
              (whole b_sigma_obs) (whole b_data)
              (whole b_filtered_mus) (whole b_filtered_sigmas)
              (whole b_temp_p) (whole b_temp_pn) (whole b_temp_pp) 1 1
              (entry Double.junk (Double.one_step nan)) Double.junk
              (Double.one_step nan) 0)
    as [[H1 _] (ll & fm & fs & H2 & H3 & H4 & _)].
  - layout_by_buffers.
  - reflexivity.
  - exact Hv.
  - exact HT.
  - exact Hm.
  - repeat split; try assumption. exists ll, fm, fs. auto.
Defined.

Lemma smoother_agrees_with_filter_at_end_holds :
  let i := Double.one_step 3 in
  valid i /\ 1 <= T i
  /\ exists ll fm fs ll' sm ss,
       kalman_filter Double.junk i = Ok (ll, fm, fs)
       /\ rts_smoother Double.junk i = Ok (ll', sm, ss)
       /\ chunk sm (T i - 1) = chunk fm (T i - 1)
       /\ chunk ss (T i - 1) = chunk fs (T i - 1).
Proof.
  cbv zeta.
  assert (Hv : valid (Double.one_step 3)) by valid_by_shape.
  assert (HT : 1 <= T (Double.one_step 3)) by (vm_compute; lia).
  split; [exact Hv|]. split; [exact HT|].
  exact (@smoother_agrees_with_filter_at_end float Double.scalar Double.junk Double.junk
           (Double.one_step 3) Hv HT).
Defined.

Lemma same_log_likelihood_holds :
  let i := Double.one_step 3 in
  valid i /\ 1 <= T i
  /\ exists ll,
       (exists fm fs, kalman_filter Double.junk i = Ok (ll, fm, fs))
       /\ (exists sm ss, rts_smoother Double.junk i = Ok (ll, sm, ss))
       /\ (exists draws, filter_and_sample Double.junk i (fun _ => 0%float) = Ok (ll, draws))
       /\ (exists sm ss ex, E_step Double.junk i = Ok (ll, sm, ss, ex)).
Proof.
  cbv zeta.
  assert (Hv : valid (Double.one_step 3)) by valid_by_shape.
  assert (HT : 1 <= T (Double.one_step 3)) by (vm_compute; lia).
  split; [exact Hv|]. split; [exact HT|].
  exact (@same_log_likelihood float Double.scalar Double.junk Double.junk Double.junk
           Double.junk (fun _ => 0%float) (Double.one_step 3) Hv HT).
Defined.

Lemma condition_on_in_place_holds :
  let s := entry Double.junk (Double.one_step 3) in
  fst (condition_on (whole b_mu_init) (whole b_sigma_init) (whole b_C)
                    (whole b_sigma_obs) (whole b_data)
                    (whole b_mu_init) (whole b_sigma_init)
                    (whole b_temp_p) (whole b_temp_pn) (whole b_temp_pp) 1 1 s)
  = fst (condition_on (whole b_mu_init) (whole b_sigma_init) (whole b_C)
                      (whole b_sigma_obs) (whole b_data)
                      (whole b_filtered_mus) (whole b_filtered_sigmas)
                      (whole b_temp_p) (whole b_temp_pn) (whole b_temp_pp) 1 1 s).
Proof.
  cbv zeta.
  refine (proj1 (@condition_on_in_place float Double.scalar
            (whole b_mu_init) (whole b_sigma_init) (whole b_C)
            (whole b_sigma_obs) (whole b_data)
            (whole b_filtered_mus) (whole b_filtered_sigmas)
            (whole b_temp_p) (whole b_temp_pn) (whole b_temp_pp) 1 1
            (entry Double.junk (Double.one_step 3)) _ _ _ _ _)).
  - unfold cond_layout, sep; simpl; repeat split;
      first [ left; discriminate | left; reflexivity ].
  - layout_by_buffers.
  - unfold sep. left. discriminate.
  - unfold sep. left. discriminate.
  - lia.
Defined.

Lemma single_observation_holds :
  let i := Double.one_step 3 in
  valid i /\ T i = 1
  /\ backwards (T i) = []
  /\ exists ll fm fs,
       kalman_filter Double.junk i = Ok (ll, fm, fs)
       /\ rts_smoother Double.junk i = Ok (ll, fm, fs)
       /\ E_step Double.junk i = Ok (ll, fm, fs, mkarr [0; n i; n i] [])
       /\ exists draws, filter_and_sample Double.junk i (fun _ => 0%float) = Ok (ll, draws).
Proof.
  cbv zeta.
  assert (Hv : valid (Double.one_step 3)) by valid_by_shape.
  assert (HT : T (Double.one_step 3) = 1) by reflexivity.
  split; [exact Hv|]. split; [exact HT|].
  exact (@single_observation float Double.scalar Double.junk Double.junk Double.junk
           Double.junk (fun _ => 0%float) (Double.one_step 3) Hv HT).
Defined.

(** ** Observations beyond the horizon *)

Section MoreRows.

Context {F : Type} {SF : Scalar F}.

(** The input [i] with other observations. *)
Definition with_data (i : @inputs F) (d : ndarray) : inputs :=
  mkinputs (in_mu_init i) (in_sigma_init i) (in_A i) (in_sigma_states i)
           (in_C i) (in_sigma_obs i) d.

(** [k] more rows of observations after those of [i]. *)
Definition more_rows (i : @inputs F) (k : nat) (extra : list F) : inputs :=
  with_data i (mkarr [T i + k; p i] (elems (in_data i) ++ extra)).

Variable i : @inputs F.
Variable d : @ndarray F.
Hypothesis Hd : forall t, t < T i -> chunk d t = chunk (in_data i) t.

Let i' := with_data i d.

Lemma predicted_with_data t : t <= T i -> predicted i' t = predicted i t.
Proof.
  induction t as [|t IH]; intros Ht.
  - reflexivity.
  - simpl. rewrite IH by lia. unfold update. destruct (predicted i t) as [[ll mu] sigma].
    unfold i' at 3. simpl in_data. rewrite Hd by lia. reflexivity.
Qed.

Lemma filtered_with_data t : t < T i -> filtered i' t = filtered i t.
Proof.
  intros Ht. unfold filtered. rewrite predicted_with_data by lia.
  unfold update. destruct (predicted i t) as [[ll mu] sigma].
  unfold i'. simpl in_data. rewrite Hd by lia. reflexivity.
Qed.

Lemma smoothed_back_with_data k :
  k < T i -> smoothed_back i' k = smoothed_back i k.
Proof.
  induction k as [|k IH]; intros Hk.
  - simpl. unfold filtered_mu, filtered_sigma.
    change (T i') with (T i). rewrite filtered_with_data by lia. reflexivity.
  - simpl. rewrite IH by lia. change (T i') with (T i).
    unfold filtered_mu, filtered_sigma, predicted_mu, predicted_sigma.
    rewrite filtered_with_data by lia. rewrite predicted_with_data by lia.
    reflexivity.
Qed.

Lemma total_ll_with_data : total_ll i' = total_ll i.
Proof.
  unfold total_ll. change (T i') with (T i). now rewrite predicted_with_data by lia.
Qed.

Lemma stack_ext sh rows (f f' : nat -> list F) :
  (forall t, t < rows -> f t = f' t) -> stack sh rows f = stack sh rows f'.
Proof.
  intros H. unfold stack. f_equal. f_equal. apply map_ext_in. intros t Ht.
  apply in_seq in Ht. apply H. lia.
Qed.

Lemma filtered_stacks_with_data :
  stack [n i'] (T i') (filtered_mu i') = stack [n i] (T i) (filtered_mu i)
  /\ stack [n i'; n i'] (T i') (filtered_sigma i')
     = stack [n i; n i] (T i) (filtered_sigma i).
Proof.
  change (T i') with (T i). change (n i') with (n i).
  split; apply stack_ext; intros t Ht; unfold filtered_mu, filtered_sigma;
    now rewrite filtered_with_data.
Qed.

Lemma smoothed_stacks_with_data :
  stack [n i'] (T i') (smoothed_mu i') = stack [n i] (T i) (smoothed_mu i)
  /\ stack [n i'; n i'] (T i') (smoothed_sigma i')
     = stack [n i; n i] (T i) (smoothed_sigma i).
Proof.
  change (T i') with (T i). change (n i') with (n i).
  split; apply stack_ext; intros t Ht; unfold smoothed_mu, smoothed_sigma;
    change (T i') with (T i); rewrite smoothed_back_with_data by lia; reflexivity.
Qed.

Lemma cross_moments_with_data :
  stack [n i'; n i'] (T i' - 1) (cross_moment i')
  = stack [n i; n i] (T i - 1) (cross_moment i).
Proof.
  change (T i') with (T i). change (n i') with (n i).
  apply stack_ext. intros t Ht. unfold cross_moment, gain, smoothed_mu, smoothed_sigma.
  change (T i') with (T i). change (n i') with (n i).
  rewrite !smoothed_back_with_data by lia.
  unfold filtered_sigma, predicted_sigma.
  rewrite filtered_with_data by lia. rewrite predicted_with_data by lia.
  reflexivity.
Qed.

End MoreRows.

Section Claims2.

Context {F : Type} {SF : Scalar F}.

Lemma chunk_more_rows (i : @inputs F) k extra t :
  valid i -> t < T i ->
  chunk (mkarr [T i + k; p i] (elems (in_data i) ++ extra)) t = chunk (in_data i) t.
Proof.
  intros (_ & _ & _ & _ & _ & _ & [Hs Hl] & _) Ht.
  unfold chunk, stride0. rewrite Hs. simpl shape. simpl tl. simpl elems.
  simpl size in *. rewrite Nat.mul_1_r in *.
  pose proof (@row_bound t (T i) (p i) Ht) as Hb.
  rewrite skipn_app, firstn_app, length_skipn.
  replace (t * p i - length (elems (in_data i))) with 0 by lia.
  replace (p i - (length (elems (in_data i)) - t * p i)) with 0 by lia.
  simpl. apply app_nil_r.
Qed.

Lemma admissible_more_rows (i : @inputs F) k extra :
  valid i -> length extra = k * p i -> admissible (more_rows i k extra).
Proof.
  intros (H1 & H2 & H3 & H4 & H5 & H6 & [Hs Hl] & H8) Hx.
  unfold admissible, more_rows, with_data. simpl.
  change (T (mkinputs _ _ _ _ (in_C i) _ _)) with (T i).
  change (p (mkinputs _ _ _ _ (in_C i) _ _)) with (p i).
  change (n (mkinputs _ _ _ _ (in_C i) _ _)) with (n i).
  repeat (split; [assumption|]). split; [|exact H8].
  exists (T i + k). split; [lia|]. split; [reflexivity|].
  simpl in *. rewrite length_app, Hl, Hx. lia.
Qed.

(** C2, as the code has it.  The routines take T, p and n from [C] and
    compare them with nothing: rows of observations beyond the first [T]
    are accepted and ignored, and [kalman_filter], [rts_smoother] and
    [E_step] return what they return without them. *)
Theorem extra_observations_are_ignored (g : @mem F) (i : @inputs F) k extra :
  valid i -> length extra = k * p i ->
  kalman_filter g (more_rows i k extra) = kalman_filter g i
  /\ rts_smoother g (more_rows i k extra) = rts_smoother g i
  /\ E_step g (more_rows i k extra) = E_step g i.
Proof.
  intros Hv Hx.
  pose proof (admissible_more_rows k extra Hv Hx) as Ha'.
  pose proof (valid_admissible Hv) as Ha.
  assert (Hd : forall t, t < T i ->
               chunk (mkarr [T i + k; p i] (elems (in_data i) ++ extra)) t
               = chunk (in_data i) t)
    by (intros t Ht; now apply chunk_more_rows).
  unfold more_rows in *.
  destruct (filtered_stacks_with_data i _ Hd) as [Ef1 Ef2].
  destruct (smoothed_stacks_with_data i _ Hd) as [Es1 Es2].
  pose proof (cross_moments_with_data i _ Hd) as Ex.
  pose proof (total_ll_with_data i _ Hd) as El.
  cbv zeta in *.
  split; [|split].
  - rewrite (kalman_filter_value Ha'), (kalman_filter_value Ha), Ef1, Ef2, El.
    reflexivity.
  - rewrite (rts_smoother_value Ha'), (rts_smoother_value Ha), Es1, Es2, El.
    reflexivity.
  - destruct (Nat.eq_dec (T i) 0) as [E0 | E0].
    + unfold E_step.
      change (T (with_data i (mkarr [T i + k; p i] (elems (in_data i) ++ extra))))
        with (T i).
      rewrite E0. reflexivity.
    + rewrite (E_step_value Ha'), (E_step_value Ha), Es1, Es2, Ex, El
        by (change (T (with_data i (mkarr [T i + k; p i] (elems (in_data i) ++ extra))))
              with (T i); lia).
      reflexivity.
Qed.

(** C1, as the code has it.  No routine reads the status that a
    factorization hands back: on every valid input of at least one step the
    four routines return, and what they return is the recursion on values
    in which the matrix that [dpotrf] leaves is used as it is. *)
Theorem factorization_status_is_not_read (g1 g2 g3 g4 : @mem F) (randn : nat -> F)
    (i : @inputs F) :
  valid i -> 1 <= T i ->
  kalman_filter g1 i
  = Ok (total_ll i, stack [n i] (T i) (filtered_mu i),
        stack [n i; n i] (T i) (filtered_sigma i))
  /\ rts_smoother g2 i
     = Ok (total_ll i, stack [n i] (T i) (smoothed_mu i),
           stack [n i; n i] (T i) (smoothed_sigma i))
  /\ E_step g3 i
     = Ok (total_ll i, stack [n i] (T i) (smoothed_mu i),
           stack [n i; n i] (T i) (smoothed_sigma i),
           stack [n i; n i] (T i - 1) (cross_moment i))
  /\ exists draws, filter_and_sample g4 i randn = Ok (total_ll i, draws).
Proof.
  intros Hv HT. apply valid_admissible in Hv.
  split; [|split; [|split]].
  - apply (kalman_filter_value Hv).
  - apply (rts_smoother_value Hv).
  - apply (E_step_value Hv). lia.
  - apply (filter_and_sample_value Hv). lia.
Qed.

End Claims2.

(** ** The second moments of [E_step] *)

Section Moments.

Context {F : Type} {SF : Scalar F}.

Lemma fsum_ext k (f f' : nat -> F) :
  (forall l, l < k -> f l = f' l) -> fsum k f = fsum k f'.
Proof.
  intros H. unfold fsum. generalize (@f0 F SF).
  assert (Hin : forall l, In l (seq 0 k) -> f l = f' l)
    by (intros l Hl; apply in_seq in Hl; apply H; lia).
  induction (seq 0 k) as [|a l IH]; intros acc; simpl.
  - reflexivity.
  - rewrite (Hin a) by now left. apply IH. intros x Hx. apply Hin. now right.
Qed.

Lemma at1_map_seq (f : nat -> F) len k : k < len -> at1 (map f (seq 0 len)) k = f k.
Proof.
  intros H. unfold at1. rewrite (nth_indep _ f0 (f 0)) by now rewrite length_map, length_seq.
  rewrite (map_nth f), seq_nth by exact H. reflexivity.
Qed.

(** Entry [(r, c)], in row-major order, of what [set_dynamics_stats]
    leaves in [ExxnT]. *)
Lemma set_dynamics_stats_v_entry (mk mkn Pkns GkT : list F) n r c :
  r < n -> c < n ->
  at1 (set_dynamics_stats_v mk mkn Pkns GkT n) (r * n + c)
  = fadd (fmul one (fsum n (fun l => fmul (at2 GkT n l c) (at1 Pkns (r * n + l)))))
         (fmul (at1 mk c) (fmul one (at1 mkn r))).
Proof.
  intros Hr Hc. unfold set_dynamics_stats_v, dger_v, dgemm_v.
  assert (Hidx : r * n + c < n * n) by nia.
  assert (Hmod : (r * n + c) mod n = c)
    by (rewrite Nat.add_comm, Nat.Div0.mod_add; now apply Nat.mod_small).
  assert (Hdiv : (r * n + c) / n = r)
    by (rewrite Nat.add_comm, Nat.div_add by lia; rewrite Nat.div_small by lia; lia).
  rewrite at1_map_seq by exact Hidx. cbv zeta. rewrite Hmod, Hdiv.
  replace (c <? n) with true by (symmetry; now apply Nat.ltb_lt).
  rewrite at1_map_seq by exact Hidx. cbv zeta. rewrite Hmod, Hdiv.
  replace (c <? n) with true by (symmetry; now apply Nat.ltb_lt).
  unfold zero. rewrite feqb_0_0. rewrite !Nat.mul_1_r. f_equal. f_equal.
  apply fsum_ext. intros l Hl. unfold opat, at2, at1. f_equal. f_equal. lia.
Qed.

Lemma length_cross_moment (i : @inputs F) t : length (cross_moment i t) = size [n i; n i].
Proof.
  unfold cross_moment, set_dynamics_stats_v. autorewrite with len. simpl. lia.
Qed.

(** X15.  What [E_step] returns as second moments: T-1 matrices of n x n
    entries, and entry (r, c), in row-major order, of the one at [t] is
    [sum_l Sigma_smoothed,t+1(r,l) K_t(l,c) + mu_smoothed,t+1(r) mu_smoothed,t(c)],
    where the smoothed means and covariances are the rows of the arrays
    returned and [K_t(l,c)] is entry (l, c) of the column-major matrix that
    [rts_backward_step] leaves in [temp_nn] at step [t] (the result of its
    [dpotrf]/[dpotrs] solve): [set_dynamics_stats] forms
    [K_t^T Sigma_smoothed,t+1 + mu_t mu_t+1^T] in column-major order, and the
    array returned, which is row-major, holds the transpose of that. *)
Theorem E_step_second_moments (g : @mem F) (i : @inputs F) :
  valid i -> 1 <= T i ->
  exists ll sm ss ex,
    E_step g i = Ok (ll, sm, ss, ex)
    /\ shape ex = [T i - 1; n i; n i]
    /\ forall t r c, t + 1 < T i -> r < n i -> c < n i ->
         at1 (chunk ex t) (r * n i + c)
         = fadd (fmul one
                      (fsum (n i) (fun l => fmul (at2 (gain i t) (n i) l c)
                                                 (at1 (chunk ss (t + 1)) (r * n i + l)))))
                (fmul (at1 (chunk sm t) c) (fmul one (at1 (chunk sm (t + 1)) r))).
Proof.
  intros Hv HT. apply valid_admissible in Hv.
  exists (total_ll i), (stack [n i] (T i) (smoothed_mu i)),
         (stack [n i; n i] (T i) (smoothed_sigma i)),
         (stack [n i; n i] (T i - 1) (cross_moment i)).
  split; [apply (E_step_value Hv); lia|]. split; [reflexivity|].
  intros t r c Ht Hr Hc.
  rewrite !chunk_stack; try lia;
    try (intros k _;
         first [ apply (rows_smoothed_mu Hv) | apply (rows_smoothed_sigma Hv)
               | apply length_cross_moment ]).
  unfold cross_moment at 1. now apply set_dynamics_stats_v_entry.
Qed.

End Moments.

(** ** The second moment, as announced and as the specification words it *)

Section Worded.

Context {F : Type} {SF : Scalar F}.

(** Matrices as lists of rows. *)
Definition entry_of (M : list (list F)) (r c : nat) : F := nth c (nth r M []) f0.

Definition rows_of (n : nat) (flat : list F) : list (list F) :=
  map (fun r => firstn n (skipn (r * n) flat)) (seq 0 n).

Definition mat_build (n : nat) (f : nat -> nat -> F) : list (list F) :=
  map (fun r => map (fun c => f r c) (seq 0 n)) (seq 0 n).

Definition mat_mul (n : nat) (A B : list (list F)) : list (list F) :=
  mat_build n (fun r c => fsum n (fun l => fmul (entry_of A r l) (entry_of B l c))).

Definition mat_transpose (n : nat) (A : list (list F)) : list (list F) :=
  mat_build n (fun r c => entry_of A c r).

Definition mat_add (n : nat) (A B : list (list F)) : list (list F) :=
  mat_build n (fun r c => fadd (entry_of A r c) (entry_of B r c)).

Definition outer (n : nat) (u v : list F) : list (list F) :=
  mat_build n (fun r c => fmul (at1 u r) (at1 v c)).

(** [E[x_t x_{t+1}^T]] under the smoothing posterior, which the comment of
    the backward loop of [E_step] announces: the smoothed cross-covariance
    [G Sigma_smoothed,t+1] plus [mu_smoothed,t mu_smoothed,t+1^T]. *)
Definition announced_second_moment (n : nat) (G Sigma_next : list (list F))
    (mu mu_next : list F) : list (list F) :=
  mat_add n (mat_mul n G Sigma_next) (outer n mu mu_next).

(** [G^T Sigma_smoothed,t+1 + mu_smoothed,t mu_smoothed,t+1^T] *)
Definition worded_second_moment (n : nat) (G Sigma_next : list (list F))
    (mu mu_next : list F) : list (list F) :=
  mat_add n (mat_mul n (mat_transpose n G) Sigma_next) (outer n mu mu_next).

End Worded.

Module Runs.

Import Double.
Local Open Scope float_scope.

(** A prior and an observation noise of variance zero: the innovation
    covariance is the 1 x 1 matrix 0, which has no Cholesky factor. *)
Definition degenerate : @inputs float :=
  mkinputs (mkarr [1%nat] [0]) (mkarr [1%nat; 1%nat] [0])
           (mkarr [1%nat; 1%nat; 1%nat] [1]) (mkarr [1%nat; 1%nat; 1%nat] [1])
           (mkarr [1%nat; 1%nat; 1%nat] [1]) (mkarr [1%nat; 1%nat; 1%nat] [0])
           (mkarr [1%nat; 1%nat] [3]).

(** Two rows of observations for a model of one step. *)
Definition two_rows : @inputs float := more_rows (one_step 3) 1 [5].

(** Two steps in two dimensions, both observations missing:
    mu_0 = (1, 2), Sigma_0 = I, A = [[1, 1], [0, 1]], Q = [[2, 1], [1, 4]]. *)
Definition two_steps : @inputs float :=
  mkinputs (mkarr [2%nat] [1; 2]) (mkarr [2%nat; 2%nat] [1; 0; 0; 1])
           (mkarr [2%nat; 2%nat; 2%nat] [1; 1; 0; 1; 1; 1; 0; 1])
           (mkarr [2%nat; 2%nat; 2%nat] [2; 1; 1; 4; 2; 1; 1; 4])
           (mkarr [2%nat; 1%nat; 2%nat] [1; 0; 1; 0])
           (mkarr [2%nat; 1%nat; 1%nat] [1; 1])
           (mkarr [2%nat; 1%nat] [nan; nan]).

(** The smoothing gain of [two_steps] at [t = 0]. *)
Definition two_steps_gain : list (list float) := [[0.3125; -0.125]; [0.1875; 0.125]].

End Runs.

(** C1 fails on the code: the factorization of the innovation covariance
    of [degenerate] reports that its first pivot is not positive, the three
    triangular solves report a singular factor, and [kalman_filter] returns
    all the same, with an infinite log-likelihood. *)
Lemma failed_factorization_is_not_raised :
  infos (snd (kalman_filter_run Double.junk Runs.degenerate))
  = [(DPOTRF, 1); (DTRTRS, 1); (DTRTRS, 1); (DTRTRS, 1)]
  /\ kalman_filter Double.junk Runs.degenerate
     = Ok (infinity, mkarr [1; 1] [0%float], mkarr [1; 1; 1] [0%float]).
Proof. vm_compute. split; reflexivity. Qed.

(** C2 fails on the code: [y] has two rows where [C] has one, and
    [kalman_filter] returns what it returns on the first row. *)
Lemma dimension_mismatch_is_not_detected :
  dim (in_data Runs.two_rows) 0 = 2
  /\ dim (in_C Runs.two_rows) 0 = 1
  /\ kalman_filter Double.junk Runs.two_rows = kalman_filter Double.junk (Double.one_step 3)
  /\ exists r, kalman_filter Double.junk Runs.two_rows = Ok r.
Proof.
  vm_compute. repeat split. eexists. reflexivity.
Qed.

(** C7 fails on the code, by a slip of layout.  On [two_steps] the gain is
    G = Sigma_filtered,0 A^T Sigma_predicted,1^-1 = [[0.3125, -0.125],
    [0.1875, 0.125]] (G Sigma_predicted,1 = Sigma_filtered,0 A^T), and with
    the smoothed means and covariances that [E_step] returns
    E[x_0 x_1^T] = G Sigma_smoothed,1 + mu_0 mu_1^T = [[4, 2], [7, 5]].
    [E_step] returns [[4, 7], [2, 5]]: [set_dynamics_stats] computes
    E[x_0 x_1^T] in column-major order into an array that is returned as
    row-major, hence its transpose.  The formula of the claim,
    G^T Sigma_smoothed,1 + mu_0 mu_1^T, is [[4.625, 3.5625], [5.75, 4.375]];
    the array returned is neither. *)
Theorem second_moment_is_returned_transposed :
  E_step Double.junk Runs.two_steps
  = Ok (0%float, mkarr [2; 2] [1; 2; 3; 2]%float,
        mkarr [2; 2; 2] [1; 0; 0; 1; 4; 2; 2; 5]%float,
        mkarr [1; 2; 2] [4; 7; 2; 5]%float)
  /\ mat_mul 2 Runs.two_steps_gain [[4; 2]; [2; 5]]%float
     = mat_mul 2 [[1; 0]; [0; 1]]%float (mat_transpose 2 [[1; 1]; [0; 1]]%float)
  /\ announced_second_moment 2 Runs.two_steps_gain [[4; 2]; [2; 5]]%float
                             [1; 2]%float [3; 2]%float
     = [[4; 2]; [7; 5]]%float
  /\ rows_of 2 [4; 7; 2; 5]%float = mat_transpose 2 [[4; 2]; [7; 5]]%float
  /\ feqb (entry_of (rows_of 2 [4; 7; 2; 5]%float) 0 1) 2%float = false
  /\ worded_second_moment 2 Runs.two_steps_gain [[4; 2]; [2; 5]]%float
                          [1; 2]%float [3; 2]%float
     = [[4.625; 3.5625]; [5.75; 4.375]]%float
  /\ feqb (entry_of (rows_of 2 [4; 7; 2; 5]%float) 0 1) 3.5625%float = false.
Proof. vm_compute. repeat split; reflexivity. Qed.

Lemma factorization_status_is_not_read_holds :
  let i := Runs.degenerate in
  valid i /\ 1 <= T i
  /\ kalman_filter Double.junk i
     = Ok (total_ll i, stack [n i] (T i) (filtered_mu i),
           stack [n i; n i] (T i) (filtered_sigma i)).
Proof.
  cbv zeta.
  assert (Hv : valid Runs.degenerate) by valid_by_shape.
  assert (HT : 1 <= T Runs.degenerate) by (vm_compute; lia).
  split; [exact Hv|]. split; [exact HT|].
  exact (proj1 (@factorization_status_is_not_read float Double.scalar Double.junk
                  Double.junk Double.junk Double.junk (fun _ => 0%float)
                  Runs.degenerate Hv HT)).
Defined.

Lemma extra_observations_are_ignored_holds :
  let i := Double.one_step 3 in
  valid i /\ length [5%float] = 1 * p i
  /\ kalman_filter Double.junk (more_rows i 1 [5%float]) = kalman_filter Double.junk i.
Proof.
  cbv zeta.
  assert (Hv : valid (Double.one_step 3)) by valid_by_shape.
  assert (Hx : length [5%float] = 1 * p (Double.one_step 3)) by reflexivity.
  split; [exact Hv|]. split; [exact Hx|].
  exact (proj1 (@extra_observations_are_ignored float Double.scalar Double.junk
                  (Double.one_step 3) 1 [5%float] Hv Hx)).
Defined.

Lemma E_step_second_moments_holds :
  let i := Runs.two_steps in
  valid i /\ 1 <= T i
  /\ exists ll sm ss ex,
       E_step Double.junk i = Ok (ll, sm, ss, ex)
       /\ shape ex = [T i - 1; n i; n i].
Proof.
  cbv zeta.
  assert (Hv : valid Runs.two_steps) by valid_by_shape.
  assert (HT : 1 <= T Runs.two_steps) by (vm_compute; lia).
  split; [exact Hv|]. split; [exact HT|].
  destruct (@E_step_second_moments float Double.scalar Double.junk Runs.two_steps Hv HT)
    as (ll & sm & ss & ex & H1 & H2 & _).
  exists ll, sm, ss, ex. split; assumption.
Defined.

(** * Further properties of the code *)

(** ** What the primitives write *)

Ltac frame_by_stores :=
  repeat (heap_step;
          eapply same_outside_trans;
          [|apply same_outside_store; simpl; autorewrite with len; auto 8]);
  apply same_outside_refl.

Section Frames.

Context {F : Type} {SF : Scalar F}.

Lemma condition_on_frame mu_x sigma_x C sigma_obs y mu_cond sigma_cond
    temp_p temp_pn temp_pp p n (s : @machine F) :
  same_outside [(mu_cond, n); (sigma_cond, n * n); (temp_p, p); (temp_pn, p * n);
                (temp_pp, p * p)]
               (heap s)
               (heap (snd (condition_on mu_x sigma_x C sigma_obs y mu_cond sigma_cond
                                        temp_p temp_pn temp_pp p n s))).
Proof.
  unfold condition_on. cbv zeta.
  destruct (negb (feqb (rd s y 0) (rd s y 0))); simpl snd.
  - frame_by_stores.
  - destruct (negb (ptr_eqb mu_x mu_cond)); destruct (negb (ptr_eqb sigma_x sigma_cond));
      frame_by_stores.
Qed.

Lemma predict_frame mu sigma A sigma_states mu_predict sigma_predict temp_nn n
    (s : @machine F) :
  same_outside [(mu_predict, n); (sigma_predict, n * n); (temp_nn, n * n)]
               (heap s)
               (heap (predict mu sigma A sigma_states mu_predict sigma_predict temp_nn n s)).
Proof. unfold predict. cbv zeta. frame_by_stores. Qed.

Lemma sample_gaussian_frame mu sigma randvec n (s : @machine F) :
  same_outside [(sigma, n * n); (randvec, n)] (heap s)
               (heap (sample_gaussian mu sigma randvec n s)).
Proof. unfold sample_gaussian. cbv zeta. frame_by_stores. Qed.

Lemma rts_backward_step_frame A sigma_states filtered_mu filtered_sigma
    next_predict_mu next_predict_sigma next_smoothed_mu next_smoothed_sigma
    temp_nn temp_nn2 n (s : @machine F) :
  same_outside [(filtered_mu, n); (filtered_sigma, n * n); (next_predict_mu, n);
                (next_predict_sigma, n * n); (temp_nn, n * n); (temp_nn2, n * n)]
               (heap s)
               (heap (rts_backward_step A sigma_states filtered_mu filtered_sigma
                        next_predict_mu next_predict_sigma next_smoothed_mu
                        next_smoothed_sigma temp_nn temp_nn2 n s)).
Proof. unfold rts_backward_step. cbv zeta. frame_by_stores. Qed.

Lemma set_dynamics_stats_frame mk mkn Pkns GkT ExxnT n (s : @machine F) :
  same_outside [(ExxnT, n * n)] (heap s)
               (heap (set_dynamics_stats mk mkn Pkns GkT ExxnT n s)).
Proof. unfold set_dynamics_stats. cbv zeta. frame_by_stores. Qed.

(** X1.  Each primitive writes to its output operands and to its temporaries,
    and to no other cell, however its operands overlap. *)
Theorem primitives_write_only_their_outputs
    (mu_x sigma_x C sigma_obs y mu_cond sigma_cond temp_p temp_pn temp_pp
     mu sigma A sigma_states mu_predict sigma_predict temp_nn
     randvec filtered_mu filtered_sigma next_predict_mu next_predict_sigma
     next_smoothed_mu next_smoothed_sigma temp_nn2 mk mkn Pkns GkT ExxnT : ptr)
    (p n : nat) (s : @machine F) :
  same_outside [(mu_cond, n); (sigma_cond, n * n); (temp_p, p); (temp_pn, p * n);
                (temp_pp, p * p)]
               (heap s)
               (heap (snd (condition_on mu_x sigma_x C sigma_obs y mu_cond sigma_cond
                                        temp_p temp_pn temp_pp p n s)))
  /\ same_outside [(mu_predict, n); (sigma_predict, n * n); (temp_nn, n * n)]
                  (heap s)
                  (heap (predict mu sigma A sigma_states mu_predict sigma_predict
                                 temp_nn n s))
  /\ same_outside [(sigma, n * n); (randvec, n)] (heap s)
                  (heap (sample_gaussian mu sigma randvec n s))
  /\ same_outside [(filtered_mu, n); (filtered_sigma, n * n); (next_predict_mu, n);
                   (next_predict_sigma, n * n); (temp_nn, n * n); (temp_nn2, n * n)]
                  (heap s)
                  (heap (rts_backward_step A sigma_states filtered_mu filtered_sigma
                           next_predict_mu next_predict_sigma next_smoothed_mu
                           next_smoothed_sigma temp_nn temp_nn2 n s))
  /\ same_outside [(ExxnT, n * n)] (heap s)
                  (heap (set_dynamics_stats mk mkn Pkns GkT ExxnT n s)).
Proof.
  split; [apply condition_on_frame|].
  split; [apply predict_frame|].
  split; [apply sample_gaussian_frame|].
  split; [apply rts_backward_step_frame|].
  apply set_dynamics_stats_frame.
Qed.

End Frames.

(** ** [sample_gaussian] and the backward pass of [filter_and_sample] *)

Section SampleGaussian.

Context {F : Type} {SF : Scalar F}.

(** [sample_gaussian] leaves the draw in [randvec] and the Cholesky factor
    (or what a failed factorization leaves) in [sigma]. *)
Lemma sample_gaussian_spec mu sigma randvec n (s : @machine F) :
  sep sigma (n * n) mu n -> sep sigma (n * n) randvec n -> sep randvec n mu n ->
  let s' := sample_gaussian mu sigma randvec n s in
  load (heap s') randvec n
  = sample_gaussian_v (load (heap s) mu n) (load (heap s) sigma (n * n))
                      (load (heap s) randvec n) n
  /\ load (heap s') sigma (n * n) = fst (dpotrf_v n (load (heap s) sigma (n * n)) n).
Proof.
  intros H1 H2 H3 s'. subst s'. unfold sample_gaussian. cbv zeta. split.
  - unfold sample_gaussian_v. run. settle.
  - run. settle.
Qed.

Variable i : @inputs F.
Variable randn : nat -> F.

(** Row [t] of [np.random.randn(T, n)]. *)
Definition noise (t : nat) : list F := map randn (seq (t * n i) (n i)).

(** The draw of [x_(T-1-k)], by the backward recursion of
    [filter_and_sample]: the filtered belief is conditioned on the draw of
    the next state through the dynamics, and sampled from. *)
Fixpoint draw_back (k : nat) : list F :=
  match k with
  | 0 => sample_gaussian_v (filtered_mu i (T i - 1)) (filtered_sigma i (T i - 1))
                           (noise (T i - 1)) (n i)
  | S k' =>
      let t := T i - 1 - k in
      let '(_, mu, sigma) :=
        condition_on_v (filtered_mu i t) (filtered_sigma i t)
                       (chunk (in_A i) t) (chunk (in_sigma_states i) t)
                       (draw_back k') (n i) (n i) in
      sample_gaussian_v mu sigma (noise t) (n i)
  end.

Definition draw (t : nat) : list F := draw_back (T i - 1 - t).

End SampleGaussian.

Section SamplerBackward.

Context {F : Type} {SF : Scalar F}.

Variable i : @inputs F.
Variable randn : nat -> F.
Hypothesis Hv : admissible i.
Hypothesis Hn : 0 < n i.

Lemma same_outside_buffer ws (m m' : @mem F) b :
  same_outside ws m m' -> (forall w, In w ws -> pbuf (fst w) <> b) ->
  forall k, m' b k = m b k.
Proof.
  intros H Hw k. apply H. intros w Hin [Hb _]. apply (Hw w Hin). now symmetry.
Qed.

(** The forward loop does not touch the array of draws. *)
Lemma filter_step_randseq acc t k :
  heap (snd (filter_step i acc t)) b_randseq k = heap (snd acc) b_randseq k.
Proof.
  destruct acc as [ll s]. unfold filter_step.
  match goal with |- context [condition_on ?a ?b ?c ?d ?e ?f ?g ?h ?j ?l ?pp ?nn s] =>
    pose proof (@condition_on_frame F SF a b c d e f g h j l pp nn s) as Hc
  end.
  destruct (condition_on _ _ _ _ _ _ _ _ _ _ _ _ s) as [l s1]. simpl in Hc. simpl snd.
  rewrite (same_outside_buffer (@predict_frame F SF _ _ _ _ _ _ _ _ s1))
    by (fresh_regions).
  apply (same_outside_buffer Hc). fresh_regions.
Qed.

Lemma filter_loop_randseq l acc k :
  heap (snd (fold_left (filter_step i) l acc)) b_randseq k = heap (snd acc) b_randseq k.
Proof.
  revert acc. induction l as [|t l IH]; intros acc; simpl.
  - reflexivity.
  - rewrite IH. apply filter_step_randseq.
Qed.

Lemma load_noise (h : @mem F) t :
  t < T i ->
  (forall k, k < T i * n i -> h b_randseq k = randn k) ->
  load h (slice b_randseq (n i) t) (n i) = noise i randn t.
Proof.
  intros Ht Hh. unfold noise. rewrite map_seq_shift. unfold load. simpl.
  apply map_ext_in. intros k Hk. apply in_seq in Hk.
  pose proof (@row_bound t (T i) (n i) Ht) as Hb. apply Hh. lia.
Qed.

Lemma stored_noise (h : @mem F) k :
  k < T i * n i ->
  store (whole b_randseq) (map randn (seq 0 (T i * n i))) h b_randseq k = randn k.
Proof.
  intros Hk.
  pose proof (@store_inside F SF (whole b_randseq) (map randn (seq 0 (T i * n i))) h k)
    as Hs.
  simpl in Hs. rewrite Hs by (rewrite length_map, length_seq; lia).
  rewrite (nth_indep _ f0 (randn 0)) by (rewrite length_map, length_seq; lia).
  rewrite (map_nth randn), seq_nth by lia. reflexivity.
Qed.

Lemma draw_last :
  draw i randn (T i - 1)
  = sample_gaussian_v (filtered_mu i (T i - 1)) (filtered_sigma i (T i - 1))
                      (noise i randn (T i - 1)) (n i).
Proof. unfold draw. rewrite Nat.sub_diag. reflexivity. Qed.

Lemma draw_step m :
  m + 1 < T i ->
  draw i randn m
  = (let '(_, mu, sigma) :=
       condition_on_v (filtered_mu i m) (filtered_sigma i m)
                      (chunk (in_A i) m) (chunk (in_sigma_states i) m)
                      (draw i randn (m + 1)) (n i) (n i) in
     sample_gaussian_v mu sigma (noise i randn m) (n i)).
Proof.
  intros Hm. unfold draw.
  replace (T i - 1 - m) with (S (T i - 1 - (m + 1))) by lia.
  simpl draw_back.
  replace (T i - 1 - S (T i - 1 - (m + 1))) with m by lia. reflexivity.
Qed.

(** In the backward loop of [filter_and_sample], when the steps [t >= m]
    are done: the rows from [m] on hold draws, the rows before [m] still hold
    the noise, and the beliefs before [m] are still the filtered ones. *)
Definition sample_inv (m : nat) (h : @mem F) : Prop :=
  (forall t, t < T i -> m <= t ->
     load h (slice b_randseq (n i) t) (n i) = draw i randn t)
  /\ (forall t, t < m ->
        load h (slice b_randseq (n i) t) (n i) = noise i randn t
        /\ load h (slice b_filtered_mus (n i) t) (n i) = filtered_mu i t
        /\ load h (slice b_filtered_sigmas (n i * n i) t) (n i * n i)
           = filtered_sigma i t)
  /\ intact i h.

Lemma sample_step_inv m (s : @machine F) :
  m + 1 < T i -> sample_inv (S m) (heap s) -> sample_inv m (heap (sample_step i s m)).
Proof.
  intros Hm (Hd & Hf & Hin). unfold sample_step.
  rewrite (dim_A_1 Hv), (dim_A_2 Hv).
  match goal with |- context [condition_on ?a ?b ?c ?d ?e ?f ?g ?h ?j ?l ?pp ?nn s] =>
    pose proof (@condition_on_spec F SF a b c d e f g h j l pp nn s) as Hc
  end.
  destruct Hc as [Hc Hfr].
  { unfold cond_layout. simpl. repeat split;
      try (apply sep_buf; simpl; discriminate); left; reflexivity. }
  { exact Hn. }
  cbv zeta in Hc, Hfr.
  destruct (condition_on _ _ _ _ _ _ _ _ _ _ _ _ s) as [l s1]. simpl in Hc, Hfr.
  assert (Hm' : m < T i) by lia.
  destruct (Hf m (Nat.lt_succ_diag_r m)) as (Ez & Ef1 & Ef2).
  rewrite Ef1, Ef2, (load_A Hv Hin Hm'), (load_sigma_states Hv Hin Hm') in Hc.
  rewrite (Hd (m + 1)) in Hc by lia.
  assert (Hin1 : intact i (heap s1)).
  { eapply intact_same_outside; [exact Hfr| |exact Hin]. fresh_regions. }
  match goal with |- context [sample_gaussian ?a ?b ?c ?nn s1] =>
    pose proof (@sample_gaussian_spec F SF a b c nn s1) as Hs;
    pose proof (@sample_gaussian_frame F SF a b c nn s1) as Hsf
  end.
  destruct Hs as [Hs _]; try (apply sep_buf; simpl; discriminate).
  set (s2 := sample_gaussian _ _ _ _ s1) in *.
  assert (Ez1 : load (heap s1) (slice b_randseq (n i) m) (n i) = noise i randn m).
  { rewrite (same_outside_load Hfr) by apart. exact Ez. }
  rewrite Ez1 in Hs.
  unfold sample_inv. repeat split.
  - intros t Ht1 Ht2. destruct (Nat.eq_dec t m) as [-> | Hne].
    + rewrite Hs, (@draw_step m Hm).
      destruct (condition_on_v _ _ _ _ _ _ _) as [[l' mu'] sigma'].
      injection Hc as E1 E2 E3. subst. reflexivity.
    + rewrite (same_outside_load Hsf) by apart.
      rewrite (same_outside_load Hfr) by apart. apply Hd; lia.
  - rewrite (same_outside_load Hsf) by apart.
    rewrite (same_outside_load Hfr) by apart. apply Hf. lia.
  - rewrite (same_outside_load Hsf) by apart.
    rewrite (same_outside_load Hfr) by apart. apply Hf. lia.
  - rewrite (same_outside_load Hsf) by apart.
    rewrite (same_outside_load Hfr) by apart. apply Hf. lia.
  - eapply intact_same_outside; [exact Hsf| |exact Hin1]. fresh_regions.
Qed.

Lemma sample_loop m (s : @machine F) :
  m < T i -> sample_inv m (heap s) ->
  sample_inv 0 (heap (fold_left (sample_step i) (rev (seq 0 m)) s)).
Proof.
  revert s. induction m as [|m IH]; intros s Hm H.
  - exact H.
  - rewrite rev_seq_S. simpl. apply IH; [lia|].
    apply sample_step_inv; [lia|exact H].
Qed.

(** [filter_and_sample] returns the log-likelihood of the forward
    recursion and the draws of the backward recursion. *)
Lemma filter_and_sample_draws g :
  0 < T i ->
  filter_and_sample g i randn = Ok (total_ll i, stack [n i] (T i) (draw i randn)).
Proof.
  intros HT. unfold filter_and_sample.
  match goal with |- context [fold_left _ _ ?a] => set (acc0 := a) end.
  assert (H0 : filter_inv i 0 acc0).
  { subst acc0. apply filter_inv_randseq. apply (filter_entry Hv).
    apply intact_input_heap. }
  pose proof (filter_loop Hv H0 (le_n (T i))) as H.
  assert (Hz : forall k, k < T i * n i ->
                 heap (snd (fold_left (filter_step i) (seq 0 (T i)) acc0)) b_randseq k
                 = randn k).
  { intros k Hk. rewrite filter_loop_randseq. subst acc0. simpl snd.
    rewrite heap_upd_heap. now apply stored_noise. }
  destruct (fold_left _ _ acc0) as [ll s]. destruct H as (Hll & _ & _ & Hrows & Hin).
  simpl in Hll, Hrows, Hin, Hz. subst ll.
  unfold total_ll. destruct (T i) as [|T'] eqn:E; [lia|]. rewrite <- E in *.
  match goal with |- context [sample_gaussian ?a ?b ?c ?nn s] =>
    pose proof (@sample_gaussian_spec F SF a b c nn s) as Hs;
    pose proof (@sample_gaussian_frame F SF a b c nn s) as Hsf
  end.
  destruct Hs as [Hs _]; try (apply sep_buf; simpl; discriminate).
  set (s1 := sample_gaussian _ _ _ _ s) in *.
  assert (Hlast : T i - 1 < T i) by lia.
  destruct (Hrows _ Hlast) as [Ef1 Ef2].
  rewrite Ef1, Ef2, (@load_noise _ _ Hlast Hz), <- draw_last in Hs.
  assert (Hi : sample_inv (T i - 1) (heap s1)).
  { unfold sample_inv. repeat split.
    - intros t Ht1 Ht2. assert (t = T i - 1) by lia. subst t. exact Hs.
    - rewrite (same_outside_load Hsf) by apart. apply load_noise; [lia|exact Hz].
    - rewrite (same_outside_load Hsf) by apart. apply Hrows. lia.
    - rewrite (same_outside_load Hsf) by apart. apply Hrows. lia.
    - eapply intact_same_outside; [exact Hsf| |exact Hin]. fresh_regions. }
  unfold backwards.
  pose proof (@sample_loop (T i - 1) s1 Hlast Hi) as (Hd & _).
  f_equal. f_equal.
  apply stack_rows. intros t Ht. simpl size. rewrite Nat.mul_1_r. apply Hd; lia.
Qed.

End SamplerBackward.

Arguments ValueError {X}.
Arguments OutOfBounds {X}.

(** ** What the routines return, in terms of one another *)

Section Returns.

Context {F : Type} {SF : Scalar F}.

Lemma length_draw (i : @inputs F) randn t : length (draw i randn t) = size [n i].
Proof.
  unfold draw. destruct (T i - 1 - t) as [|k]; simpl.
  - unfold sample_gaussian_v. autorewrite with len. lia.
  - destruct (condition_on_v _ _ _ _ _ _ _) as [[l mu] sigma].
    unfold sample_gaussian_v. autorewrite with len. lia.
Qed.

Lemma predicted_succ (i : @inputs F) t :
  predicted_mu i (S t) = predict_mu_v (filtered_mu i t) (chunk (in_A i) t) (n i)
  /\ predicted_sigma i (S t)
     = predict_sigma_v (filtered_sigma i t) (chunk (in_A i) t)
                       (chunk (in_sigma_states i) t) (n i).
Proof.
  unfold predicted_mu, predicted_sigma, filtered_mu, filtered_sigma, filtered. simpl.
  destruct (update i (predicted i t) t) as [[l mu] sigma]. split; reflexivity.
Qed.

(** X2.  [filter_and_sample] draws backwards from the filtered beliefs: on a
    valid input with at least one step and one state dimension it returns,
    and its last row is [sample_gaussian] of the last belief that
    [kalman_filter] returns, and every earlier row is [sample_gaussian] of
    the belief at [t] conditioned, through [A[t]] and [sigma_states[t]], on
    the row drawn for [t+1]. *)
Theorem filter_and_sample_is_backward_sampling (g g' : @mem F) (randn : nat -> F)
    (i : @inputs F) :
  valid i -> 1 <= T i -> 0 < n i ->
  exists ll fm fs draws,
    kalman_filter g i = Ok (ll, fm, fs)
    /\ filter_and_sample g' i randn = Ok (ll, draws)
    /\ shape draws = [T i; n i]
    /\ chunk draws (T i - 1)
       = sample_gaussian_v (chunk fm (T i - 1)) (chunk fs (T i - 1))
                           (noise i randn (T i - 1)) (n i)
    /\ forall t, t + 1 < T i ->
         chunk draws t
         = (let '(_, mu, sigma) :=
              condition_on_v (chunk fm t) (chunk fs t) (chunk (in_A i) t)
                             (chunk (in_sigma_states i) t) (chunk draws (t + 1))
                             (n i) (n i) in
            sample_gaussian_v mu sigma (noise i randn t) (n i)).
Proof.
  intros Hv HT Hn. apply valid_admissible in Hv.
  exists (total_ll i), (stack [n i] (T i) (filtered_mu i)),
         (stack [n i; n i] (T i) (filtered_sigma i)),
         (stack [n i] (T i) (draw i randn)).
  split; [apply (kalman_filter_value Hv)|].
  split; [apply (filter_and_sample_draws randn Hv Hn); lia|].
  split; [reflexivity|].
  split.
  - rewrite !chunk_stack; try lia;
      try (intros k _;
           first [ apply (rows_filtered_mu Hv) | apply (rows_filtered_sigma Hv)
                 | apply length_draw ]).
    apply draw_last.
  - intros t Ht.
    rewrite !chunk_stack; try lia;
      try (intros k _;
           first [ apply (rows_filtered_mu Hv) | apply (rows_filtered_sigma Hv)
                 | apply length_draw ]).
    now apply draw_step.
Qed.

(** X3.  What [np.empty] hands out does not show in the results: two calls on
    the same valid input return the same, whatever the fresh buffers held. *)
Theorem results_do_not_depend_on_fresh_memory (g g' : @mem F) (randn : nat -> F)
    (i : @inputs F) :
  valid i -> 1 <= T i -> 0 < n i ->
  kalman_filter g i = kalman_filter g' i
  /\ rts_smoother g i = rts_smoother g' i
  /\ E_step g i = E_step g' i
  /\ filter_and_sample g i randn = filter_and_sample g' i randn.
Proof.
  intros Hv HT Hn. apply valid_admissible in Hv.
  split; [|split; [|split]].
  - now rewrite !(kalman_filter_value Hv).
  - now rewrite !(rts_smoother_value Hv).
  - now rewrite !(E_step_value Hv) by lia.
  - now rewrite !(filter_and_sample_draws randn Hv Hn) by lia.
Qed.

(** X4.  [E_step] is [rts_smoother] with the second moments added: the
    log-likelihood and the smoothed arrays are those of [rts_smoother]. *)
Theorem E_step_extends_rts_smoother (g g' : @mem F) (i : @inputs F) :
  valid i -> 1 <= T i ->
  exists ll sm ss ex,
    rts_smoother g i = Ok (ll, sm, ss) /\ E_step g' i = Ok (ll, sm, ss, ex).
Proof.
  intros Hv HT. apply valid_admissible in Hv.
  exists (total_ll i), (stack [n i] (T i) (smoothed_mu i)),
         (stack [n i; n i] (T i) (smoothed_sigma i)),
         (stack [n i; n i] (T i - 1) (cross_moment i)).
  split; [apply (rts_smoother_value Hv)|apply (E_step_value Hv); lia].
Qed.

(** X5.  The arrays of [rts_smoother] satisfy the backward recursion over the
    arrays of [kalman_filter]: the smoothed belief at [t] is
    [rts_backward_step] of the filtered belief at [t], of its own one-step
    prediction, and of the smoothed belief at [t+1]. *)
Theorem rts_smoother_is_backward_recursion (g g' : @mem F) (i : @inputs F) (t : nat) :
  valid i -> t + 1 < T i ->
  exists ll fm fs sm ss,
    kalman_filter g i = Ok (ll, fm, fs)
    /\ rts_smoother g' i = Ok (ll, sm, ss)
    /\ chunk sm t
       = rts_mu_v (chunk (in_A i) t) (chunk fm t) (chunk fs t)
                  (predict_mu_v (chunk fm t) (chunk (in_A i) t) (n i))
                  (predict_sigma_v (chunk fs t) (chunk (in_A i) t)
                                   (chunk (in_sigma_states i) t) (n i))
                  (chunk sm (t + 1)) (n i)
    /\ chunk ss t
       = rts_sigma_v (chunk (in_A i) t) (chunk fs t)
                     (predict_sigma_v (chunk fs t) (chunk (in_A i) t)
                                      (chunk (in_sigma_states i) t) (n i))
                     (chunk ss (t + 1)) (n i).
Proof.
  intros Hv Ht. apply valid_admissible in Hv.
  exists (total_ll i), (stack [n i] (T i) (filtered_mu i)),
         (stack [n i; n i] (T i) (filtered_sigma i)),
         (stack [n i] (T i) (smoothed_mu i)),
         (stack [n i; n i] (T i) (smoothed_sigma i)).
  split; [apply (kalman_filter_value Hv)|].
  split; [apply (rts_smoother_value Hv)|].
  rewrite !chunk_stack; try lia;
    try (intros k _;
         first [ apply (rows_filtered_mu Hv) | apply (rows_filtered_sigma Hv)
               | apply (rows_smoothed_mu Hv) | apply (rows_smoothed_sigma Hv) ]).
  destruct (predicted_succ i t) as [E1 E2].
  destruct (@smoothed_step F SF i t Ht) as [S1 S2].
  replace (t + 1) with (S t) in * by lia.
  rewrite <- E1, <- E2. split; assumption.
Qed.

End Returns.

(** ** The filter is causal *)

Section Causal.

Context {F : Type} {SF : Scalar F}.

(** Two inputs with the same dimensions, initial belief, and model and
    observations at the steps before [k]. *)
Definition agree_before (k : nat) (i i' : @inputs F) : Prop :=
  n i = n i' /\ p i = p i'
  /\ elems (in_mu_init i) = elems (in_mu_init i')
  /\ elems (in_sigma_init i) = elems (in_sigma_init i')
  /\ forall t, t < k ->
       chunk (in_A i) t = chunk (in_A i') t
       /\ chunk (in_sigma_states i) t = chunk (in_sigma_states i') t
       /\ chunk (in_C i) t = chunk (in_C i') t
       /\ chunk (in_sigma_obs i) t = chunk (in_sigma_obs i') t
       /\ chunk (in_data i) t = chunk (in_data i') t.

Lemma update_agree k (i i' : @inputs F) st t :
  agree_before k i i' -> t < k -> update i st t = update i' st t.
Proof.
  intros (Hn & Hp & _ & _ & Hc) Ht. destruct (Hc t Ht) as (_ & _ & E3 & E4 & E5).
  unfold update. destruct st as [[l mu] sigma]. now rewrite E3, E4, E5, Hn, Hp.
Qed.

Lemma predicted_agree k (i i' : @inputs F) t :
  agree_before k i i' -> t <= k -> predicted i t = predicted i' t.
Proof.
  intros Ha. induction t as [|t IH]; intros Ht.
  - destruct Ha as (_ & _ & E1 & E2 & _). simpl. now rewrite E1, E2.
  - simpl. rewrite IH by lia. rewrite (update_agree _ Ha) by lia.
    destruct Ha as (Hn & _ & _ & _ & Hc). destruct (Hc t) as (E1 & E2 & _); [lia|].
    now rewrite E1, E2, Hn.
Qed.

Lemma filtered_agree k (i i' : @inputs F) t :
  agree_before k i i' -> t < k -> filtered i t = filtered i' t.
Proof.
  intros Ha Ht. unfold filtered. rewrite (predicted_agree Ha) by lia.
  now apply (update_agree _ Ha).
Qed.

(** X6.  The filtered belief at [t] depends on the initial belief and on the
    model and observations up to [t] only: two valid inputs that agree up to
    [t] get the same row [t] from [kalman_filter], whatever comes later and
    however long their horizons. *)
Theorem kalman_filter_is_causal (g g' : @mem F) (i i' : @inputs F) (t : nat) :
  valid i -> valid i' -> agree_before (S t) i i' -> t < T i -> t < T i' ->
  exists ll fm fs ll' fm' fs',
    kalman_filter g i = Ok (ll, fm, fs)
    /\ kalman_filter g' i' = Ok (ll', fm', fs')
    /\ chunk fm t = chunk fm' t
    /\ chunk fs t = chunk fs' t.
Proof.
  intros Hv Hv' Ha Ht Ht'. apply valid_admissible in Hv, Hv'.
  exists (total_ll i), (stack [n i] (T i) (filtered_mu i)),
         (stack [n i; n i] (T i) (filtered_sigma i)).
  exists (total_ll i'), (stack [n i'] (T i') (filtered_mu i')),
         (stack [n i'; n i'] (T i') (filtered_sigma i')).
  split; [apply (kalman_filter_value Hv)|].
  split; [apply (kalman_filter_value Hv')|].
  rewrite !chunk_stack; try lia;
    try (intros k _;
         first [ apply (rows_filtered_mu Hv) | apply (rows_filtered_sigma Hv)
               | apply (rows_filtered_mu Hv') | apply (rows_filtered_sigma Hv') ]).
  unfold filtered_mu, filtered_sigma.
  rewrite (@filtered_agree (S t) i i' t Ha) by lia. split; reflexivity.
Qed.

(** X7.  [kalman_filter] leaves the arrays it is given as they were. *)
Theorem kalman_filter_leaves_its_arguments (g : @mem F) (i : @inputs F) b a k :
  valid i -> input_array i b = Some a -> k < length (elems a) ->
  heap (snd (kalman_filter_run g i)) b k = nth k (elems a) f0.
Proof.
  intros Hv Hb Hk. apply valid_admissible in Hv.
  unfold kalman_filter_run.
  pose proof (@filter_loop F SF i Hv (T i) _
                (@filter_entry F SF i Hv (entry g i) (@intact_input_heap F SF i g))
                (le_n _)) as (_ & _ & _ & _ & Hin).
  now apply (Hin b a).
Qed.

(** X8.  [rts_smoother] and [E_step] refuse an initial mean whose length is
    neither [n] nor 1: the assignment [mu_predicts[0] = mu_init] raises before
    anything is computed. *)
Theorem smoother_rejects_initial_mean (g : @mem F) (i : @inputs F) (m : nat) :
  shape (in_mu_init i) = [m] -> m <> n i -> m <> 1 ->
  rts_smoother g i = ValueError /\ E_step g i = ValueError.
Proof.
  intros Hs H1 H2.
  assert (E : smoother_forward g i = ValueError).
  { unfold smoother_forward, assign_slice. rewrite Hs. simpl.
    replace (m =? n i) with false by (symmetry; now apply Nat.eqb_neq).
    replace (m =? 1) with false by (symmetry; now apply Nat.eqb_neq).
    reflexivity. }
  unfold rts_smoother, E_step. rewrite E. split; [reflexivity|].
  destruct (T i); reflexivity.
Qed.

End Causal.

(** ** Entry by entry *)

Section Entries.

Context {F : Type} {SF : Scalar F}.

Lemma facc_ext k acc (f f' : nat -> F) :
  (forall l, l < k -> f l = f' l) -> facc k acc f = facc k acc f'.
Proof.
  intros H. unfold facc. revert acc.
  assert (Hin : forall l, In l (seq 0 k) -> f l = f' l)
    by (intros l Hl; apply in_seq in Hl; apply H; lia).
  induction (seq 0 k) as [|a l IH]; intros acc; simpl.
  - reflexivity.
  - rewrite (Hin a) by now left. apply IH. intros x Hx. apply Hin. now right.
Qed.

Lemma scale_beta_one (c : F) : scale_beta one c = c.
Proof. unfold scale_beta, one. now rewrite feqb_1_0, feqb_1_1. Qed.

Lemma scale_beta_zero (c : F) : scale_beta zero c = f0.
Proof. unfold scale_beta, zero. now rewrite feqb_0_0. Qed.

Lemma index_mod r c n : c < n -> (r * n + c) mod n = c.
Proof. intros H. rewrite Nat.add_comm, Nat.Div0.mod_add. now apply Nat.mod_small. Qed.

Lemma index_div r c n : c < n -> (r * n + c) / n = r.
Proof.
  intros H. rewrite Nat.add_comm, Nat.div_add by lia.
  rewrite Nat.div_small by lia. lia.
Qed.

Lemma predict_mu_v_entry (mu A : list F) n r :
  r < n ->
  at1 (predict_mu_v mu A n) r
  = fadd f0 (fmul one (fsum n (fun k => fmul (at1 A (r * n + k)) (at1 mu k)))).
Proof.
  intros Hr. unfold predict_mu_v, dgemv_v.
  rewrite at1_map_seq by lia. rewrite Nat.mod_1_r, Nat.div_1_r. simpl Nat.eqb. cbv iota.
  rewrite scale_beta_zero. f_equal. f_equal. apply fsum_ext. intros k Hk.
  unfold at2, at1. rewrite Nat.mul_1_r. f_equal. f_equal. lia.
Qed.

Lemma predict_sigma_v_entry (sigma A sigma_states : list F) n r c :
  r < n -> c < n ->
  at1 (predict_sigma_v sigma A sigma_states n) (r * n + c)
  = facc n (at1 sigma_states (r * n + c))
         (fun l => fmul (fmul one (at1 A (r * n + l)))
                        (fmul one (fsum n (fun m => fmul (at1 A (c * n + m))
                                                         (at1 sigma (l * n + m)))))).
Proof.
  intros Hr Hc. unfold predict_sigma_v. unfold dgemm_v at 1.
  assert (Hidx : r * n + c < n * n) by nia.
  rewrite at1_map_seq by exact Hidx. cbv zeta.
  rewrite index_mod, index_div by exact Hc.
  replace (c <? n) with true by (symmetry; now apply Nat.ltb_lt).
  rewrite scale_beta_one. apply facc_ext. intros l Hl.
  unfold opat. f_equal.
  - unfold at2, at1. do 2 f_equal. lia.
  - unfold at2 at 1. replace (c + l * n) with (l * n + c) by lia.
    unfold dgemm_v. assert (Hi2 : l * n + c < n * n) by nia.
    change (nth (l * n + c) ?x f0) with (at1 x (l * n + c)).
    rewrite at1_map_seq by exact Hi2. cbv zeta.
    rewrite index_mod, index_div by exact Hc.
    replace (c <? n) with true by (symmetry; now apply Nat.ltb_lt).
    unfold zero. rewrite feqb_0_0. f_equal. apply fsum_ext. intros m Hm.
    unfold opat, at2, at1. f_equal; f_equal; lia.
Qed.

(** X9.  [predict] computes [A mu] and [A Sigma A^T + Q], on row-major
    operands and without assuming any of them symmetric: entry [r] of
    [mu_predict] is [sum_k A(r,k) mu(k)], and entry [(r, c)] of
    [sigma_predict] is [Q(r,c) + sum_l A(r,l) (sum_m A(c,m) Sigma(l,m))]. *)
Theorem predict_computes_the_time_update
    (mu sigma A sigma_states mu_predict sigma_predict temp_nn : ptr) (n r c : nat)
    (s : @machine F) :
  predict_layout mu sigma A sigma_states mu_predict sigma_predict temp_nn n ->
  r < n -> c < n ->
  let s' := predict mu sigma A sigma_states mu_predict sigma_predict temp_nn n s in
  rd s' mu_predict r
  = fadd f0 (fmul one (fsum n (fun k => fmul (rd s A (r * n + k)) (rd s mu k))))
  /\ rd s' sigma_predict (r * n + c)
     = facc n (rd s sigma_states (r * n + c))
            (fun l => fmul (fmul one (rd s A (r * n + l)))
                           (fmul one (fsum n (fun m => fmul (rd s A (c * n + m))
                                                            (rd s sigma (l * n + m)))))).
Proof.
  intros L Hr Hc s'.
  destruct (predict_spec s L) as (H1 & H2 & _). fold s' in H1, H2.
  assert (Hidx : r * n + c < n * n) by nia.
  split.
  - rewrite (@rd_load F SF s' mu_predict n r Hr), H1, predict_mu_v_entry by exact Hr.
    f_equal. f_equal. apply fsum_ext. intros k Hk.
    rewrite (@rd_load F SF s A (n * n) (r * n + k)) by nia.
    rewrite (@rd_load F SF s mu n k Hk). reflexivity.
  - rewrite (@rd_load F SF s' sigma_predict (n * n) (r * n + c) Hidx), H2,
      predict_sigma_v_entry by assumption.
    rewrite (@rd_load F SF s sigma_states (n * n) (r * n + c) Hidx).
    apply facc_ext. intros l Hl.
    rewrite (@rd_load F SF s A (n * n) (r * n + l)) by nia. f_equal. f_equal.
    apply fsum_ext. intros m Hm.
    rewrite (@rd_load F SF s A (n * n) (c * n + m)) by nia.
    rewrite (@rd_load F SF s sigma (n * n) (l * n + m)) by nia. reflexivity.
Qed.

End Entries.

(** ** [rts_backward_step] on exit *)

Section RtsExit.

Context {F : Type} {SF : Scalar F}.

Lemma daxpy_v_entry n0 alpha (x y : list F) k :
  k < n0 -> at1 (daxpy_v n0 alpha x 1 y 1) k = fadd (at1 y k) (fmul alpha (at1 x k)).
Proof.
  intros Hk. unfold daxpy_v. rewrite at1_map_seq by lia.
  rewrite Nat.mod_1_r, Nat.div_1_r, Nat.mul_1_r. reflexivity.
Qed.

(** X10.  What the source announces in its comments: the predicted mean and
    covariance handed to [rts_backward_step] are overwritten, with their
    difference to the smoothed ones; [temp_nn] holds the transposed gain; and
    the filtered mean has become
    [filtered_mu - temp_nn^T (next_predict_mu - next_smoothed_mu)]. *)
Theorem rts_backward_step_on_exit
    (A sigma_states filtered_mu filtered_sigma next_predict_mu next_predict_sigma
     next_smoothed_mu next_smoothed_sigma temp_nn temp_nn2 : ptr) (n j k : nat)
    (s : @machine F) :
  rts_layout A filtered_mu filtered_sigma next_predict_mu next_predict_sigma
             next_smoothed_mu next_smoothed_sigma temp_nn temp_nn2 n ->
  j < n -> k < n * n ->
  let s' := rts_backward_step A sigma_states filtered_mu filtered_sigma
              next_predict_mu next_predict_sigma next_smoothed_mu next_smoothed_sigma
              temp_nn temp_nn2 n s in
  rd s' next_predict_mu j
  = fadd (rd s next_predict_mu j) (fmul neg1 (rd s next_smoothed_mu j))
  /\ rd s' next_predict_sigma k
     = fadd (rd s next_predict_sigma k) (fmul neg1 (rd s next_smoothed_sigma k))
  /\ load (heap s') temp_nn (n * n)
     = rts_gain_v (load (heap s) A (n * n)) (load (heap s) filtered_sigma (n * n))
                  (load (heap s) next_predict_sigma (n * n)) n
  /\ rd s' filtered_mu j
     = fadd (rd s filtered_mu j)
            (fmul neg1 (fsum n (fun l => fmul (rd s' temp_nn (l + j * n))
                                              (rd s' next_predict_mu l)))).
Proof.
  intros L Hj Hk s'.
  destruct (rts_backward_step_spec sigma_states s L) as (H1 & _ & H3 & _).
  cbv zeta in H1, H3. fold s' in H1, H3.
  unfold rts_layout in L. simpl in L. decompose [and] L. clear L.
  assert (Hpm : load (heap s') next_predict_mu n
                = daxpy_v n neg1 (load (heap s) next_smoothed_mu n) 1
                          (load (heap s) next_predict_mu n) 1).
  { subst s'. unfold rts_backward_step. cbv zeta. run. settle. }
  assert (Hps : load (heap s') next_predict_sigma (n * n)
                = daxpy_v (n * n) neg1 (load (heap s) next_smoothed_sigma (n * n)) 1
                          (load (heap s) next_predict_sigma (n * n)) 1).
  { subst s'. unfold rts_backward_step. cbv zeta. run. settle. }
  split; [|split; [|split]].
  - rewrite (@rd_load F SF s' next_predict_mu n j Hj), Hpm, daxpy_v_entry by exact Hj.
    now rewrite <- !(@rd_load F SF s _ n j Hj).
  - rewrite (@rd_load F SF s' next_predict_sigma (n * n) k Hk), Hps, daxpy_v_entry
      by exact Hk.
    now rewrite <- !(@rd_load F SF s _ (n * n) k Hk).
  - exact H3.
  - rewrite (@rd_load F SF s' filtered_mu n j Hj), H1.
    unfold rts_mu_v, dgemv_v. rewrite at1_map_seq by lia.
    rewrite Nat.mod_1_r, Nat.div_1_r. simpl Nat.eqb. cbv iota.
    rewrite scale_beta_one, <- (@rd_load F SF s filtered_mu n j Hj).
    f_equal. f_equal. apply fsum_ext. intros l Hl.
    rewrite (@rd_load F SF s' temp_nn (n * n) (l + j * n)) by nia.
    rewrite (@rd_load F SF s' next_predict_mu n l Hl).
    rewrite H3, Hpm, Nat.mul_1_r. reflexivity.
Qed.

End RtsExit.

(** ** The statuses of the LAPACK calls *)

Section Statuses.

Context {F : Type} {SF : Scalar F}.

Lemma infos_dcopy n0 x incx y incy (s : @machine F) :
  infos (dcopy n0 x incx y incy s) = infos s.
Proof. reflexivity. Qed.

Lemma infos_dgemv tr m n0 alpha a lda x incx beta y incy (s : @machine F) :
  infos (dgemv tr m n0 alpha a lda x incx beta y incy s) = infos s.
Proof. reflexivity. Qed.

Lemma infos_dgemm ta tb m n0 k alpha a lda b ldb beta c ldc (s : @machine F) :
  infos (dgemm ta tb m n0 k alpha a lda b ldb beta c ldc s) = infos s.
Proof. reflexivity. Qed.

Lemma infos_dpotrf n0 a lda (s : @machine F) :
  infos (dpotrf n0 a lda s)
  = infos s ++ [(DPOTRF, snd (dpotrf_v n0 (load (heap s) a (lda * n0)) lda))].
Proof. reflexivity. Qed.

Lemma infos_dtrtrs tr n0 nrhs a lda b ldb (s : @machine F) :
  infos (dtrtrs tr n0 nrhs a lda b ldb s)
  = infos s ++ [(DTRTRS, snd (dtrtrs_v tr n0 nrhs (load (heap s) a (lda * n0)) lda
                                       (load (heap s) b (ldb * nrhs)) ldb))].
Proof. reflexivity. Qed.

(** X11.  A missing observation costs no LAPACK call, so that nothing can fail
    on it; an observed one costs one factorization and three triangular
    solves, in this order; and [predict] calls LAPACK not at all. *)
Theorem statuses_of_a_step
    (mu_x sigma_x C sigma_obs y mu_cond sigma_cond temp_p temp_pn temp_pp
     mu sigma A sigma_states mu_predict sigma_predict temp_nn : ptr) (p n : nat)
    (s : @machine F) :
  (exists i1 i2 i3 i4,
     infos (snd (condition_on mu_x sigma_x C sigma_obs y mu_cond sigma_cond
                              temp_p temp_pn temp_pp p n s))
     = if negb (feqb (rd s y 0) (rd s y 0)) then infos s
       else infos s ++ [(DPOTRF, i1); (DTRTRS, i2); (DTRTRS, i3); (DTRTRS, i4)])
  /\ infos (predict mu sigma A sigma_states mu_predict sigma_predict temp_nn n s)
     = infos s.
Proof.
  split.
  - unfold condition_on. cbv zeta.
    destruct (negb (feqb (rd s y 0) (rd s y 0))); simpl snd.
    + exists 0, 0, 0, 0. now rewrite !infos_dcopy.
    + destruct (negb (ptr_eqb mu_x mu_cond)); destruct (negb (ptr_eqb sigma_x sigma_cond));
        repeat first [ rewrite infos_dgemm | rewrite infos_dcopy | rewrite infos_dgemv ];
        rewrite infos_dtrtrs;
        repeat first [ rewrite infos_dgemm | rewrite infos_dcopy | rewrite infos_dgemv ];
        rewrite infos_dtrtrs;
        repeat first [ rewrite infos_dgemm | rewrite infos_dcopy | rewrite infos_dgemv ];
        rewrite infos_dtrtrs;
        repeat first [ rewrite infos_dgemm | rewrite infos_dcopy | rewrite infos_dgemv ];
        rewrite infos_dpotrf;
        repeat first [ rewrite infos_dgemm | rewrite infos_dcopy | rewrite infos_dgemv ];
        rewrite <- !app_assoc; simpl; do 4 eexists; reflexivity.
  - unfold predict. cbv zeta.
    now repeat first [ rewrite infos_dgemm | rewrite infos_dcopy | rewrite infos_dgemv ].
Qed.

End Statuses.

(** ** The empty horizon *)

Section Empty.

Context {F : Type} {SF : Scalar F}.

(** X12.  With no step at all ([C] has no row), [kalman_filter] and
    [rts_smoother] return a log-likelihood of 0 and empty arrays, whereas
    [E_step] raises: it asks [np.empty] for [T-1] matrices. *)
Theorem empty_horizon (g : @mem F) (i : @inputs F) :
  valid i -> T i = 0 ->
  kalman_filter g i = Ok (f0, mkarr [0; n i] [], mkarr [0; n i; n i] [])
  /\ rts_smoother g i = Ok (f0, mkarr [0; n i] [], mkarr [0; n i; n i] [])
  /\ E_step g i = ValueError.
Proof.
  intros Hv HT. apply valid_admissible in Hv.
  rewrite (kalman_filter_value Hv), (rts_smoother_value Hv).
  unfold total_ll, stack, E_step. rewrite HT. simpl. auto.
Qed.

End Empty.

(** ** These properties on runs in double precision *)

Module MoreRuns.

Import Double.
Local Open Scope float_scope.

(** [Runs.two_steps] with its second observation seen. *)
Definition two_steps_seen : @inputs float :=
  with_data Runs.two_steps (mkarr [2%nat; 1%nat] [nan; 7]).

(** An initial mean of three entries for a model of one state dimension. *)
Definition long_mean : @inputs float :=
  mkinputs (mkarr [3%nat] [0; 0; 0]) (mkarr [1%nat; 1%nat] [1000000])
           (mkarr [1%nat; 1%nat; 1%nat] [1]) (mkarr [1%nat; 1%nat; 1%nat] [1])
           (mkarr [1%nat; 1%nat; 1%nat] [1]) (mkarr [1%nat; 1%nat; 1%nat] [1])
           (mkarr [1%nat; 1%nat] [3]).

(** A model of no step. *)
Definition no_step : @inputs float :=
  mkinputs (mkarr [1%nat] [0]) (mkarr [1%nat; 1%nat] [1])
           (mkarr [0%nat; 1%nat; 1%nat] []) (mkarr [0%nat; 1%nat; 1%nat] [])
           (mkarr [0%nat; 1%nat; 1%nat] []) (mkarr [0%nat; 1%nat; 1%nat] [])
           (mkarr [0%nat; 1%nat] []).

End MoreRuns.

Ltac regions_by_buffers :=
  unfold predict_layout, rts_layout, sep; simpl; repeat split; left; discriminate.

Lemma filter_and_sample_is_backward_sampling_holds :
  let i := Runs.two_steps in
  valid i /\ 1 <= T i /\ 0 < n i
  /\ exists ll draws,
       filter_and_sample Double.junk i (fun _ => 0%float) = Ok (ll, draws)
       /\ shape draws = [T i; n i].
Proof.
  cbv zeta.
  assert (Hv : valid Runs.two_steps) by valid_by_shape.
  assert (HT : 1 <= T Runs.two_steps) by (vm_compute; lia).
  assert (Hn : 0 < n Runs.two_steps) by (vm_compute; lia).
  split; [exact Hv|]. split; [exact HT|]. split; [exact Hn|].
  destruct (@filter_and_sample_is_backward_sampling float Double.scalar Double.junk
              Double.junk (fun _ => 0%float) Runs.two_steps Hv HT Hn)
    as (ll & fm & fs & draws & _ & H2 & H3 & _).
  exists ll, draws. split; assumption.
Defined.

Lemma results_do_not_depend_on_fresh_memory_holds :
  let i := Runs.two_steps in
  valid i /\ 1 <= T i /\ 0 < n i
  /\ kalman_filter Double.junk i = kalman_filter (fun _ _ => 0%float) i.
Proof.
  cbv zeta.
  assert (Hv : valid Runs.two_steps) by valid_by_shape.
  assert (HT : 1 <= T Runs.two_steps) by (vm_compute; lia).
  assert (Hn : 0 < n Runs.two_steps) by (vm_compute; lia).
  split; [exact Hv|]. split; [exact HT|]. split; [exact Hn|].
  exact (proj1 (@results_do_not_depend_on_fresh_memory float Double.scalar Double.junk
                  (fun _ _ => 0%float) (fun _ => 0%float) Runs.two_steps Hv HT Hn)).
Defined.

Lemma E_step_extends_rts_smoother_holds :
  let i := Runs.two_steps in
  valid i /\ 1 <= T i
  /\ exists ll sm ss ex,
       rts_smoother Double.junk i = Ok (ll, sm, ss)
       /\ E_step Double.junk i = Ok (ll, sm, ss, ex).
Proof.
  cbv zeta.
  assert (Hv : valid Runs.two_steps) by valid_by_shape.
  assert (HT : 1 <= T Runs.two_steps) by (vm_compute; lia).
  split; [exact Hv|]. split; [exact HT|].
  exact (@E_step_extends_rts_smoother float Double.scalar Double.junk Double.junk
           Runs.two_steps Hv HT).
Defined.

Lemma rts_smoother_is_backward_recursion_holds :
  let i := Runs.two_steps in
  valid i /\ 0 + 1 < T i
  /\ exists ll fm fs sm ss,
       kalman_filter Double.junk i = Ok (ll, fm, fs)
       /\ rts_smoother Double.junk i = Ok (ll, sm, ss).
Proof.
  cbv zeta.
  assert (Hv : valid Runs.two_steps) by valid_by_shape.
  assert (HT : 0 + 1 < T Runs.two_steps) by (vm_compute; lia).
  split; [exact Hv|]. split; [exact HT|].
  destruct (@rts_smoother_is_backward_recursion float Double.scalar Double.junk
              Double.junk Runs.two_steps 0 Hv HT)
    as (ll & fm & fs & sm & ss & H1 & H2 & _).
  exists ll, fm, fs, sm, ss. split; assumption.
Defined.

Lemma kalman_filter_is_causal_holds :
  let i := Runs.two_steps in
  let i' := MoreRuns.two_steps_seen in
  valid i /\ valid i' /\ agree_before 1 i i' /\ 0 < T i /\ 0 < T i'
  /\ exists ll fm fs ll' fm' fs',
       kalman_filter Double.junk i = Ok (ll, fm, fs)
       /\ kalman_filter Double.junk i' = Ok (ll', fm', fs')
       /\ chunk fm 0 = chunk fm' 0
       /\ chunk fs 0 = chunk fs' 0.
Proof.
  cbv zeta.
  assert (Hv : valid Runs.two_steps) by valid_by_shape.
  assert (Hv' : valid MoreRuns.two_steps_seen) by valid_by_shape.
  assert (Ha : agree_before 1 Runs.two_steps MoreRuns.two_steps_seen).
  { unfold agree_before. repeat split; try reflexivity;
      destruct t as [|t]; try reflexivity; lia. }
  assert (HT : 0 < T Runs.two_steps) by (vm_compute; lia).
  assert (HT' : 0 < T MoreRuns.two_steps_seen) by (vm_compute; lia).
  split; [exact Hv|]. split; [exact Hv'|]. split; [exact Ha|].
  split; [exact HT|]. split; [exact HT'|].
  exact (@kalman_filter_is_causal float Double.scalar Double.junk Double.junk
           Runs.two_steps MoreRuns.two_steps_seen 0 Hv Hv' Ha HT HT').
Defined.

Lemma kalman_filter_leaves_its_arguments_holds :
  let i := Double.one_step 3 in
  valid i /\ input_array i b_data = Some (in_data i) /\ 0 < length (elems (in_data i))
  /\ heap (snd (kalman_filter_run Double.junk i)) b_data 0 = 3%float.
Proof.
  cbv zeta.
  assert (Hv : valid (Double.one_step 3)) by valid_by_shape.
  assert (Hb : input_array (Double.one_step 3) b_data = Some (in_data (Double.one_step 3)))
    by reflexivity.
  assert (Hk : 0 < length (elems (in_data (Double.one_step 3)))) by (vm_compute; lia).
  split; [exact Hv|]. split; [exact Hb|]. split; [exact Hk|].
  exact (@kalman_filter_leaves_its_arguments float Double.scalar Double.junk
           (Double.one_step 3) b_data (in_data (Double.one_step 3)) 0 Hv Hb Hk).
Defined.

Lemma smoother_rejects_initial_mean_holds :
  let i := MoreRuns.long_mean in
  shape (in_mu_init i) = [3] /\ 3 <> n i /\ 3 <> 1
  /\ rts_smoother Double.junk i = ValueError /\ E_step Double.junk i = ValueError.
Proof.
  cbv zeta.
  assert (Hs : shape (in_mu_init MoreRuns.long_mean) = [3]) by reflexivity.
  assert (H1 : 3 <> n MoreRuns.long_mean) by (vm_compute; lia).
  assert (H2 : 3 <> 1) by lia.
  split; [exact Hs|]. split; [exact H1|]. split; [exact H2|].
  exact (@smoother_rejects_initial_mean float Double.scalar Double.junk
           MoreRuns.long_mean 3 Hs H1 H2).
Defined.

Lemma predict_computes_the_time_update_holds :
  let s := entry Double.junk (Double.one_step 3) in
  rd (predict (whole b_mu_init) (whole b_sigma_init) (whole b_A) (whole b_sigma_states)
              (whole b_mu_predict) (whole b_sigma_predict) (whole b_temp_nn) 1 s)
     (whole b_mu_predict) 0
  = fadd f0 (fmul one (fsum 1 (fun k => fmul (rd s (whole b_A) (0 * 1 + k))
                                             (rd s (whole b_mu_init) k)))).
Proof.
  cbv zeta.
  refine (proj1 (@predict_computes_the_time_update float Double.scalar
            (whole b_mu_init) (whole b_sigma_init) (whole b_A) (whole b_sigma_states)
            (whole b_mu_predict) (whole b_sigma_predict) (whole b_temp_nn) 1 0 0
            (entry Double.junk (Double.one_step 3)) _ _ _)).
  - regions_by_buffers.
  - lia.
  - lia.
Defined.

Lemma rts_backward_step_on_exit_holds :
  let s := entry Double.junk (Double.one_step 3) in
  rd (rts_backward_step (whole b_A) (whole b_sigma_states)
        (whole b_smoothed_mus) (whole b_smoothed_sigmas)
        (whole b_mu_predicts) (whole b_sigma_predicts)
        (whole b_mu_init) (whole b_sigma_init)
        (whole b_temp_nn) (whole b_temp_nn2) 1 s)
     (whole b_mu_predicts) 0
  = fadd (rd s (whole b_mu_predicts) 0) (fmul neg1 (rd s (whole b_mu_init) 0)).
Proof.
  cbv zeta.
  refine (proj1 (@rts_backward_step_on_exit float Double.scalar
            (whole b_A) (whole b_sigma_states)
            (whole b_smoothed_mus) (whole b_smoothed_sigmas)
            (whole b_mu_predicts) (whole b_sigma_predicts)
            (whole b_mu_init) (whole b_sigma_init)
            (whole b_temp_nn) (whole b_temp_nn2) 1 0 0
            (entry Double.junk (Double.one_step 3)) _ _ _)).
  - regions_by_buffers.
  - lia.
  - lia.
Defined.

Lemma empty_horizon_holds :
  let i := MoreRuns.no_step in
  valid i /\ T i = 0
  /\ kalman_filter Double.junk i = Ok (f0, mkarr [0; n i] [], mkarr [0; n i; n i] [])
  /\ E_step Double.junk i = ValueError.
Proof.
  cbv zeta.
  assert (Hv : valid MoreRuns.no_step) by valid_by_shape.
  assert (HT : T MoreRuns.no_step = 0) by reflexivity.
  split; [exact Hv|]. split; [exact HT|].
  destruct (@empty_horizon float Double.scalar Double.junk MoreRuns.no_step Hv HT)
    as (H1 & _ & H3).
  split; assumption.
Defined.

(** ** Symmetry through the measurement update *)

From Stdlib Require Floats.FloatOps Floats.FloatAxioms Floats.SpecFloat.

Section Symmetry.

Context {F : Type} {SF : Scalar F}.

(** Multiplication commutes: binary64 has this law, rounding and special
    values included ([DoubleLaws.mul_comm] below). *)
Hypothesis mul_comm : forall x y : F, fmul x y = fmul y x.






End Symmetry.

Module DoubleLaws.

Import FloatOps FloatAxioms SpecFloat.


(** Two steps in two dimensions, both observations seen, from a prior with
    correlated coordinates: Sigma_0 = [[2, 1], [1, 2]]. *)
Definition correlated : @inputs float :=
  mkinputs (mkarr [2] [1; 2]%float) (mkarr [2; 2] [2; 1; 1; 2]%float)
           (mkarr [2; 2; 2] [1; 1; 0; 1; 1; 1; 0; 1]%float)
           (mkarr [2; 2; 2] [2; 1; 1; 4; 2; 1; 1; 4]%float)
           (mkarr [2; 1; 2] [1; 0; 1; 0]%float)
           (mkarr [2; 1; 1] [1; 1]%float)
           (mkarr [2; 1] [3; 7]%float).

End DoubleLaws.


(** In binary64 the backward step can lose symmetry in the last bits: on
    [correlated] the smoothed covariance at [t = 0] that [rts_smoother]
    returns has 0 above the diagonal and 2^-54 below it, where the
    filtered covariance of the same step is symmetric. *)
Lemma smoother_can_lose_symmetry :
  exists ll fm fs sm ss,
    kalman_filter Double.junk DoubleLaws.correlated = Ok (ll, fm, fs)
    /\ rts_smoother Double.junk DoubleLaws.correlated = Ok (ll, sm, ss)
    /\ at1 (chunk fs 0) 1 = at1 (chunk fs 0) 2
    /\ at1 (chunk ss 0) 1 = 0%float
    /\ at1 (chunk ss 0) 2 = 0x1p-54%float.
Proof. do 5 eexists. vm_compute. repeat split; reflexivity. Qed.
